(** * estereo.py: WAVE container codec and joint-stereo transcoding

    A shallow embedding of [src/estereo.py].  A file is the list of its
    bytes; Python integers are [Z]; the two dictionaries [header] and
    [data] are records with the keys the code uses; exceptions are an
    explicit error type.  [struct.pack], [struct.unpack] and
    [struct.iter_unpack] are modelled for the six format codes the program
    uses, always in standard little-endian mode (every format string of
    the program starts with [<]). *)

From Stdlib Require Import ZArith List Bool Lia.
From Stdlib Require Import Strings.Byte.
Import ListNotations.

Local Open Scope Z_scope.

(** ** Exceptions *)

(** The [ValueError]s the program raises itself, by the message it builds,
    plus the one Python raises for an extended-slice assignment whose two
    sides differ in length. *)
Inductive reason : Type :=
  | NotWave          (* "... is not a WAVE file" *)
  | BadBitsPerSample (* "Bits per sample must be 8, 16 or 32 ..." *)
  | NotStereo        (* "... is not an estereo file" *)
  | NotMono          (* "... is not a mono file" *)
  | Not32Bit         (* "... is not a 32-bit file" *)
  | BadChannel       (* "Channel must be a number between 0 and 3 ..." *)
  | SliceSize.       (* "attempt to assign sequence of size .. to extended slice of size .." *)

Inductive exn : Type :=
  | ValueError (why : reason)
  | StructError      (* struct.error *)
  | OverflowError.   (* int.to_bytes: int too big to convert *)

Definition result (A : Type) : Type := (exn + A)%type.

Definition ret {A} (a : A) : result A := inr a.
Definition raise {A} (e : exn) : result A := inl e.
Definition bind {A B} (r : result A) (k : A -> result B) : result B :=
  match r with
  | inl e => inl e
  | inr a => k a
  end.

Notation "x <- r ;; k" := (bind r (fun x => k))
  (at level 61, r at next level, right associativity).

(** ** Bytes and little-endian integers *)

Definition Z_of_byte (b : byte) : Z := Z.of_N (Byte.to_N b).

Definition byte_of_Z (z : Z) : byte :=
  match Byte.of_N (Z.to_N (z mod 256)) with
  | Some b => b
  | None => x00
  end.

(** [n.to_bytes(w, "little")] on the low [8*w] bits of [n]. *)
Fixpoint to_le (w : nat) (n : Z) : list byte :=
  match w with
  | O => []
  | S w' => byte_of_Z n :: to_le w' (n / 256)
  end.

(** [int.from_bytes(bs, "little")], unsigned. *)
Fixpoint from_le (bs : list byte) : Z :=
  match bs with
  | [] => 0
  | b :: bs' => Z_of_byte b + 256 * from_le bs'
  end.

(** Reinterpretation of an unsigned [bits]-bit value as two's complement. *)
Definition to_signed (bits : Z) (u : Z) : Z :=
  if u <? 2 ^ (bits - 1) then u else u - 2 ^ bits.

Definition in_signed (bits : Z) (n : Z) : Prop :=
  - 2 ^ (bits - 1) <= n < 2 ^ (bits - 1).

Definition in_signedb (bits : Z) (n : Z) : bool :=
  (- 2 ^ (bits - 1) <=? n) && (n <? 2 ^ (bits - 1)).

Definition in_unsignedb (bits : Z) (n : Z) : bool :=
  (0 <=? n) && (n <? 2 ^ bits).

(** [int.to_bytes(n, length=2, byteorder="little", signed=True)]. *)
Definition int_to_bytes_signed (n : Z) (len : nat) : result (list byte) :=
  if in_signedb (8 * Z.of_nat len) n
  then ret (to_le len (n mod 2 ^ (8 * Z.of_nat len)))
  else raise OverflowError.

(** [int.to_bytes(n, 2, "little")] (unsigned: a negative [n] overflows too). *)
Definition int_to_bytes (n : Z) (len : nat) : result (list byte) :=
  if in_unsignedb (8 * Z.of_nat len) n
  then ret (to_le len n)
  else raise OverflowError.

(** [int.from_bytes(bs, byteorder="little", signed=True)]. *)
Definition int_from_bytes_signed (bs : list byte) : Z :=
  match bs with
  | [] => 0
  | _ => to_signed (8 * Z.of_nat (length bs)) (from_le bs)
  end.

Definition bytes_eqb (a b : list byte) : bool :=
  if list_eq_dec Byte.byte_eq_dec a b then true else false.

(** ** The [struct] module, standard little-endian mode *)

Module st.

(** Format codes: [4s], [I], [H], [b], [h], [i]. *)
Inductive code : Type := c_4s | c_I | c_H | c_b | c_h | c_i.

Inductive value : Type :=
  | Bytes (bs : list byte)
  | Int (n : Z).

Definition size (c : code) : nat :=
  match c with
  | c_4s => 4 | c_I => 4 | c_H => 2 | c_b => 1 | c_h => 2 | c_i => 4
  end%nat.

Definition calcsize (format : list code) : nat :=
  list_sum (map size format).

Definition pack_unsigned (w : nat) (n : Z) : result (list byte) :=
  if in_unsignedb (8 * Z.of_nat w) n then ret (to_le w n)
  else raise StructError.

Definition pack_signed (w : nat) (n : Z) : result (list byte) :=
  if in_signedb (8 * Z.of_nat w) n
  then ret (to_le w (n mod 2 ^ (8 * Z.of_nat w)))
  else raise StructError.

(** One field.  [4s] truncates a longer bytes object and pads a shorter
    one with null bytes; an argument of the wrong type is a
    [struct.error]. *)
Definition pack1 (c : code) (v : value) : result (list byte) :=
  match c, v with
  | c_4s, Bytes bs => ret (firstn 4 (bs ++ repeat x00 4))
  | c_I, Int n => pack_unsigned 4 n
  | c_H, Int n => pack_unsigned 2 n
  | c_b, Int n => pack_signed 1 n
  | c_h, Int n => pack_signed 2 n
  | c_i, Int n => pack_signed 4 n
  | _, _ => raise StructError
  end.

(** [struct.pack(format, *values)]: as many values as codes. *)
Fixpoint pack (format : list code) (values : list value)
  : result (list byte) :=
  match format, values with
  | [], [] => ret []
  | c :: format', v :: values' =>
      b <- pack1 c v ;;
      bs <- pack format' values' ;;
      ret (b ++ bs)
  | _, _ => raise StructError
  end.

Definition unpack1 (c : code) (bs : list byte) : value :=
  match c with
  | c_4s => Bytes bs
  | c_I | c_H => Int (from_le bs)
  | c_b | c_h | c_i => Int (to_signed (8 * Z.of_nat (size c)) (from_le bs))
  end.

Fixpoint unpack_fields (format : list code) (bs : list byte) : list value :=
  match format with
  | [] => []
  | c :: format' =>
      unpack1 c (firstn (size c) bs)
        :: unpack_fields format' (skipn (size c) bs)
  end.

(** [struct.unpack(format, buffer)]: the buffer must have exactly the
    size of the format. *)
Definition unpack (format : list code) (buffer : list byte)
  : result (list value) :=
  if Nat.eqb (length buffer) (calcsize format)
  then ret (unpack_fields format buffer)
  else raise StructError.

Fixpoint chunks (n : nat) (format : list code) (bs : list byte)
  : list (list value) :=
  match n with
  | O => []
  | S n' =>
      unpack_fields format (firstn (calcsize format) bs)
        :: chunks n' format (skipn (calcsize format) bs)
  end.

(** [struct.iter_unpack(format, buffer)]: the buffer's size must be a
    multiple of the (non-zero) size of the format; the check is made
    when the iterator is created. *)
Definition iter_unpack (format : list code) (buffer : list byte)
  : result (list (list value)) :=
  if Nat.eqb (calcsize format) 0 then raise StructError
  else if Nat.eqb (Nat.modulo (length buffer) (calcsize format)) 0
  then ret (chunks (Nat.div (length buffer) (calcsize format)) format buffer)
  else raise StructError.

End st.

Import st.

(** ** The two dictionaries *)

Record Header : Type := mkHeader {
  ChunkID : list byte;
  ChunkSize : Z;
  Format : list byte;
  SubChunk1ID : list byte;
  SubChunk1Size : Z;
  AudioFormat : Z;
  NumChannels : Z;
  SampleRate : Z;
  ByteRate : Z;
  BlockAlign : Z;
  BitsPerSample : Z
}.

Record Data : Type := mkData {
  SubChunk2ID : list byte;
  SubChunk2Size : Z;
  data : list Z
}.

(** [header["NumChannels"] = v] and the like. *)
Definition set_NumChannels (v : Z) (h : Header) : Header :=
  mkHeader (ChunkID h) (ChunkSize h) (Format h) (SubChunk1ID h)
    (SubChunk1Size h) (AudioFormat h) v (SampleRate h) (ByteRate h)
    (BlockAlign h) (BitsPerSample h).

Definition set_ByteRate (v : Z) (h : Header) : Header :=
  mkHeader (ChunkID h) (ChunkSize h) (Format h) (SubChunk1ID h)
    (SubChunk1Size h) (AudioFormat h) (NumChannels h) (SampleRate h) v
    (BlockAlign h) (BitsPerSample h).

Definition set_BlockAlign (v : Z) (h : Header) : Header :=
  mkHeader (ChunkID h) (ChunkSize h) (Format h) (SubChunk1ID h)
    (SubChunk1Size h) (AudioFormat h) (NumChannels h) (SampleRate h)
    (ByteRate h) v (BitsPerSample h).

Definition set_BitsPerSample (v : Z) (h : Header) : Header :=
  mkHeader (ChunkID h) (ChunkSize h) (Format h) (SubChunk1ID h)
    (SubChunk1Size h) (AudioFormat h) (NumChannels h) (SampleRate h)
    (ByteRate h) (BlockAlign h) v.

(** The bytes literals of the program. *)
Definition WAVE : list byte := [x57; x41; x56; x45].    (* b"WAVE" *)
Definition data_id : list byte := [x64; x61; x74; x61]. (* b"data" *)

(** ** File objects *)

(** [f.seek(position)] followed by [f.read(n)]: at most [n] bytes, fewer
    at the end of the file. *)
Definition f_read (content : list byte) (position n : nat) : list byte :=
  firstn n (skipn position content).

(** [f.seek(position)] followed by [f.read()]: the rest of the file. *)
Definition f_read_all (content : list byte) (position : nat) : list byte :=
  skipn position content.

(** What a call that writes a file leaves behind: the bytes of the output
    file if it was opened ([None] when the call raised before [open]),
    and the exception that ended the call, if any.  A file opened for
    writing keeps what was written before an exception. *)
Record outcome : Type := mkOutcome {
  written : option (list byte);
  raised : option exn
}.

(** ** read_wave and write_wave *)

Definition riff_format : list code := [c_4s; c_I; c_4s].
Definition fmt_format : list code :=
  [c_4s; c_I; c_H; c_H; c_I; c_I; c_H; c_H].
Definition data_format : list code := [c_4s; c_I].

(** The [if]/[elif] chain on [header["BitsPerSample"]], shared by the
    reader and the writer. *)
Definition sample_code (bits : Z) : result code :=
  if bits =? 8 then ret c_b
  else if bits =? 16 then ret c_h
  else if bits =? 32 then ret c_i
  else raise (ValueError BadBitsPerSample).

(** [int(sample[0])] for each tuple of the iterator. *)
Fixpoint first_ints (tuples : list (list value)) : result (list Z) :=
  match tuples with
  | [] => ret []
  | (Int n :: _) :: rest => ns <- first_ints rest ;; ret (n :: ns)
  | _ => raise StructError
  end.

Definition read_wave (content : list byte) : result (Header * Data) :=
  (* RIFF chunk descriptor *)
  let format := riff_format in
  let buffer := f_read content 0 (calcsize format) in
  fields <- unpack format buffer ;;
  match fields with
  | [Bytes chunk_id; Int chunk_size; Bytes wave] =>
    let position := calcsize format in
    if negb (bytes_eqb wave WAVE) then raise (ValueError NotWave) else
    (* fmt subchunk *)
    let format := fmt_format in
    let buffer := f_read content position (calcsize format) in
    fields <- unpack format buffer ;;
    match fields with
    | [Bytes sc1_id; Int sc1_size; Int audio_format; Int num_channels;
       Int sample_rate; Int byte_rate; Int block_align; Int bits] =>
      let position := (position + calcsize format)%nat in
      (* data subchunk *)
      let format := data_format in
      let buffer := f_read content position (calcsize format) in
      fields <- unpack format buffer ;;
      match fields with
      | [Bytes sc2_id; Int sc2_size] =>
        let position := (position + calcsize format)%nat in
        (* data *)
        c <- sample_code bits ;;
        let buffer := f_read_all content position in
        tuples <- iter_unpack [c] buffer ;;
        samples <- first_ints tuples ;;
        ret (mkHeader chunk_id chunk_size wave sc1_id sc1_size audio_format
               num_channels sample_rate byte_rate block_align bits,
             mkData sc2_id sc2_size samples)
      | _ => raise StructError
      end
    | _ => raise StructError
    end
  | _ => raise StructError
  end.

(** The body of the [with open(filename, "wb") as f:] block: the bytes
    written so far are threaded through, and kept when a pack raises. *)
Definition write_body (header : Header) (data_ : Data)
  : list byte * option exn :=
  let f := [] in
  (* RIFF chunk descriptor *)
  match pack riff_format
          [Bytes (ChunkID header); Int (ChunkSize header);
           Bytes (Format header)] with
  | inl e => (f, Some e)
  | inr buffer =>
    let f := f ++ buffer in
    (* fmt subchunk *)
    match pack fmt_format
            [Bytes (SubChunk1ID header); Int (SubChunk1Size header);
             Int (AudioFormat header); Int (NumChannels header);
             Int (SampleRate header); Int (ByteRate header);
             Int (BlockAlign header); Int (BitsPerSample header)] with
    | inl e => (f, Some e)
    | inr buffer =>
      let f := f ++ buffer in
      (* data subchunk *)
      match pack data_format
              [Bytes (SubChunk2ID data_); Int (SubChunk2Size data_)] with
      | inl e => (f, Some e)
      | inr buffer =>
        let f := f ++ buffer in
        (* data *)
        match sample_code (BitsPerSample header) with
        | inl e => (f, Some e)
        | inr c =>
          let format := repeat c (length (data data_)) in
          match pack format (map Int (data data_)) with
          | inl e => (f, Some e)
          | inr buffer => (f ++ buffer, None)
          end
        end
      end
    end
  end.

Definition write_wave (header : Header) (data_ : Data) : outcome :=
  if negb (bytes_eqb (Format header) WAVE)
  then mkOutcome None (Some (ValueError NotWave))
  else let '(f, e) := write_body header data_ in mkOutcome (Some f) e.

(** A call that raised before reaching [write_wave] wrote nothing. *)
Definition then_write (r : result (Header * Data)) : outcome :=
  match r with
  | inl e => mkOutcome None (Some e)
  | inr (header, data_) => write_wave header data_
  end.

(** ** Python list operations the transcoders use *)

(** [l[::2]]; [l[1::2]] is [slice2 (tl l)]. *)
Fixpoint slice2 {A} (l : list A) : list A :=
  match l with
  | [] => []
  | [x] => [x]
  | x :: _ :: rest => x :: slice2 rest
  end.

(** [l[::2] = vals]: an extended slice takes exactly as many values as it
    has positions, else Python raises [ValueError]. *)
Fixpoint assign_slice2 {A} (l vals : list A) : result (list A) :=
  match l, vals with
  | [], [] => ret []
  | [_], [v] => ret [v]
  | _ :: y :: rest, v :: vals' =>
      r <- assign_slice2 rest vals' ;; ret (v :: y :: r)
  | _, _ => raise (ValueError SliceSize)
  end.

(** [l[1::2] = vals]. *)
Definition assign_slice2_from1 {A} (l vals : list A) : result (list A) :=
  match l with
  | [] => match vals with
          | [] => ret []
          | _ => raise (ValueError SliceSize)
          end
  | x :: rest => r <- assign_slice2 rest vals ;; ret (x :: r)
  end.

(** A list comprehension whose body may raise. *)
Fixpoint mapM {A B} (f : A -> result B) (l : list A) : result (list B) :=
  match l with
  | [] => ret []
  | a :: l' => b <- f a ;; bs <- mapM f l' ;; ret (b :: bs)
  end.

(** The three statements that build the interleaved list in
    [mono2estereo] and [decEstereo]. *)
Definition interleave (left_ right_ : list Z) : result (list Z) :=
  let d := left_ ++ right_ in
  d <- assign_slice2 d left_ ;;
  assign_slice2_from1 d right_.

(** ** estereo2mono *)

(** The [if]/[elif] chain on [canal]. *)
Definition mono_samples (canal : Z) (left_channel right_channel : list Z)
  : result (list Z) :=
  if canal =? 0 then ret left_channel
  else if canal =? 1 then ret right_channel
  else if canal =? 2 then
    ret (map (fun '(left_sample, right_sample) =>
                (left_sample + right_sample) / 2)
             (combine left_channel right_channel))
  else if canal =? 3 then
    ret (map (fun '(left_sample, right_sample) =>
                (left_sample - right_sample) / 2)
             (combine left_channel right_channel))
  else raise (ValueError BadChannel).

(** Everything [estereo2mono] does before it calls [write_wave]. *)
Definition estereo2mono_args (ficEste : list byte) (canal : Z)
  : result (Header * Data) :=
  hd <- read_wave ficEste ;;
  let '(header, data_) := hd in
  if negb (NumChannels header =? 2) then raise (ValueError NotStereo) else
  (* Mono header *)
  let header := set_NumChannels 1 header in
  let header :=
    set_ByteRate
      (SampleRate header * NumChannels header * BitsPerSample header / 8)
      header in
  let header :=
    set_BlockAlign (NumChannels header * BitsPerSample header / 8) header in
  (* Define data to be saved *)
  let left_channel := slice2 (data data_) in
  let right_channel := slice2 (tl (data data_)) in
  mono <- mono_samples canal left_channel right_channel ;;
  let size :=
    Z.of_nat (length mono) * NumChannels header * BitsPerSample header / 8 in
  ret (header, mkData data_id size mono).

Definition estereo2mono (ficEste : list byte) (canal : Z) : outcome :=
  then_write (estereo2mono_args ficEste canal).

(** ** mono2estereo *)

Definition mono2estereo_args (ficIzq ficDer : list byte)
  : result (Header * Data) :=
  l <- read_wave ficIzq ;;
  let '(left_header, left_data) := l in
  if negb (NumChannels left_header =? 1) then raise (ValueError NotMono) else
  r <- read_wave ficDer ;;
  let '(right_header, right_data) := r in
  if negb (NumChannels right_header =? 1) then raise (ValueError NotMono) else
  (* Estereo header *)
  let header := left_header in
  let header := set_NumChannels 2 header in
  let header :=
    set_ByteRate
      (SampleRate header * NumChannels header * BitsPerSample header / 8)
      header in
  let header :=
    set_BlockAlign (NumChannels header * BitsPerSample header / 8) header in
  (* Define data to be saved *)
  d <- interleave (data left_data) (data right_data) ;;
  let size :=
    Z.of_nat (length (data left_data)) * NumChannels header
      * BitsPerSample header / 8 in
  ret (header, mkData data_id size d).

Definition mono2estereo (ficIzq ficDer : list byte) : outcome :=
  then_write (mono2estereo_args ficIzq ficDer).

(** ** codEstereo *)

(** The three list comprehensions that build the codified samples. *)
Definition cod_samples (left_channel right_channel : list Z)
  : result (list Z) :=
  semi_sum_bytes <-
    mapM (fun '(left_sample, right_sample) =>
            int_to_bytes_signed ((left_sample + right_sample) / 2) 2)
         (combine left_channel right_channel) ;;
  semi_diff_bytes <-
    mapM (fun '(left_sample, right_sample) =>
            int_to_bytes_signed ((left_sample - right_sample) / 2) 2)
         (combine left_channel right_channel) ;;
  ret (map (fun '(sum_sample, diff_sample) =>
              int_from_bytes_signed (sum_sample ++ diff_sample))
           (combine semi_sum_bytes semi_diff_bytes)).

Definition codEstereo_args (ficEste : list byte) : result (Header * Data) :=
  hd <- read_wave ficEste ;;
  let '(header, data_) := hd in
  if negb (NumChannels header =? 2) then raise (ValueError NotStereo) else
  (* Codified file header *)
  let header := set_NumChannels 1 header in
  let header := set_BitsPerSample 32 header in
  let header :=
    set_ByteRate
      (SampleRate header * NumChannels header * BitsPerSample header / 8)
      header in
  let header :=
    set_BlockAlign (NumChannels header * BitsPerSample header / 8) header in
  (* Define data to be saved *)
  let left_channel := slice2 (data data_) in
  let right_channel := slice2 (tl (data data_)) in
  cod <- cod_samples left_channel right_channel ;;
  let size :=
    Z.of_nat (length cod) * NumChannels header * BitsPerSample header / 8 in
  ret (header, mkData data_id size cod).

Definition codEstereo (ficEste : list byte) : outcome :=
  then_write (codEstereo_args ficEste).

(** ** decEstereo *)

(** [int.from_bytes(int.to_bytes(u, 2, "little"), "little", signed=True)]. *)
Definition as_int16 (u : Z) : result Z :=
  bs <- int_to_bytes u 2 ;; ret (int_from_bytes_signed bs).

(** The four list comprehensions of the decoder, with the program's own
    variable names: [semi_sum] is read from bits 16-31 of a sample and
    [semi_diff] from bits 0-15. *)
Definition dec_semi_sum (cod : list Z) : result (list Z) :=
  mapM (fun sample => as_int16 (Z.land (Z.shiftr sample 16) 65535)) cod.

Definition dec_semi_diff (cod : list Z) : result (list Z) :=
  mapM (fun sample => as_int16 (Z.land sample 65535)) cod.

Definition dec_samples (cod : list Z) : result (list Z * list Z) :=
  semi_sum <- dec_semi_sum cod ;;
  semi_diff <- dec_semi_diff cod ;;
  let left_channel :=
    map (fun '(sum_sample, diff_sample) => sum_sample + diff_sample)
        (combine semi_sum semi_diff) in
  let right_channel :=
    map (fun '(sum_sample, diff_sample) => sum_sample - diff_sample)
        (combine semi_sum semi_diff) in
  ret (left_channel, right_channel).

Definition decEstereo_args (ficCod : list byte) : result (Header * Data) :=
  hd <- read_wave ficCod ;;
  let '(header, cod_data) := hd in
  if negb (NumChannels header =? 1) then raise (ValueError NotMono) else
  if negb (BitsPerSample header =? 32) then raise (ValueError Not32Bit) else
  (* Decodified file header *)
  let header := set_NumChannels 2 header in
  let header := set_BitsPerSample 16 header in
  let header :=
    set_ByteRate
      (SampleRate header * NumChannels header * BitsPerSample header / 8)
      header in
  let header :=
    set_BlockAlign (NumChannels header * BitsPerSample header / 8) header in
  (* Define data to be saved *)
  lr <- dec_samples (data cod_data) ;;
  let '(left_channel, right_channel) := lr in
  d <- interleave left_channel right_channel ;;
  let size :=
    Z.of_nat (length d) * NumChannels header * BitsPerSample header / 8 in
  ret (header, mkData data_id size d).

Definition decEstereo (ficCod : list byte) : outcome :=
  then_write (decEstereo_args ficCod).

(** ** Vocabulary of the statements *)

(** A sample in the signed 16-bit range. *)
Definition int16 (n : Z) : Prop := in_signed 16 n.

(** The sample [codEstereo] builds from a half-sum [s] and a half-difference
    [d]: [s] in bits 0-15 and [d] in bits 16-31. *)
Definition packed (s d : Z) : Z :=
  int_from_bytes_signed (to_le 2 (s mod 65536) ++ to_le 2 (d mod 65536)).

(** The bytes of a canonical PCM file at 8000 samples per second, for the
    concrete instances: 44 bytes of header, then the samples. *)
Definition RIFF : list byte := [x52; x49; x46; x46].   (* b"RIFF" *)
Definition fmt_id : list byte := [x66; x6d; x74; x20]. (* b"fmt " *)

Definition wav_header (channels bits payload : Z) : list byte :=
  RIFF ++ to_le 4 (36 + payload) ++ WAVE
    ++ fmt_id ++ to_le 4 16 ++ to_le 2 1 ++ to_le 2 channels
    ++ to_le 4 8000 ++ to_le 4 (8000 * channels * bits / 8)
    ++ to_le 2 (channels * bits / 8) ++ to_le 2 bits
    ++ data_id ++ to_le 4 payload.

Definition wav (channels bits : Z) (samples : list Z) : list byte :=
  wav_header channels bits (Z.of_nat (length samples) * bits / 8)
    ++ concat (map (to_le (Z.to_nat (bits / 8))) samples).

(** The fields of a format read in place, at offset [position] of a file:
    what [unpack] returns on the [calcsize format] bytes found there. *)
Fixpoint fields_at (format : list code) (content : list byte)
  (position : nat) : list value :=
  match format with
  | [] => []
  | c :: format' =>
      unpack1 c (f_read content position (size c))
        :: fields_at format' content (position + size c)
  end.

(** The header fields at their fixed offsets in a file. *)
Definition header_at (content : list byte) : Header :=
  mkHeader (f_read content 0 4) (from_le (f_read content 4 4))
    (f_read content 8 4) (f_read content 12 4)
    (from_le (f_read content 16 4)) (from_le (f_read content 20 2))
    (from_le (f_read content 22 2)) (from_le (f_read content 24 4))
    (from_le (f_read content 28 4)) (from_le (f_read content 32 2))
    (from_le (f_read content 34 2)).

(** Headers and data that [write_wave] can serialize without loss:
    four-byte identifiers, every integer in the range of its field, the
    "WAVE" tag and one of the three sample widths. *)
Definition uint (bits : Z) (n : Z) : Prop := 0 <= n < 2 ^ bits.

Record valid_header (h : Header) : Prop := {
  vh_ChunkID : length (ChunkID h) = 4%nat;
  vh_ChunkSize : uint 32 (ChunkSize h);
  vh_Format : Format h = WAVE;
  vh_SubChunk1ID : length (SubChunk1ID h) = 4%nat;
  vh_SubChunk1Size : uint 32 (SubChunk1Size h);
  vh_AudioFormat : uint 16 (AudioFormat h);
  vh_NumChannels : uint 16 (NumChannels h);
  vh_SampleRate : uint 32 (SampleRate h);
  vh_ByteRate : uint 32 (ByteRate h);
  vh_BlockAlign : uint 16 (BlockAlign h);
  vh_BitsPerSample :
    BitsPerSample h = 8 \/ BitsPerSample h = 16 \/ BitsPerSample h = 32
}.

Record valid_data (bits : Z) (d : Data) : Prop := {
  vd_SubChunk2ID : length (SubChunk2ID d) = 4%nat;
  vd_SubChunk2Size : uint 32 (SubChunk2Size d);
  vd_data : Forall (in_signed bits) (data d)
}.

(** Values that [pack] stores unchanged under a code: bytes objects of
    four bytes for [4s] (shorter ones are padded, longer ones cut), any
    integer that the code accepts otherwise. *)
Definition canonical (c : code) (v : value) : Prop :=
  match c, v with
  | c_4s, Bytes bs => length bs = 4%nat
  | c_4s, Int _ => False
  | _, Int _ => True
  | _, Bytes _ => False
  end.

(** The four transcoding calls, each with the files it reads. *)
Inductive transcoding : Type :=
  | Estereo2mono (ficEste : list byte) (canal : Z)
  | Mono2estereo (ficIzq ficDer : list byte)
  | CodEstereo (ficEste : list byte)
  | DecEstereo (ficCod : list byte).

Definition run (t : transcoding) : outcome :=
  match t with
  | Estereo2mono ficEste canal => estereo2mono ficEste canal
  | Mono2estereo ficIzq ficDer => mono2estereo ficIzq ficDer
  | CodEstereo ficEste => codEstereo ficEste
  | DecEstereo ficCod => decEstereo ficCod
  end.

(** The file whose header the call reuses for its output. *)
Definition source (t : transcoding) : list byte :=
  match t with
  | Estereo2mono ficEste _ => ficEste
  | Mono2estereo ficIzq _ => ficIzq
  | CodEstereo ficEste => ficEste
  | DecEstereo ficCod => ficCod
  end.

(** What each transcoder hands to [write_wave] keeps the first three
    fields of the header it read. *)
Definition same_riff (h' h : Header) : Prop :=
  ChunkID h' = ChunkID h /\ ChunkSize h' = ChunkSize h
  /\ Format h' = Format h.

(** * Properties *)

(** ** Bytes and little-endian integers *)

Lemma Z_of_byte_range (b : byte) : 0 <= Z_of_byte b < 256.
Proof.
  unfold Z_of_byte. pose proof (Byte.to_N_bounded b). lia.
Qed.

Lemma Z_of_byte_of_Z (z : Z) : Z_of_byte (byte_of_Z z) = z mod 256.
Proof.
  unfold Z_of_byte, byte_of_Z.
  pose proof (Z.mod_pos_bound z 256 ltac:(lia)) as Hz.
  destruct (Byte.of_N (Z.to_N (z mod 256))) as [b|] eqn:E.
  - apply Byte.to_of_N in E. rewrite E. lia.
  - apply Byte.of_N_None_iff in E. lia.
Qed.

Lemma byte_of_Z_of_byte (b : byte) : byte_of_Z (Z_of_byte b) = b.
Proof.
  unfold byte_of_Z. pose proof (Z_of_byte_range b) as Hb.
  rewrite Z.mod_small by lia. unfold Z_of_byte.
  rewrite N2Z.id, Byte.of_to_N. reflexivity.
Qed.

Lemma length_to_le (w : nat) (n : Z) : length (to_le w n) = w.
Proof.
  revert n. induction w as [|w IH]; intros n; simpl; [reflexivity|].
  now rewrite IH.
Qed.

Lemma pow256_succ (w : nat) :
  2 ^ (8 * Z.of_nat (S w)) = 256 * 2 ^ (8 * Z.of_nat w).
Proof.
  replace (8 * Z.of_nat (S w)) with (8 + 8 * Z.of_nat w) by lia.
  rewrite Z.pow_add_r by lia. reflexivity.
Qed.

Lemma pow256_pos (w : nat) : 0 < 2 ^ (8 * Z.of_nat w).
Proof. apply Z.pow_pos_nonneg; lia. Qed.

Lemma from_le_range (bs : list byte) :
  0 <= from_le bs < 2 ^ (8 * Z.of_nat (length bs)).
Proof.
  induction bs as [|b bs IH].
  - simpl. lia.
  - cbn [from_le length]. rewrite pow256_succ.
    pose proof (Z_of_byte_range b). lia.
Qed.

Lemma from_le_to_le (w : nat) (n : Z) :
  from_le (to_le w n) = n mod 2 ^ (8 * Z.of_nat w).
Proof.
  revert n. induction w as [|w IH]; intros n.
  - simpl. now rewrite Z.mod_1_r.
  - cbn [to_le from_le]. rewrite IH, Z_of_byte_of_Z, pow256_succ.
    pose proof (pow256_pos w).
    rewrite Z.rem_mul_r by lia. reflexivity.
Qed.

Lemma to_le_from_le (bs : list byte) : to_le (length bs) (from_le bs) = bs.
Proof.
  induction bs as [|b bs IH]; [reflexivity|].
  cbn [length to_le from_le].
  pose proof (Z_of_byte_range b) as Hb.
  f_equal.
  - rewrite <- (byte_of_Z_of_byte b) at 2. unfold byte_of_Z.
    replace ((Z_of_byte b + 256 * from_le bs) mod 256)
      with (Z_of_byte b mod 256); [reflexivity|].
    rewrite (Z.mul_comm 256), Z.mod_add by lia. reflexivity.
  - replace ((Z_of_byte b + 256 * from_le bs) / 256) with (from_le bs);
      [exact IH|].
    rewrite (Z.mul_comm 256), Z.div_add by lia.
    rewrite Z.div_small by lia. lia.
Qed.

Lemma from_le_app (a b : list byte) :
  from_le (a ++ b) = from_le a + 2 ^ (8 * Z.of_nat (length a)) * from_le b.
Proof.
  induction a as [|x a IH].
  - cbn [app from_le length]. change (8 * Z.of_nat 0) with 0.
    rewrite Z.pow_0_r. lia.
  - cbn [app from_le length]. rewrite IH, pow256_succ. ring.
Qed.

Lemma to_signed_mod (bits n : Z) :
  0 < bits -> in_signed bits n -> to_signed bits (n mod 2 ^ bits) = n.
Proof.
  intros Hb [Hlo Hhi]. unfold to_signed.
  assert (Hp : 2 ^ bits = 2 * 2 ^ (bits - 1)).
  { replace bits with (1 + (bits - 1)) at 1 by lia.
    rewrite Z.pow_add_r by lia. reflexivity. }
  assert (0 < 2 ^ (bits - 1)) by (apply Z.pow_pos_nonneg; lia).
  destruct (Z.ltb_spec n 0) as [Hneg|Hpos].
  - replace (n mod 2 ^ bits) with (n + 2 ^ bits).
    + destruct (Z.ltb_spec (n + 2 ^ bits) (2 ^ (bits - 1))); lia.
    + apply Z.mod_unique with (q := -1); lia.
  - rewrite Z.mod_small by lia.
    destruct (Z.ltb_spec n (2 ^ (bits - 1))); lia.
Qed.

Lemma to_signed_range (bits u : Z) :
  0 < bits -> 0 <= u < 2 ^ bits -> in_signed bits (to_signed bits u).
Proof.
  intros Hb Hu. unfold to_signed, in_signed.
  assert (Hp : 2 ^ bits = 2 * 2 ^ (bits - 1)).
  { replace bits with (1 + (bits - 1)) at 1 by lia.
    rewrite Z.pow_add_r by lia. reflexivity. }
  destruct (Z.ltb_spec u (2 ^ (bits - 1))); lia.
Qed.

Lemma in_signedb_iff (bits n : Z) :
  in_signedb bits n = true <-> in_signed bits n.
Proof.
  unfold in_signedb, in_signed.
  rewrite andb_true_iff, Z.leb_le, Z.ltb_lt. tauto.
Qed.

Lemma in_unsignedb_iff (bits n : Z) :
  in_unsignedb bits n = true <-> 0 <= n < 2 ^ bits.
Proof.
  unfold in_unsignedb.
  rewrite andb_true_iff, Z.leb_le, Z.ltb_lt. tauto.
Qed.

Lemma bytes_eqb_eq (a b : list byte) : bytes_eqb a b = true <-> a = b.
Proof.
  unfold bytes_eqb. destruct (list_eq_dec Byte.byte_eq_dec a b);
    split; congruence.
Qed.

Lemma bytes_eqb_refl (a : list byte) : bytes_eqb a a = true.
Proof. now apply bytes_eqb_eq. Qed.

(** ** List comprehensions *)

Lemma mapM_ok {A B} (f : A -> result B) (g : A -> B) (l : list A) :
  (forall a, In a l -> f a = inr (g a)) -> mapM f l = inr (map g l).
Proof.
  induction l as [|a l IH]; intros Hf; [reflexivity|].
  cbn [mapM map]. rewrite (Hf a (or_introl eq_refl)). cbn [bind].
  rewrite IH; [reflexivity|]. intros b Hb. apply Hf. now right.
Qed.

Lemma mapM_map {A B C} (f : B -> result C) (h : A -> B) (l : list A) :
  mapM f (map h l) = mapM (fun a => f (h a)) l.
Proof.
  induction l as [|a l IH]; [reflexivity|].
  cbn [mapM map]. now rewrite IH.
Qed.

Lemma combine_map_same {A B C} (g1 : A -> B) (g2 : A -> C) (l : list A) :
  combine (map g1 l) (map g2 l) = map (fun a => (g1 a, g2 a)) l.
Proof.
  induction l as [|a l IH]; [reflexivity|].
  cbn [map combine]. now rewrite IH.
Qed.

Lemma Forall_combine {A B} (P : A -> Prop) (Q : B -> Prop)
  (l : list A) (r : list B) :
  Forall P l -> Forall Q r ->
  Forall (fun p => P (fst p) /\ Q (snd p)) (combine l r).
Proof.
  intros Hl. revert r. induction Hl as [|a l Ha Hl IH]; intros r Hr.
  - constructor.
  - destruct Hr as [|b r Hb Hr]; cbn [combine]; constructor; auto.
Qed.

(** ** Sixteen-bit halves *)

Lemma int16_bounds (n : Z) : int16 n <-> -32768 <= n <= 32767.
Proof.
  unfold int16, in_signed. change (2 ^ (16 - 1)) with 32768. lia.
Qed.

(** The floor half-sum and half-difference of two 16-bit samples fit in
    16 bits. *)
Lemma semi_sum_int16 (l r : Z) : int16 l -> int16 r -> int16 ((l + r) / 2).
Proof.
  rewrite !int16_bounds. intros Hl Hr. Z.div_mod_to_equations. lia.
Qed.

Lemma semi_diff_int16 (l r : Z) : int16 l -> int16 r -> int16 ((l - r) / 2).
Proof.
  rewrite !int16_bounds. intros Hl Hr. Z.div_mod_to_equations. lia.
Qed.

(** What the two floor divisions keep of the left sample. *)
Lemma semi_sum_plus_semi_diff (l r : Z) :
  (l + r) / 2 + (l - r) / 2 = l - (l + r) mod 2.
Proof. Z.div_mod_to_equations. lia. Qed.

Lemma int_to_bytes_signed_int16 (n : Z) :
  int16 n -> int_to_bytes_signed n 2 = inr (to_le 2 (n mod 65536)).
Proof.
  intros Hn. unfold int_to_bytes_signed.
  change (8 * Z.of_nat 2) with 16.
  apply in_signedb_iff in Hn. rewrite Hn. reflexivity.
Qed.

Lemma as_int16_mod (n : Z) : int16 n -> as_int16 (n mod 65536) = inr n.
Proof.
  intros Hn. unfold as_int16, int_to_bytes.
  change (8 * Z.of_nat 2) with 16.
  pose proof (Z.mod_pos_bound n 65536 ltac:(lia)) as Hm.
  replace (in_unsignedb 16 (n mod 65536)) with true
    by (symmetry; apply in_unsignedb_iff; change (2 ^ 16) with 65536; lia).
  unfold ret, int_from_bytes_signed. cbn [bind to_le length]. f_equal.
  change (from_le _) with (from_le (to_le 2 (n mod 65536))).
  rewrite from_le_to_le. change (8 * Z.of_nat 2) with 16.
  change (2 ^ 16) with 65536. rewrite Z.mod_mod by lia.
  apply (to_signed_mod 16 n); [lia | exact Hn].
Qed.

Lemma packed_value (s d : Z) :
  packed s d = to_signed 32 (s mod 65536 + 65536 * (d mod 65536)).
Proof.
  unfold packed, int_from_bytes_signed.
  assert (Hlen : length (to_le 2 (s mod 65536) ++ to_le 2 (d mod 65536))
                 = 4%nat) by reflexivity.
  destruct (to_le 2 (s mod 65536) ++ to_le 2 (d mod 65536)) eqn:E;
    [discriminate Hlen|].
  rewrite Hlen, <- E, from_le_app, !from_le_to_le, length_to_le.
  change (8 * Z.of_nat 2) with 16. change (8 * Z.of_nat 4) with 32.
  change (2 ^ 16) with 65536.
  rewrite !Z.mod_mod by lia. reflexivity.
Qed.

Lemma packed_low (s d : Z) : Z.land (packed s d) 65535 = s mod 65536.
Proof.
  rewrite packed_value. change 65535 with (Z.ones 16).
  rewrite Z.land_ones by lia. change (2 ^ 16) with 65536.
  pose proof (Z.mod_pos_bound s 65536 ltac:(lia)).
  pose proof (Z.mod_pos_bound d 65536 ltac:(lia)).
  unfold to_signed. change (2 ^ (32 - 1)) with 2147483648.
  change (2 ^ 32) with 4294967296.
  destruct (_ <? _); Z.div_mod_to_equations; lia.
Qed.

Lemma packed_high (s d : Z) :
  Z.land (Z.shiftr (packed s d) 16) 65535 = d mod 65536.
Proof.
  rewrite packed_value. change 65535 with (Z.ones 16).
  rewrite Z.land_ones, Z.shiftr_div_pow2 by lia. change (2 ^ 16) with 65536.
  pose proof (Z.mod_pos_bound s 65536 ltac:(lia)).
  pose proof (Z.mod_pos_bound d 65536 ltac:(lia)).
  unfold to_signed. change (2 ^ (32 - 1)) with 2147483648.
  change (2 ^ 32) with 4294967296.
  destruct (_ <? _); Z.div_mod_to_equations; lia.
Qed.

(** ** Joint stereo: encoder and decoder *)

(** On 16-bit channels the encoder never overflows, and its samples are
    the packed half-sums and half-differences. *)
Lemma cod_samples_int16 (lch rch : list Z) :
  Forall int16 lch -> Forall int16 rch ->
  cod_samples lch rch
  = inr (map (fun p => packed ((fst p + snd p) / 2) ((fst p - snd p) / 2))
             (combine lch rch)).
Proof.
  intros Hl Hr. pose proof (Forall_combine _ _ _ _ Hl Hr) as Hc.
  rewrite Forall_forall in Hc. unfold cod_samples.
  rewrite (mapM_ok _ (fun p => to_le 2 (((fst p + snd p) / 2) mod 65536))).
  2:{ intros [l r] Hin. destruct (Hc _ Hin) as [Hl' Hr'].
      apply int_to_bytes_signed_int16. now apply semi_sum_int16. }
  cbn [bind].
  rewrite (mapM_ok _ (fun p => to_le 2 (((fst p - snd p) / 2) mod 65536))).
  2:{ intros [l r] Hin. destruct (Hc _ Hin) as [Hl' Hr'].
      apply int_to_bytes_signed_int16. now apply semi_diff_int16. }
  cbn [bind]. unfold ret. f_equal.
  rewrite combine_map_same, map_map. reflexivity.
Qed.

(** The decoder's [semi_sum] reads bits 16-31, where the encoder put the
    half-difference; its [semi_diff] reads bits 0-15, where the encoder
    put the half-sum. *)
Lemma dec_samples_packed (sd : list (Z * Z)) :
  Forall (fun p => int16 (fst p) /\ int16 (snd p)) sd ->
  dec_samples (map (fun p => packed (fst p) (snd p)) sd)
  = inr (map (fun p => snd p + fst p) sd, map (fun p => snd p - fst p) sd).
Proof.
  intros H. rewrite Forall_forall in H. unfold dec_samples.
  unfold dec_semi_sum, dec_semi_diff. rewrite !mapM_map.
  rewrite (mapM_ok _ snd).
  2:{ intros [s d] Hin. rewrite packed_high.
      apply as_int16_mod. apply (H _ Hin). }
  cbn [bind].
  rewrite (mapM_ok _ fst).
  2:{ intros [s d] Hin. rewrite packed_low.
      apply as_int16_mod. apply (H _ Hin). }
  cbn [bind]. unfold ret.
  rewrite combine_map_same, !map_map. reflexivity.
Qed.

(** [C1], as stated, fails: the two floor divisions drop the parity of
    left+right.  Encoding left=[1], right=[0] gives the sample 0, which
    decodes to left=[0], right=[0]. *)
Lemma C1_round_trip_counterexample :
  ~ (forall lch rch : list Z,
        length lch = length rch -> Forall int16 lch -> Forall int16 rch ->
        exists cod, cod_samples lch rch = inr cod
                    /\ dec_samples cod = inr (lch, rch)).
Proof.
  intros H.
  destruct (H [1] [0] eq_refl) as (cod & Hcod & Hdec).
  - repeat constructor; apply int16_bounds; lia.
  - repeat constructor; apply int16_bounds; lia.
  - vm_compute in Hcod. injection Hcod as <-.
    vm_compute in Hdec. discriminate Hdec.
Qed.

(** [C2]: on the packed sample 196615 (half-sum 7 in bits 0-15,
    half-difference 3 in bits 16-31, as [codEstereo] writes left=10,
    right=4) the decoder takes its [semi_sum] from bits 16-31 and its
    [semi_diff] from bits 0-15: it gets semi_sum=3, semi_diff=7, left=10,
    right=-4, where the claim has semi_sum=7, semi_diff=3, right=4. *)
Theorem C2_decode_swaps_halves :
  cod_samples [10] [4] = inr [196615]
  /\ dec_semi_sum [196615] = inr [3]
  /\ dec_semi_diff [196615] = inr [7]
  /\ dec_samples [196615] = inr ([10], [-4]).
Proof. repeat split; vm_compute; reflexivity. Qed.

(** ** Stereo to mono *)

Lemma Forall2_map_self {A B} (f : A -> B) (R : A -> B -> Prop) (l : list A) :
  (forall a, R a (f a)) -> Forall2 R l (map f l).
Proof.
  intros HR. induction l as [|a l IH]; cbn [map]; constructor; auto.
Qed.

(** [C6]: modes 2 (mean) and 3 (difference) of [estereo2mono] divide by
    two rounding toward negative infinity: each output sample [m] is the
    integer with 2m <= left+right < 2m+2 (resp. left-right).  On
    left=[100,-200], right=[50,50] the mean is [75,-75] and the difference
    [25,-125], also through the files; on left=[-3], right=[0] the mean
    is -2, where rounding toward zero would give -1. *)
Theorem C6_mean_diff_floor_division :
  (forall lch rch : list Z,
      exists mean diff,
        mono_samples 2 lch rch = inr mean
        /\ mono_samples 3 lch rch = inr diff
        /\ Forall2 (fun p m => 2 * m <= fst p + snd p < 2 * m + 2)
                   (combine lch rch) mean
        /\ Forall2 (fun p m => 2 * m <= fst p - snd p < 2 * m + 2)
                   (combine lch rch) diff)
  /\ mono_samples 2 [100; -200] [50; 50] = inr [75; -75]
  /\ mono_samples 3 [100; -200] [50; 50] = inr [25; -125]
  /\ mono_samples 2 [-3] [0] = inr [-2]
  /\ (exists out h d,
        estereo2mono (wav 2 16 [100; 50; -200; 50]) 2
        = mkOutcome (Some out) None
        /\ read_wave out = inr (h, d) /\ data d = [75; -75])
  /\ (exists out h d,
        estereo2mono (wav 2 16 [100; 50; -200; 50]) 3
        = mkOutcome (Some out) None
        /\ read_wave out = inr (h, d) /\ data d = [25; -125]).
Proof.
  split; [|repeat split; try (vm_compute; reflexivity)].
  - intros lch rch. eexists _, _.
    split; [reflexivity|]. split; [reflexivity|].
    split; apply Forall2_map_self; intros [l r]; cbn [fst snd];
      Z.div_mod_to_equations; lia.
  - eexists _, _, _. split; [vm_compute; reflexivity|].
    split; vm_compute; reflexivity.
  - eexists _, _, _. split; [vm_compute; reflexivity|].
    split; vm_compute; reflexivity.
Qed.

(** [C7]: on channels of 16-bit samples, modes 2 (mean) and 3
    (difference) produce a mono channel, and every sample of it is in the
    signed 16-bit range. *)
Theorem C7_mean_diff_stay_int16 (canal : Z) (lch rch : list Z) :
  canal = 2 \/ canal = 3 ->
  Forall int16 lch -> Forall int16 rch ->
  exists mono, mono_samples canal lch rch = inr mono /\ Forall int16 mono.
Proof.
  intros Hc Hl Hr. pose proof (Forall_combine _ _ _ _ Hl Hr) as H.
  destruct Hc as [-> | ->]; eexists; (split; [reflexivity|]);
    apply Forall_map; (eapply Forall_impl; [|exact H]);
    intros [l r] [Hl' Hr']; cbn [fst snd] in *.
  - now apply semi_sum_int16.
  - now apply semi_diff_int16.
Qed.

Lemma C7_mean_diff_stay_int16_witness :
  exists mono,
    mono_samples 3 [32767; -32768; 5] [-32768; 32767; 7] = inr mono
    /\ Forall int16 mono.
Proof.
  apply (C7_mean_diff_stay_int16 3 [32767; -32768; 5] [-32768; 32767; 7]).
  - right; reflexivity.
  - repeat constructor; apply int16_bounds; lia.
  - repeat constructor; apply int16_bounds; lia.
Defined.

(** ** Decoding files the encoder did not write *)


(** ** SubChunk2Size after decoding *)

(** [C3]: [decEstereo] on the mono 32-bit file with the one sample 196615
    writes two 16-bit samples, a payload of 4 bytes after the 44 bytes of
    headers, and a SubChunk2Size of 8: [len(data["data"])] already counts
    both channels and is multiplied by NumChannels = 2 again. *)
Theorem C3_decEstereo_SubChunk2Size_doubled :
  exists h d out,
    decEstereo_args (wav 1 32 [196615]) = inr (h, d)
    /\ decEstereo (wav 1 32 [196615]) = mkOutcome (Some out) None
    /\ data d = [10; -4]
    /\ SubChunk2Size d = 8
    /\ from_le (f_read out 40 4) = 8
    /\ length (f_read_all out 44) = 4%nat.
Proof.
  eexists _, _, _. split; [vm_compute; reflexivity|].
  split; [vm_compute; reflexivity|].
  repeat split; vm_compute; reflexivity.
Qed.

(** ** The struct module *)

Lemma length_f_read (content : list byte) (position n : nat) :
  length (f_read content position n)
  = Nat.min n (length content - position).
Proof. unfold f_read. now rewrite length_firstn, length_skipn. Qed.

Lemma f_read_f_read (content : list byte) (p n q m : nat) :
  (q + m <= n)%nat ->
  f_read (f_read content p n) q m = f_read content (p + q) m.
Proof.
  intros H. unfold f_read.
  rewrite skipn_firstn_comm, firstn_firstn, skipn_skipn.
  rewrite Nat.min_l by lia. now rewrite (Nat.add_comm q p).
Qed.

Lemma f_read_all_f_read (content : list byte) (p n q : nat) :
  skipn q (f_read content p n) = f_read content (p + q) (n - q).
Proof.
  unfold f_read. rewrite skipn_firstn_comm, skipn_skipn.
  now rewrite (Nat.add_comm q p).
Qed.

Lemma calcsize_cons (c : code) (format : list code) :
  calcsize (c :: format) = (size c + calcsize format)%nat.
Proof. reflexivity. Qed.

Lemma unpack_fields_f_read (format : list code) (content : list byte)
  (p : nat) :
  unpack_fields format (f_read content p (calcsize format))
  = fields_at format content p.
Proof.
  revert p. induction format as [|c format IH]; intros p; [reflexivity|].
  cbn [unpack_fields fields_at]. f_equal.
  - f_equal. change (firstn (size c) ?b) with (f_read b 0 (size c)).
    rewrite f_read_f_read; [now rewrite Nat.add_0_r|].
    rewrite calcsize_cons; lia.
  - rewrite f_read_all_f_read. rewrite <- IH. do 2 f_equal.
    rewrite calcsize_cons; lia.
Qed.

Lemma unpack_f_read (format : list code) (content : list byte) (p : nat) :
  (p + calcsize format <= length content)%nat ->
  unpack format (f_read content p (calcsize format))
  = inr (fields_at format content p).
Proof.
  intros H. unfold unpack. rewrite length_f_read.
  rewrite Nat.min_l by lia. rewrite Nat.eqb_refl.
  unfold ret. now rewrite unpack_fields_f_read.
Qed.

Lemma unpack_f_read_short (format : list code) (content : list byte)
  (p : nat) :
  (0 < calcsize format)%nat ->
  (length content < p + calcsize format)%nat ->
  unpack format (f_read content p (calcsize format)) = inl StructError.
Proof.
  intros Hpos H. unfold unpack. rewrite length_f_read.
  destruct (Nat.eqb_spec (Nat.min (calcsize format) (length content - p))
                         (calcsize format)); [lia | reflexivity].
Qed.

(** ** read_wave, stage by stage *)

Lemma calcsize_riff : calcsize riff_format = 12%nat.
Proof. reflexivity. Qed.
Lemma calcsize_fmt : calcsize fmt_format = 24%nat.
Proof. reflexivity. Qed.
Lemma calcsize_data : calcsize data_format = 8%nat.
Proof. reflexivity. Qed.

(** Fewer than 12 bytes: the first [unpack] raises. *)
Lemma read_wave_short (content : list byte) :
  (length content < 12)%nat -> read_wave content = inl StructError.
Proof.
  intros H. unfold read_wave. cbv zeta.
  rewrite unpack_f_read_short by (rewrite calcsize_riff; lia).
  reflexivity.
Qed.

(** At least the RIFF descriptor, with another tag than "WAVE". *)
Lemma read_wave_not_wave (content : list byte) :
  (12 <= length content)%nat ->
  Format (header_at content) <> WAVE ->
  read_wave content = inl (ValueError NotWave).
Proof.
  intros H Hf. unfold read_wave. cbv zeta.
  rewrite (unpack_f_read riff_format content 0)
    by (rewrite calcsize_riff; lia).
  cbn [bind fields_at riff_format unpack1].
  change (f_read content (0 + size c_4s + size c_I) (size c_4s))
    with (Format (header_at content)).
  destruct (bytes_eqb (Format (header_at content)) WAVE) eqn:E.
  - apply bytes_eqb_eq in E. contradiction.
  - reflexivity.
Qed.

(** The "WAVE" tag, but a file that ends inside the 44 bytes of headers:
    one of the two later [unpack]s raises. *)
Lemma read_wave_truncated (content : list byte) :
  (12 <= length content < 44)%nat ->
  Format (header_at content) = WAVE ->
  read_wave content = inl StructError.
Proof.
  intros H Hf. unfold read_wave. cbv zeta.
  rewrite (unpack_f_read riff_format content 0)
    by (rewrite calcsize_riff; lia).
  cbn [bind fields_at riff_format unpack1].
  change (f_read content (0 + size c_4s + size c_I) (size c_4s))
    with (Format (header_at content)).
  rewrite Hf, bytes_eqb_refl. cbn [negb].
  destruct (Nat.lt_ge_cases (length content) 36) as [Hs|Hs].
  - rewrite unpack_f_read_short
      by (rewrite ?calcsize_riff, ?calcsize_fmt; lia).
    reflexivity.
  - rewrite (unpack_f_read fmt_format)
      by (rewrite ?calcsize_riff, ?calcsize_fmt; lia).
    cbn [bind fields_at fmt_format unpack1].
    rewrite unpack_f_read_short
      by (rewrite ?calcsize_riff, ?calcsize_fmt, ?calcsize_data; lia).
    reflexivity.
Qed.

(** All 44 bytes of headers and the "WAVE" tag: the fields are the ones
    at the fixed offsets, and what is left is the choice of the sample
    format and the decoding of the rest of the file. *)
Lemma read_wave_full (content : list byte) :
  (44 <= length content)%nat ->
  Format (header_at content) = WAVE ->
  read_wave content
  = (c <- sample_code (BitsPerSample (header_at content)) ;;
     tuples <- iter_unpack [c] (f_read_all content 44) ;;
     samples <- first_ints tuples ;;
     ret (header_at content,
          mkData (f_read content 36 4) (from_le (f_read content 40 4))
                 samples)).
Proof.
  intros H Hf. unfold read_wave. cbv zeta.
  rewrite (unpack_f_read riff_format content 0)
    by (rewrite calcsize_riff; lia).
  cbn [bind fields_at riff_format unpack1].
  change (f_read content (0 + size c_4s + size c_I) (size c_4s))
    with (Format (header_at content)).
  rewrite Hf, bytes_eqb_refl. cbn [negb].
  rewrite (unpack_f_read fmt_format)
    by (rewrite ?calcsize_riff, ?calcsize_fmt; lia).
  cbn [bind fields_at fmt_format unpack1].
  rewrite (unpack_f_read data_format)
    by (rewrite ?calcsize_riff, ?calcsize_fmt, ?calcsize_data; lia).
  cbn [bind fields_at data_format unpack1].
  rewrite <- Hf. reflexivity.
Qed.

Lemma first_ints_error (tuples : list (list value)) (e : exn) :
  first_ints tuples = inl e -> e = StructError.
Proof.
  revert e. induction tuples as [|t tuples IH]; intros e; [discriminate|].
  cbn [first_ints]. unfold raise.
  destruct t as [|[bs|n] t]; try (intros [= <-]; reflexivity).
  destruct (first_ints tuples) as [e'|ns]; cbn [bind]; [|discriminate].
  intros [= <-]. now apply IH.
Qed.

Lemma iter_unpack_error (format : list code) (buffer : list byte) (e : exn) :
  iter_unpack format buffer = inl e -> e = StructError.
Proof.
  unfold iter_unpack, raise, ret.
  destruct (Nat.eqb _ _); [congruence|].
  destruct (Nat.eqb _ _); [discriminate | congruence].
Qed.

Lemma sample_code_ok (bits : Z) :
  bits = 8 \/ bits = 16 \/ bits = 32 ->
  exists c, sample_code bits = inr c /\ 8 * Z.of_nat (size c) = bits
            /\ (c = c_b \/ c = c_h \/ c = c_i).
Proof.
  intros [-> | [-> | ->]]; eexists; (split; [reflexivity|]);
    (split; [reflexivity|]); auto.
Qed.

Lemma sample_code_bad (bits : Z) :
  ~ (bits = 8 \/ bits = 16 \/ bits = 32) ->
  sample_code bits = inl (ValueError BadBitsPerSample).
Proof.
  intros H. unfold sample_code.
  destruct (Z.eqb_spec bits 8); [tauto|].
  destruct (Z.eqb_spec bits 16); [tauto|].
  destruct (Z.eqb_spec bits 32); [tauto|]. reflexivity.
Qed.

Lemma bits_dec (bits : Z) :
  {bits = 8 \/ bits = 16 \/ bits = 32}
  + {~ (bits = 8 \/ bits = 16 \/ bits = 32)}.
Proof.
  destruct (Z.eq_dec bits 8); [auto|].
  destruct (Z.eq_dec bits 16); [auto|].
  destruct (Z.eq_dec bits 32); [auto|]. right; tauto.
Qed.

(** With 44 bytes of headers and a supported sample width, whatever
    [read_wave] raises is a [struct.error]. *)
Lemma read_wave_full_error (content : list byte) (e : exn) :
  (44 <= length content)%nat ->
  Format (header_at content) = WAVE ->
  BitsPerSample (header_at content) = 8
  \/ BitsPerSample (header_at content) = 16
  \/ BitsPerSample (header_at content) = 32 ->
  read_wave content = inl e -> e = StructError.
Proof.
  intros H Hf Hb. rewrite read_wave_full by assumption.
  destruct (sample_code_ok _ Hb) as (c & -> & _). cbn [bind].
  destruct (iter_unpack [c] (f_read_all content 44)) as [e'|tuples] eqn:Ei;
    cbn [bind].
  - intros [= <-]. eapply iter_unpack_error; eassumption.
  - destruct (first_ints tuples) as [e'|samples] eqn:Ef; cbn [bind].
    + intros [= <-]. eapply first_ints_error; eassumption.
    + discriminate.
Qed.

(** Which [ValueError] [read_wave] raises, and when. *)
Lemma read_wave_value_error (content : list byte) (why : reason) :
  read_wave content = inl (ValueError why) <->
  (12 <= length content)%nat /\ Format (header_at content) <> WAVE
    /\ why = NotWave
  \/ (44 <= length content)%nat /\ Format (header_at content) = WAVE
     /\ ~ (BitsPerSample (header_at content) = 8
           \/ BitsPerSample (header_at content) = 16
           \/ BitsPerSample (header_at content) = 32)
     /\ why = BadBitsPerSample.
Proof.
  split.
  - intros Hr.
    destruct (Nat.lt_ge_cases (length content) 12) as [Hs|Hs].
    { rewrite read_wave_short in Hr by assumption. discriminate. }
    destruct (list_eq_dec Byte.byte_eq_dec (Format (header_at content)) WAVE)
      as [Hf|Hf].
    2:{ rewrite read_wave_not_wave in Hr by assumption.
        left. repeat split; congruence. }
    destruct (Nat.lt_ge_cases (length content) 44) as [Ht|Ht].
    { rewrite read_wave_truncated in Hr by (auto; lia). discriminate. }
    destruct (bits_dec (BitsPerSample (header_at content))) as [Hb|Hb].
    { apply read_wave_full_error in Hr; auto. discriminate. }
    rewrite read_wave_full, (sample_code_bad _ Hb) in Hr by assumption.
    right. repeat split; auto. cbn [bind] in Hr. congruence.
  - intros [(H & Hf & ->) | (H & Hf & Hb & ->)].
    + now apply read_wave_not_wave.
    + rewrite read_wave_full, (sample_code_bad _ Hb) by assumption.
      reflexivity.
Qed.

Lemma f_read_prefix (content rest : list byte) (k p n : nat) :
  (p + n <= k)%nat -> (p + n <= length content)%nat ->
  f_read (firstn k content ++ rest) p n = f_read content p n.
Proof.
  intros Hk Hl. unfold f_read.
  rewrite skipn_app, firstn_app, length_skipn, length_firstn.
  replace (n - (Nat.min k (length content) - p))%nat with 0%nat by lia.
  cbn [firstn]. rewrite app_nil_r.
  rewrite skipn_firstn_comm, firstn_firstn. f_equal. lia.
Qed.

(** ** Format rejection *)

(** [C8], as stated, fails on a file that ends inside its headers: the
    first 36 bytes of a header with the "WAVE" tag and BitsPerSample = 24
    make the third [unpack] raise [struct.error], not the [ValueError]
    for the sample width. *)
Lemma C8_truncated_header_counterexample :
  ~ (forall content : list byte,
        (exists why, read_wave content = inl (ValueError why)) <->
        (Format (header_at content) <> WAVE
         \/ ~ (BitsPerSample (header_at content) = 8
               \/ BitsPerSample (header_at content) = 16
               \/ BitsPerSample (header_at content) = 32))).
Proof.
  intros H.
  destruct (proj2 (H (firstn 36 (wav_header 1 24 0)))) as [why Hwhy].
  - right. vm_compute. intros [E | [E | E]]; discriminate E.
  - vm_compute in Hwhy. discriminate Hwhy.
Qed.

(** [C8], amended: [read_wave] raises a [ValueError] exactly when the
    file has the 12 bytes of the RIFF descriptor and bytes 8-11 are not
    "WAVE", or has all 44 bytes of headers and a BitsPerSample other than
    8, 16 and 32.  A file that ends earlier, that is one of fewer than 12
    bytes, or of fewer than 44 bytes with the "WAVE" tag, ends in a
    [struct.error] instead, whatever its BitsPerSample bytes.  In
    particular BitsPerSample = 24 in a complete header is rejected, and
    the error does not depend on the bytes after the headers. *)
Theorem C8_read_wave_format_errors (content : list byte) :
  ((exists why, read_wave content = inl (ValueError why)) <->
   ((12 <= length content)%nat /\ Format (header_at content) <> WAVE
    \/ (44 <= length content)%nat
       /\ ~ (BitsPerSample (header_at content) = 8
             \/ BitsPerSample (header_at content) = 16
             \/ BitsPerSample (header_at content) = 32)))
  /\ ((44 <= length content)%nat ->
      BitsPerSample (header_at content) = 24 ->
      exists why, read_wave content = inl (ValueError why))
  /\ (forall why rest,
        read_wave content = inl (ValueError why) ->
        read_wave (firstn 44 content ++ rest) = inl (ValueError why))
  /\ ((length content < 12)%nat
      \/ (length content < 44)%nat /\ Format (header_at content) = WAVE ->
      read_wave content = inl StructError).
Proof.
  assert (Hiff :
    (exists why, read_wave content = inl (ValueError why)) <->
    ((12 <= length content)%nat /\ Format (header_at content) <> WAVE
     \/ (44 <= length content)%nat
        /\ ~ (BitsPerSample (header_at content) = 8
              \/ BitsPerSample (header_at content) = 16
              \/ BitsPerSample (header_at content) = 32))).
  { split.
    - intros [why Hr]. apply read_wave_value_error in Hr.
      destruct Hr as [(H & Hf & _) | (H & _ & Hb & _)]; auto.
    - intros [(H & Hf) | (H & Hb)].
      + exists NotWave. apply read_wave_value_error. left. auto.
      + destruct (list_eq_dec Byte.byte_eq_dec
                    (Format (header_at content)) WAVE) as [Hf|Hf].
        * exists BadBitsPerSample. apply read_wave_value_error.
          right. auto.
        * exists NotWave. apply read_wave_value_error.
          left. repeat split; auto; lia. }
  split; [exact Hiff|]. split; [|split].
  - intros H Hb. apply Hiff. right. split; [exact H|].
    rewrite Hb. intros [E | [E | E]]; discriminate E.
  - intros why rest Hr. apply read_wave_value_error in Hr.
    apply read_wave_value_error.
    assert (Hlen : forall n, (n <= 44)%nat -> (n <= length content)%nat ->
                   (n <= length (firstn 44 content ++ rest))%nat).
    { intros n H1 H2. rewrite length_app, length_firstn. lia. }
    destruct Hr as [(H & Hf & ->) | (H & Hf & Hb & ->)].
    + left. split; [apply Hlen; lia|]. split; [|reflexivity].
      unfold header_at, Format in *. rewrite f_read_prefix by lia.
      exact Hf.
    + right. split; [apply Hlen; lia|].
      unfold header_at, Format, BitsPerSample in *.
      rewrite !f_read_prefix by lia. auto.
  - intros [Hs | [Ht Hf]].
    + now apply read_wave_short.
    + destruct (Nat.lt_ge_cases (length content) 12) as [Hs|Hs].
      * now apply read_wave_short.
      * apply read_wave_truncated; [lia | exact Hf].
Qed.

Lemma C8_read_wave_format_errors_witness :
  (exists why, read_wave (wav 1 24 [1; 2; 3]) = inl (ValueError why))
  /\ read_wave (firstn 36 (wav_header 1 24 0)) = inl StructError.
Proof.
  split.
  - apply (proj1 (proj2 (C8_read_wave_format_errors (wav 1 24 [1; 2; 3])))).
    + vm_compute. lia.
    + vm_compute. reflexivity.
  - apply (proj2 (proj2 (proj2 (C8_read_wave_format_errors
                                  (firstn 36 (wav_header 1 24 0)))))).
    right. split; [vm_compute; lia | vm_compute; reflexivity].
Defined.

(** ** ChunkSize through the transcoders *)

(** A file that [read_wave] accepts has its 44 bytes of headers, and the
    header returned is the one at the fixed offsets. *)
Lemma read_wave_inv (content : list byte) (h : Header) (d : Data) :
  read_wave content = inr (h, d) ->
  (44 <= length content)%nat /\ h = header_at content /\ Format h = WAVE.
Proof.
  intros Hr.
  destruct (Nat.lt_ge_cases (length content) 12) as [Hs|Hs].
  { rewrite read_wave_short in Hr by assumption. discriminate. }
  destruct (list_eq_dec Byte.byte_eq_dec (Format (header_at content)) WAVE)
    as [Hf|Hf].
  2:{ rewrite read_wave_not_wave in Hr by assumption. discriminate. }
  destruct (Nat.lt_ge_cases (length content) 44) as [Ht|Ht].
  { rewrite read_wave_truncated in Hr by (auto; lia). discriminate. }
  rewrite read_wave_full in Hr by assumption.
  destruct (sample_code _) as [?|c]; cbn [bind] in Hr; [discriminate|].
  destruct (iter_unpack _ _) as [?|tuples]; cbn [bind] in Hr; [discriminate|].
  destruct (first_ints _) as [?|samples]; cbn [bind] in Hr; [discriminate|].
  injection Hr as <- <-. auto.
Qed.

Lemma estereo2mono_args_riff ficEste canal h' d' :
  estereo2mono_args ficEste canal = inr (h', d') ->
  exists h d, read_wave ficEste = inr (h, d) /\ same_riff h' h.
Proof.
  unfold estereo2mono_args, raise, ret.
  destruct (read_wave ficEste) as [?|[h d]]; cbn [bind]; [discriminate|].
  destruct (negb _); [discriminate|].
  destruct (mono_samples _ _ _); cbn [bind]; [discriminate|].
  intros [= <- <-]. exists h, d. repeat split.
Qed.

Lemma mono2estereo_args_riff ficIzq ficDer h' d' :
  mono2estereo_args ficIzq ficDer = inr (h', d') ->
  exists h d, read_wave ficIzq = inr (h, d) /\ same_riff h' h.
Proof.
  unfold mono2estereo_args, raise, ret.
  destruct (read_wave ficIzq) as [?|[h d]]; cbn [bind]; [discriminate|].
  destruct (negb _); [discriminate|].
  destruct (read_wave ficDer) as [?|[hr dr]]; cbn [bind]; [discriminate|].
  destruct (negb _); [discriminate|].
  destruct (interleave _ _); cbn [bind]; [discriminate|].
  intros [= <- <-]. exists h, d. repeat split.
Qed.

Lemma codEstereo_args_riff ficEste h' d' :
  codEstereo_args ficEste = inr (h', d') ->
  exists h d, read_wave ficEste = inr (h, d) /\ same_riff h' h.
Proof.
  unfold codEstereo_args, raise, ret.
  destruct (read_wave ficEste) as [?|[h d]]; cbn [bind]; [discriminate|].
  destruct (negb _); [discriminate|].
  destruct (cod_samples _ _); cbn [bind]; [discriminate|].
  intros [= <- <-]. exists h, d. repeat split.
Qed.

Lemma decEstereo_args_riff ficCod h' d' :
  decEstereo_args ficCod = inr (h', d') ->
  exists h d, read_wave ficCod = inr (h, d) /\ same_riff h' h.
Proof.
  unfold decEstereo_args, raise, ret.
  destruct (read_wave ficCod) as [?|[h d]]; cbn [bind]; [discriminate|].
  destruct (negb _); [discriminate|].
  destruct (negb _); [discriminate|].
  destruct (dec_samples _) as [?|[lch rch]]; cbn [bind]; [discriminate|].
  destruct (interleave _ _); cbn [bind]; [discriminate|].
  intros [= <- <-]. exists h, d. repeat split.
Qed.

Lemma f_read_app_mid (a b c : list byte) (p n : nat) :
  length a = p -> length b = n -> f_read (a ++ b ++ c) p n = b.
Proof.
  intros <- <-. unfold f_read. rewrite skipn_app, skipn_all, Nat.sub_diag.
  cbn [skipn app]. rewrite firstn_app, firstn_all, Nat.sub_diag.
  cbn [firstn]. apply app_nil_r.
Qed.

Lemma pack_4s_exact (bs : list byte) :
  length bs = 4%nat -> firstn 4 (bs ++ repeat x00 4) = bs.
Proof.
  intros H. rewrite firstn_app.
  replace (4 - length bs)%nat with 0%nat by lia.
  rewrite firstn_O, app_nil_r, <- H. apply firstn_all.
Qed.

Lemma pack_unsigned_ok (w : nat) (n : Z) :
  uint (8 * Z.of_nat w) n -> pack_unsigned w n = inr (to_le w n).
Proof.
  intros H. unfold pack_unsigned.
  apply in_unsignedb_iff in H. now rewrite H.
Qed.

(** Once the output file is open, it starts with the RIFF descriptor of
    the header passed to [write_wave]. *)
Lemma write_body_riff (h : Header) (d : Data) :
  length (ChunkID h) = 4%nat -> uint 32 (ChunkSize h) ->
  exists rest,
    fst (write_body h d) = ChunkID h ++ to_le 4 (ChunkSize h) ++ rest.
Proof.
  intros Hid Hsz. unfold write_body.
  cbn [pack riff_format pack1].
  rewrite (pack_unsigned_ok 4) by exact Hsz.
  unfold ret. cbn [bind]. rewrite (pack_4s_exact _ Hid).
  repeat match goal with
  | |- context [match ?x with inl _ => _ | inr _ => _ end] =>
      destruct x; cbn [fst]
  end;
  rewrite <- ?app_assoc; cbn [app]; rewrite <- ?app_assoc;
  eexists; reflexivity.
Qed.

Lemma then_write_written (r : result (Header * Data)) (out : list byte) :
  written (then_write r) = Some out ->
  exists h' d', r = inr (h', d') /\ out = fst (write_body h' d').
Proof.
  destruct r as [e|[h' d']]; cbn [then_write written]; [discriminate|].
  unfold write_wave. destruct (negb _); cbn [written]; [discriminate|].
  destruct (write_body h' d') as [f e] eqn:E. cbn [written fst].
  intros [= <-]. exists h', d'. now rewrite E.
Qed.

Lemma run_written (t : transcoding) (out : list byte) :
  written (run t) = Some out ->
  exists h d h' d',
    read_wave (source t) = inr (h, d) /\ same_riff h' h
    /\ out = fst (write_body h' d').
Proof.
  intros Hw. destruct t; cbn [run source] in *;
    apply then_write_written in Hw; destruct Hw as (h' & d' & Hargs & ->).
  - apply estereo2mono_args_riff in Hargs as (h & d & Hr & Hs).
    now exists h, d, h', d'.
  - apply mono2estereo_args_riff in Hargs as (h & d & Hr & Hs).
    now exists h, d, h', d'.
  - apply codEstereo_args_riff in Hargs as (h & d & Hr & Hs).
    now exists h, d, h', d'.
  - apply decEstereo_args_riff in Hargs as (h & d & Hr & Hs).
    now exists h, d, h', d'.
Qed.

(** [C9]: whenever one of the four transcoders opens its output file, the
    ChunkSize at bytes 4-7 of the output is the ChunkSize at bytes 4-7 of
    the file whose header it reused (the left file for [mono2estereo]).
    So the written ChunkSize can differ from the output's size minus 8:
    the mean of a 52-byte stereo file with ChunkSize 44 is a 48-byte file
    that still says 44. *)
Theorem C9_ChunkSize_never_updated :
  (forall (t : transcoding) (out : list byte),
      written (run t) = Some out ->
      ChunkSize (header_at out) = ChunkSize (header_at (source t)))
  /\ (exists t out,
        run t = mkOutcome (Some out) None
        /\ ChunkSize (header_at (source t))
           = Z.of_nat (length (source t)) - 8
        /\ ChunkSize (header_at out) <> Z.of_nat (length out) - 8).
Proof.
  split.
  - intros t out Hw.
    destruct (run_written t out Hw) as (h & d & h' & d' & Hr & Hs & ->).
    apply read_wave_inv in Hr as (Hlen & -> & _).
    destruct Hs as (Hid & Hsz & _).
    assert (Hid4 : length (ChunkID h') = 4%nat).
    { rewrite Hid. cbn [header_at ChunkID]. rewrite length_f_read. lia. }
    assert (Hu : uint 32 (ChunkSize h')).
    { rewrite Hsz. cbn [header_at ChunkSize].
      pose proof (from_le_range (f_read (source t) 4 4)) as Hrange.
      rewrite length_f_read in Hrange.
      replace (Nat.min 4 (length (source t) - 4)) with 4%nat in Hrange
        by lia.
      exact Hrange. }
    destruct (write_body_riff h' d' Hid4 Hu) as [rest ->].
    rewrite <- Hsz. cbn [header_at ChunkSize].
    rewrite f_read_app_mid by (auto using length_to_le).
    rewrite from_le_to_le. apply Z.mod_small. exact Hu.
  - exists (Estereo2mono (wav 2 16 [100; 50; -200; 50]) 2).
    eexists. split; [vm_compute; reflexivity|].
    split; [vm_compute; reflexivity|].
    vm_compute. intros H; discriminate H.
Qed.

Lemma C9_ChunkSize_never_updated_witness :
  exists out,
    written (run (DecEstereo (wav 1 32 [196615]))) = Some out
    /\ ChunkSize (header_at out) = 40
    /\ ChunkSize (header_at (source (DecEstereo (wav 1 32 [196615])))) = 40.
Proof.
  eexists. split; [vm_compute; reflexivity|].
  split; [|vm_compute; reflexivity].
  rewrite (proj1 C9_ChunkSize_never_updated (DecEstereo (wav 1 32 [196615]))).
  - vm_compute. reflexivity.
  - vm_compute. reflexivity.
Defined.

(** ** Extended-slice assignment and mono2estereo *)

Lemma list_ind2 {A} (P : list A -> Prop) :
  P [] -> (forall x, P [x]) -> (forall x y l, P l -> P (x :: y :: l)) ->
  forall l, P l.
Proof.
  intros H0 H1 H2 l.
  assert (H : P l /\ forall x, P (x :: l)); [|exact (proj1 H)].
  induction l as [|a l [IHl IHxl]]; split; auto.
Qed.

Lemma assign_slice2_inr {A} (l vals r : list A) :
  assign_slice2 l vals = inr r ->
  length r = length l
  /\ (2 * length vals = length l \/ 2 * length vals = S (length l))%nat.
Proof.
  revert vals r. induction l as [| x | x y l IH] using list_ind2;
    intros vals r; cbn [assign_slice2]; unfold raise, ret.
  - destruct vals; [|discriminate]. intros [= <-]. cbn. lia.
  - destruct vals as [|v [|? ?]]; try discriminate.
    intros [= <-]. cbn. lia.
  - destruct vals as [|v vals]; [discriminate|].
    destruct (assign_slice2 l vals) as [?|r'] eqn:E; cbn [bind];
      [discriminate|].
    intros [= <-]. destruct (IH _ _ E) as [Hlen Hv]. cbn [length]. lia.
Qed.

Lemma assign_slice2_inl {A} (l vals : list A) (e : exn) :
  assign_slice2 l vals = inl e -> e = ValueError SliceSize.
Proof.
  revert vals. induction l as [| x | x y l IH] using list_ind2;
    intros vals; cbn [assign_slice2]; unfold raise, ret.
  - destruct vals; [discriminate|]. now intros [= <-].
  - destruct vals as [|v [|? ?]]; try discriminate; now intros [= <-].
  - destruct vals as [|v vals]; [now intros [= <-]|].
    destruct (assign_slice2 l vals) as [e'|r'] eqn:E; cbn [bind];
      [|discriminate].
    intros [= <-]. now apply (IH vals).
Qed.

Lemma assign_slice2_from1_inr {A} (l vals r : list A) :
  assign_slice2_from1 l vals = inr r ->
  length r = length l
  /\ (2 * length vals = length l \/ S (2 * length vals) = length l)%nat.
Proof.
  unfold assign_slice2_from1, raise, ret. destruct l as [|x l].
  - destruct vals; [|discriminate]. intros [= <-]. cbn. lia.
  - destruct (assign_slice2 l vals) as [?|r'] eqn:E; cbn [bind];
      [discriminate|].
    intros [= <-]. apply assign_slice2_inr in E. cbn [length]. lia.
Qed.

Lemma assign_slice2_from1_inl {A} (l vals : list A) (e : exn) :
  assign_slice2_from1 l vals = inl e -> e = ValueError SliceSize.
Proof.
  unfold assign_slice2_from1, raise, ret. destruct l as [|x l].
  - destruct vals; [discriminate|]. now intros [= <-].
  - destruct (assign_slice2 l vals) as [e'|r'] eqn:E; cbn [bind];
      [|discriminate].
    intros [= <-]. now apply assign_slice2_inl in E.
Qed.

(** The two slice assignments go through only for channels of equal
    length or a left channel one sample longer, and keep all
    len(left)+len(right) positions. *)
Lemma interleave_inr (lch rch d : list Z) :
  interleave lch rch = inr d ->
  length d = (length lch + length rch)%nat
  /\ (length lch = length rch \/ length lch = S (length rch)).
Proof.
  unfold interleave.
  destruct (assign_slice2 (lch ++ rch) lch) as [?|d1] eqn:E1; cbn [bind];
    [discriminate|].
  intros E2. apply assign_slice2_inr in E1. rewrite length_app in E1.
  apply assign_slice2_from1_inr in E2. lia.
Qed.

Lemma interleave_inl (lch rch : list Z) (e : exn) :
  interleave lch rch = inl e -> e = ValueError SliceSize.
Proof.
  unfold interleave.
  destruct (assign_slice2 (lch ++ rch) lch) as [e1|d1] eqn:E1; cbn [bind].
  - intros [= <-]. now apply assign_slice2_inl in E1.
  - apply assign_slice2_from1_inl.
Qed.

(** [C4], as stated, fails: for a left file of three samples and a right
    file of one, [mono2estereo] raises the [ValueError] of the first
    slice assignment and opens no output file; it does not write the two
    samples of a truncation to the shorter input. *)
Lemma C4_no_truncation_counterexample :
  mono2estereo (wav 1 16 [1; 2; 3]) (wav 1 16 [4])
  = mkOutcome None (Some (ValueError SliceSize))
  /\ ~ (exists out h d,
          mono2estereo (wav 1 16 [1; 2; 3]) (wav 1 16 [4])
          = mkOutcome (Some out) None
          /\ read_wave out = inr (h, d)
          /\ length (data d) = (2 * 1)%nat).
Proof.
  split; [vm_compute; reflexivity|].
  intros (out & h & d & Hm & _). vm_compute in Hm. discriminate Hm.
Qed.

(** [C4], amended: given two mono files with different numbers of
    samples, [mono2estereo] does not truncate.  Unless the left file has
    exactly one sample more than the right one, it raises [ValueError]
    (the extended-slice assignment refuses the length) and opens no
    output file; and in no case does it hand [write_wave] twice the
    shorter number of samples. *)
Theorem C4_mono2estereo_unequal_lengths
  (ficIzq ficDer : list byte) (hl hr : Header) (dl dr : Data) :
  read_wave ficIzq = inr (hl, dl) -> NumChannels hl = 1 ->
  read_wave ficDer = inr (hr, dr) -> NumChannels hr = 1 ->
  length (data dl) <> length (data dr) ->
  (length (data dl) <> S (length (data dr)) ->
   mono2estereo ficIzq ficDer = mkOutcome None (Some (ValueError SliceSize)))
  /\ (forall h d,
        mono2estereo_args ficIzq ficDer = inr (h, d) ->
        length (data d)
        <> (2 * Nat.min (length (data dl)) (length (data dr)))%nat).
Proof.
  intros Hl Hcl Hr Hcr Hne.
  unfold mono2estereo, mono2estereo_args.
  rewrite Hl, Hr. cbn [bind]. rewrite Hcl, Hcr. cbn [Z.eqb Pos.eqb negb].
  destruct (interleave (data dl) (data dr)) as [e|d] eqn:Ei; cbn [bind].
  - apply interleave_inl in Ei. subst e. split.
    + intros _. reflexivity.
    + intros h d H. discriminate H.
  - apply interleave_inr in Ei. split.
    + intros Hne1. lia.
    + intros h d' [= <- <-]. cbn [data]. lia.
Qed.

Lemma C4_mono2estereo_unequal_lengths_witness :
  mono2estereo (wav 1 16 [1; 2; 3]) (wav 1 16 [4])
  = mkOutcome None (Some (ValueError SliceSize)).
Proof.
  refine (proj1 (C4_mono2estereo_unequal_lengths
                   (wav 1 16 [1; 2; 3]) (wav 1 16 [4])
                   (header_at (wav 1 16 [1; 2; 3]))
                   (header_at (wav 1 16 [4]))
                   (mkData data_id 6 [1; 2; 3]) (mkData data_id 2 [4])
                   _ _ _ _ _) _).
  - vm_compute. reflexivity.
  - vm_compute. reflexivity.
  - vm_compute. reflexivity.
  - vm_compute. reflexivity.
  - cbn. lia.
  - cbn. lia.
Defined.

(** ** pack and unpack are inverse *)

Lemma pack_signed_inv (w : nat) (n : Z) (b : list byte) :
  pack_signed w n = inr b ->
  in_signed (8 * Z.of_nat w) n /\ b = to_le w (n mod 2 ^ (8 * Z.of_nat w)).
Proof.
  unfold pack_signed, raise, ret.
  destruct (in_signedb _ n) eqn:E; [|discriminate].
  intros [= <-]. apply in_signedb_iff in E. auto.
Qed.

Lemma pack_unsigned_inv (w : nat) (n : Z) (b : list byte) :
  pack_unsigned w n = inr b -> uint (8 * Z.of_nat w) n /\ b = to_le w n.
Proof.
  unfold pack_unsigned, raise, ret.
  destruct (in_unsignedb _ n) eqn:E; [|discriminate].
  intros [= <-]. apply in_unsignedb_iff in E. auto.
Qed.

Lemma unsigned_round_trip (w : nat) (n : Z) :
  uint (8 * Z.of_nat w) n -> from_le (to_le w n) = n.
Proof. intros H. rewrite from_le_to_le. now apply Z.mod_small. Qed.

Lemma signed_round_trip (w : nat) (n : Z) :
  (0 < w)%nat -> in_signed (8 * Z.of_nat w) n ->
  to_signed (8 * Z.of_nat w)
            (from_le (to_le w (n mod 2 ^ (8 * Z.of_nat w)))) = n.
Proof.
  intros Hw H. rewrite from_le_to_le.
  pose proof (pow256_pos w).
  rewrite Z.mod_mod by lia. apply to_signed_mod; [lia | exact H].
Qed.

Lemma pack1_unpack1 (c : code) (v : value) (b : list byte) :
  pack1 c v = inr b -> canonical c v ->
  length b = size c /\ unpack1 c b = v.
Proof.
  destruct c, v as [bs|n]; cbn [pack1 canonical unpack1 size];
    unfold raise, ret; try discriminate; try contradiction; intros Hp Hc.
  - rewrite pack_4s_exact in Hp by exact Hc. injection Hp as <-. auto.
  - apply pack_unsigned_inv in Hp as [Hu ->].
    now rewrite length_to_le, unsigned_round_trip.
  - apply pack_unsigned_inv in Hp as [Hu ->].
    now rewrite length_to_le, unsigned_round_trip.
  - apply pack_signed_inv in Hp as [Hu ->].
    rewrite length_to_le, signed_round_trip by (auto; lia). auto.
  - apply pack_signed_inv in Hp as [Hu ->].
    rewrite length_to_le, signed_round_trip by (auto; lia). auto.
  - apply pack_signed_inv in Hp as [Hu ->].
    rewrite length_to_le, signed_round_trip by (auto; lia). auto.
Qed.

Lemma pack_cons_inv c format v values bs :
  pack (c :: format) (v :: values) = inr bs ->
  exists b bs', pack1 c v = inr b /\ pack format values = inr bs'
                /\ bs = b ++ bs'.
Proof.
  cbn [pack]. unfold ret.
  destruct (pack1 c v) as [?|b]; cbn [bind]; [discriminate|].
  destruct (pack format values) as [?|bs']; cbn [bind]; [discriminate|].
  intros [= <-]. now exists b, bs'.
Qed.

Lemma pack_length (format : list code) (values : list value)
  (bs : list byte) :
  pack format values = inr bs -> Forall2 canonical format values ->
  length bs = calcsize format.
Proof.
  intros Hp Hc. revert bs Hp.
  induction Hc as [|c v format values Hcv Hc IH]; intros bs Hp.
  - injection Hp as <-. reflexivity.
  - apply pack_cons_inv in Hp as (b & bs' & H1 & H2 & ->).
    destruct (pack1_unpack1 _ _ _ H1 Hcv) as [Hlen _].
    rewrite length_app, calcsize_cons, Hlen, (IH _ H2). reflexivity.
Qed.

(** Reading a format where its packing starts gives back the values. *)
Lemma fields_at_pack (format : list code) (values : list value)
  (bs pre post : list byte) :
  pack format values = inr bs -> Forall2 canonical format values ->
  fields_at format (pre ++ bs ++ post) (length pre) = values.
Proof.
  intros Hp Hc. revert bs pre Hp.
  induction Hc as [|c v format values Hcv Hc IH]; intros bs pre Hp.
  - reflexivity.
  - apply pack_cons_inv in Hp as (b & bs' & H1 & H2 & ->).
    destruct (pack1_unpack1 _ _ _ H1 Hcv) as [Hlen Hv].
    cbn [fields_at]. f_equal.
    + rewrite <- app_assoc, f_read_app_mid by auto. exact Hv.
    + rewrite <- Hlen, <- length_app, <- app_assoc, app_assoc.
      now apply IH.
Qed.

Lemma unpack_at (format : list code) (content : list byte) (p : nat)
  (values : list value) :
  (p + calcsize format <= length content)%nat ->
  fields_at format content p = values ->
  unpack format (f_read content p (calcsize format)) = inr values.
Proof. intros H <-. now apply unpack_f_read. Qed.

Lemma skipn_app_exact {A} (a b : list A) (n : nat) :
  length a = n -> skipn n (a ++ b) = b.
Proof.
  intros <-. rewrite skipn_app, skipn_all, Nat.sub_diag. reflexivity.
Qed.

Lemma firstn_app_exact {A} (a b : list A) (n : nat) :
  length a = n -> firstn n (a ++ b) = a.
Proof.
  intros <-. rewrite firstn_app, firstn_all, Nat.sub_diag.
  cbn [firstn]. apply app_nil_r.
Qed.

(** The samples, packed with one code repeated and cut again into
    items of that code's size. *)
Lemma chunks_pack (c : code) (samples : list Z) (bs : list byte) :
  c = c_b \/ c = c_h \/ c = c_i ->
  pack (repeat c (length samples)) (map Int samples) = inr bs ->
  length bs = (length samples * size c)%nat
  /\ chunks (length samples) [c] bs = map (fun s => [Int s]) samples.
Proof.
  intros Hc. revert bs. induction samples as [|s samples IH]; intros bs Hp.
  - injection Hp as <-. auto.
  - cbn [length repeat map] in Hp.
    apply pack_cons_inv in Hp as (b & bs' & H1 & H2 & ->).
    destruct (IH _ H2) as [Hlen Hch].
    assert (Hcan : canonical c (Int s))
      by (destruct Hc as [-> | [-> | ->]]; exact I).
    destruct (pack1_unpack1 _ _ _ H1 Hcan) as [Hb Hv].
    assert (Hsz : calcsize [c] = size c)
      by (rewrite calcsize_cons; cbn; lia).
    split.
    + rewrite length_app, Hb, Hlen. cbn [length]. lia.
    + cbn [length chunks map]. rewrite Hsz.
      rewrite firstn_app_exact, skipn_app_exact by exact Hb.
      rewrite Hch. f_equal. cbn [unpack_fields].
      rewrite <- Hb, firstn_all. now rewrite Hv.
Qed.

Lemma first_ints_singletons (samples : list Z) :
  first_ints (map (fun s => [Int s]) samples) = inr samples.
Proof.
  induction samples as [|s samples IH]; [reflexivity|].
  cbn [map first_ints]. now rewrite IH.
Qed.

Lemma iter_unpack_pack (c : code) (samples : list Z) (bs : list byte) :
  c = c_b \/ c = c_h \/ c = c_i ->
  pack (repeat c (length samples)) (map Int samples) = inr bs ->
  iter_unpack [c] bs = inr (map (fun s => [Int s]) samples).
Proof.
  intros Hc Hp. destruct (chunks_pack c samples bs Hc Hp) as [Hlen Hch].
  assert (Hsz : calcsize [c] = size c)
    by (rewrite calcsize_cons; cbn; lia).
  assert (Hpos : size c <> 0%nat)
    by (destruct Hc as [-> | [-> | ->]]; discriminate).
  unfold iter_unpack. rewrite Hsz, Hlen.
  rewrite (proj2 (Nat.eqb_neq _ _) Hpos).
  rewrite Nat.Div0.mod_mul, Nat.eqb_refl, Nat.div_mul by exact Hpos.
  unfold ret. now rewrite Hch.
Qed.

(** Every list of samples in the range of a code can be packed. *)
Lemma pack_samples (c : code) (samples : list Z) :
  c = c_b \/ c = c_h \/ c = c_i ->
  Forall (in_signed (8 * Z.of_nat (size c))) samples ->
  exists bs, pack (repeat c (length samples)) (map Int samples) = inr bs.
Proof.
  intros Hc H. induction H as [|s samples Hs H [bs IH]].
  - now exists [].
  - cbn [length repeat map pack]. rewrite IH.
    assert (Hp : pack1 c (Int s)
                 = inr (to_le (size c)
                          (s mod 2 ^ (8 * Z.of_nat (size c))))).
    { apply in_signedb_iff in Hs.
      destruct Hc as [-> | [-> | ->]]; cbn [pack1 size] in *;
        unfold pack_signed; now rewrite Hs. }
    rewrite Hp. cbn [bind]. eexists. reflexivity.
Qed.

(** ** Writing and reading back *)

Lemma length_WAVE : length WAVE = 4%nat.
Proof. reflexivity. Qed.

(** [C5]: for a header with four-byte identifiers, the "WAVE" tag, every
    integer in the range of its field and BitsPerSample 8, 16 or 32, and
    data whose samples are in the signed range of that width,
    [write_wave] writes the whole file without raising and [read_wave] on
    the bytes written returns the same header and the same data. *)
Theorem C5_read_write_round_trip (h : Header) (d : Data) :
  valid_header h -> valid_data (BitsPerSample h) d ->
  exists out,
    write_wave h d = mkOutcome (Some out) None
    /\ read_wave out = inr (h, d).
Proof.
  intros [Hid Hsz Hfmt Hid1 Hsz1 Haf Hnc Hsr Hbr Hba Hbits] [Hid2 Hsz2 Hs].
  destruct (sample_code_ok _ Hbits) as (c & Hc & Hw & Hcase).
  rewrite <- Hw in Hs.
  destruct (pack_samples c (data d) Hcase Hs) as [b4 P4].
  assert (Hf4 : length (Format h) = 4%nat) by (now rewrite Hfmt).
  assert (Hb16 : uint 16 (BitsPerSample h)).
  { unfold uint. change (2 ^ 16) with 65536. lia. }
  remember [Bytes (ChunkID h); Int (ChunkSize h); Bytes (Format h)]
    as v1 eqn:Ev1.
  remember [Bytes (SubChunk1ID h); Int (SubChunk1Size h);
            Int (AudioFormat h); Int (NumChannels h); Int (SampleRate h);
            Int (ByteRate h); Int (BlockAlign h); Int (BitsPerSample h)]
    as v2 eqn:Ev2.
  remember [Bytes (SubChunk2ID d); Int (SubChunk2Size d)] as v3 eqn:Ev3.
  assert (P1 : exists b1, pack riff_format v1 = inr b1).
  { subst v1. cbn [pack riff_format pack1].
    rewrite (pack_unsigned_ok 4) by assumption.
    cbn [bind ret]. eexists. reflexivity. }
  assert (P2 : exists b2, pack fmt_format v2 = inr b2).
  { subst v2. cbn [pack fmt_format pack1].
    rewrite !(pack_unsigned_ok 4), !(pack_unsigned_ok 2) by assumption.
    cbn [bind ret]. eexists. reflexivity. }
  assert (P3 : exists b3, pack data_format v3 = inr b3).
  { subst v3. cbn [pack data_format pack1].
    rewrite (pack_unsigned_ok 4) by assumption.
    cbn [bind ret]. eexists. reflexivity. }
  destruct P1 as [b1 P1], P2 as [b2 P2], P3 as [b3 P3].
  assert (C1 : Forall2 canonical riff_format v1)
    by (subst v1; repeat constructor; assumption).
  assert (C2 : Forall2 canonical fmt_format v2)
    by (subst v2; repeat constructor; assumption).
  assert (C3 : Forall2 canonical data_format v3)
    by (subst v3; repeat constructor; assumption).
  pose proof (pack_length _ _ _ P1 C1) as L1. rewrite calcsize_riff in L1.
  pose proof (pack_length _ _ _ P2 C2) as L2. rewrite calcsize_fmt in L2.
  pose proof (pack_length _ _ _ P3 C3) as L3. rewrite calcsize_data in L3.
  exists (b1 ++ b2 ++ b3 ++ b4). split.
  - unfold write_wave, write_body.
    rewrite Hfmt, bytes_eqb_refl. cbn [negb].
    rewrite <- Hfmt at 1. rewrite <- Ev1, <- Ev2, <- Ev3.
    rewrite P1, P2, P3, Hc, P4. cbn [app].
    now rewrite <- !app_assoc.
  - pose proof (fields_at_pack _ _ _ [] (b2 ++ b3 ++ b4) P1 C1) as F1.
    pose proof (fields_at_pack _ _ _ b1 (b3 ++ b4) P2 C2) as F2.
    pose proof (fields_at_pack _ _ _ (b1 ++ b2) b4 P3 C3) as F3.
    cbn [app length] in F1. rewrite <- app_assoc in F3.
    rewrite length_app in F3. rewrite L1 in F2. rewrite L1, L2 in F3.
    set (out := b1 ++ b2 ++ b3 ++ b4) in *.
    assert (Lout : (44 <= length out)%nat).
    { unfold out. rewrite !length_app. lia. }
    unfold read_wave. cbv zeta.
    rewrite (unpack_at riff_format out 0 v1)
      by (rewrite ?calcsize_riff; auto; lia).
    subst v1. cbn [bind].
    rewrite Hfmt, bytes_eqb_refl. cbn [negb].
    rewrite (unpack_at fmt_format out (calcsize riff_format) v2)
      by (rewrite ?calcsize_riff, ?calcsize_fmt; auto; lia).
    subst v2. cbn [bind].
    rewrite (unpack_at data_format out
               (calcsize riff_format + calcsize fmt_format) v3)
      by (rewrite ?calcsize_riff, ?calcsize_fmt, ?calcsize_data; auto; lia).
    subst v3. cbn [bind].
    rewrite Hc. cbn [bind].
    assert (Hrest :
      f_read_all out
        (calcsize riff_format + calcsize fmt_format + calcsize data_format)
      = b4).
    { unfold f_read_all, out. rewrite !app_assoc.
      apply skipn_app_exact. rewrite !length_app, L1, L2, L3.
      reflexivity. }
    rewrite Hrest, (iter_unpack_pack c (data d) b4 Hcase P4).
    cbn [bind]. rewrite first_ints_singletons. cbn [bind].
    unfold ret. rewrite <- Hfmt. destruct h, d. reflexivity.
Qed.

Lemma C5_read_write_round_trip_witness :
  exists out,
    write_wave (mkHeader RIFF 40 WAVE fmt_id 16 1 2 8000 32000 4 16)
               (mkData data_id 4 [10; -4])
    = mkOutcome (Some out) None
    /\ read_wave out
       = inr (mkHeader RIFF 40 WAVE fmt_id 16 1 2 8000 32000 4 16,
              mkData data_id 4 [10; -4]).
Proof.
  apply (C5_read_write_round_trip
           (mkHeader RIFF 40 WAVE fmt_id 16 1 2 8000 32000 4 16)
           (mkData data_id 4 [10; -4])).
  - constructor; cbn; try reflexivity; try (unfold uint; lia).
  - constructor; cbn; try reflexivity; try (unfold uint; lia).
    repeat constructor; unfold in_signed; lia.
Defined.

(** * Further properties of the codec and the transcoders *)

(** ** What a completed write_wave wrote *)

Lemma pack1_length (c : code) (v : value) (b : list byte) :
  pack1 c v = inr b -> length b = size c.
Proof.
  destruct c, v as [bs|n]; cbn [pack1 size]; unfold raise, ret;
    try discriminate; intros Hp.
  - replace b with (firstn 4 (bs ++ repeat x00 4)) by congruence.
    rewrite length_firstn, length_app, repeat_length. lia.
  - apply pack_unsigned_inv in Hp as [_ ->]. apply length_to_le.
  - apply pack_unsigned_inv in Hp as [_ ->]. apply length_to_le.
  - apply pack_signed_inv in Hp as [_ ->]. apply length_to_le.
  - apply pack_signed_inv in Hp as [_ ->]. apply length_to_le.
  - apply pack_signed_inv in Hp as [_ ->]. apply length_to_le.
Qed.

Lemma pack_nil_inv (format : list code) (bs : list byte) :
  pack format [] = inr bs -> format = [] /\ bs = [].
Proof.
  destruct format; cbn [pack]; unfold raise, ret; [|discriminate].
  intros [= <-]. auto.
Qed.

(** Whatever the values, a successful [pack] has the size of its format. *)
Lemma pack_length_any (format : list code) (values : list value)
  (bs : list byte) :
  pack format values = inr bs -> length bs = calcsize format.
Proof.
  revert values bs. induction format as [|c format IH]; intros values bs Hp.
  - destruct values; [|discriminate]. injection Hp as <-. reflexivity.
  - destruct values as [|v values]; [discriminate|].
    apply pack_cons_inv in Hp as (b & bs' & H1 & H2 & ->).
    rewrite length_app, calcsize_cons, (pack1_length _ _ _ H1), (IH _ _ H2).
    reflexivity.
Qed.

Lemma sample_code_inv (bits : Z) (c : code) :
  sample_code bits = inr c ->
  (bits = 8 \/ bits = 16 \/ bits = 32)
  /\ 8 * Z.of_nat (size c) = bits /\ (c = c_b \/ c = c_h \/ c = c_i).
Proof.
  intros Hc. destruct (bits_dec bits) as [Hb|Hb].
  - destruct (sample_code_ok _ Hb) as (c' & Hc' & Hw & Hcase).
    rewrite Hc in Hc'. injection Hc' as <-. auto.
  - rewrite (sample_code_bad _ Hb) in Hc. discriminate.
Qed.

(** The five steps of a [write_wave] that returned normally. *)
Lemma write_wave_inv (h : Header) (d : Data) (out : list byte) :
  write_wave h d = mkOutcome (Some out) None ->
  Format h = WAVE
  /\ exists b1 b2 b3 c b4,
      pack riff_format
        [Bytes (ChunkID h); Int (ChunkSize h); Bytes (Format h)] = inr b1
      /\ pack fmt_format
           [Bytes (SubChunk1ID h); Int (SubChunk1Size h);
            Int (AudioFormat h); Int (NumChannels h); Int (SampleRate h);
            Int (ByteRate h); Int (BlockAlign h); Int (BitsPerSample h)]
         = inr b2
      /\ pack data_format [Bytes (SubChunk2ID d); Int (SubChunk2Size d)]
         = inr b3
      /\ sample_code (BitsPerSample h) = inr c
      /\ pack (repeat c (length (data d))) (map Int (data d)) = inr b4
      /\ out = b1 ++ b2 ++ b3 ++ b4.
Proof.
  unfold write_wave.
  destruct (bytes_eqb (Format h) WAVE) eqn:Ef; cbn [negb]; [|discriminate].
  apply bytes_eqb_eq in Ef. unfold write_body.
  destruct (pack riff_format _) as [?|b1] eqn:P1; [discriminate|].
  destruct (pack fmt_format _) as [?|b2] eqn:P2; [discriminate|].
  destruct (pack data_format _) as [?|b3] eqn:P3; [discriminate|].
  destruct (sample_code _) as [?|c] eqn:Pc; [discriminate|].
  destruct (pack (repeat c _) _) as [?|b4] eqn:P4; [discriminate|].
  intros [= <-]. split; [exact Ef|].
  exists b1, b2, b3, c, b4. repeat (split; [reflexivity|]).
  cbn [app]. now rewrite <- !app_assoc.
Qed.

(** Reading a file made of three packed headers and packed samples. *)
Lemma read_wave_of_packs (h : Header) (d : Data) (c : code)
  (b1 b2 b3 b4 : list byte) :
  length (ChunkID h) = 4%nat -> length (SubChunk1ID h) = 4%nat ->
  length (SubChunk2ID d) = 4%nat -> Format h = WAVE ->
  pack riff_format
    [Bytes (ChunkID h); Int (ChunkSize h); Bytes (Format h)] = inr b1 ->
  pack fmt_format
    [Bytes (SubChunk1ID h); Int (SubChunk1Size h);
     Int (AudioFormat h); Int (NumChannels h); Int (SampleRate h);
     Int (ByteRate h); Int (BlockAlign h); Int (BitsPerSample h)]
  = inr b2 ->
  pack data_format [Bytes (SubChunk2ID d); Int (SubChunk2Size d)] = inr b3 ->
  sample_code (BitsPerSample h) = inr c ->
  pack (repeat c (length (data d))) (map Int (data d)) = inr b4 ->
  read_wave (b1 ++ b2 ++ b3 ++ b4) = inr (h, d).
Proof.
  intros Hid Hid1 Hid2 Hfmt P1 P2 P3 Hc P4.
  destruct (sample_code_inv _ _ Hc) as (_ & _ & Hcase).
  assert (Hf4 : length (Format h) = 4%nat) by (now rewrite Hfmt).
  assert (C1 : Forall2 canonical riff_format
                 [Bytes (ChunkID h); Int (ChunkSize h); Bytes (Format h)])
    by (repeat constructor; assumption).
  assert (C2 : Forall2 canonical fmt_format
                 [Bytes (SubChunk1ID h); Int (SubChunk1Size h);
                  Int (AudioFormat h); Int (NumChannels h);
                  Int (SampleRate h); Int (ByteRate h);
                  Int (BlockAlign h); Int (BitsPerSample h)])
    by (repeat constructor; assumption).
  assert (C3 : Forall2 canonical data_format
                 [Bytes (SubChunk2ID d); Int (SubChunk2Size d)])
    by (repeat constructor; assumption).
  pose proof (pack_length_any _ _ _ P1) as L1. rewrite calcsize_riff in L1.
  pose proof (pack_length_any _ _ _ P2) as L2. rewrite calcsize_fmt in L2.
  pose proof (pack_length_any _ _ _ P3) as L3. rewrite calcsize_data in L3.
  pose proof (fields_at_pack _ _ _ [] (b2 ++ b3 ++ b4) P1 C1) as F1.
  pose proof (fields_at_pack _ _ _ b1 (b3 ++ b4) P2 C2) as F2.
  pose proof (fields_at_pack _ _ _ (b1 ++ b2) b4 P3 C3) as F3.
  cbn [app length] in F1. rewrite <- app_assoc in F3.
  rewrite length_app in F3. rewrite L1 in F2. rewrite L1, L2 in F3.
  set (out := b1 ++ b2 ++ b3 ++ b4) in *.
  assert (Lout : (44 <= length out)%nat).
  { unfold out. rewrite !length_app. lia. }
  unfold read_wave. cbv zeta.
  rewrite (unpack_at riff_format out 0 _ ltac:(rewrite calcsize_riff; lia) F1).
  cbn [bind]. rewrite Hfmt, bytes_eqb_refl. cbn [negb].
  rewrite (unpack_at fmt_format out (calcsize riff_format) _
             ltac:(rewrite calcsize_riff, calcsize_fmt; lia) F2).
  cbn [bind].
  rewrite (unpack_at data_format out
             (calcsize riff_format + calcsize fmt_format) _
             ltac:(rewrite calcsize_riff, calcsize_fmt, calcsize_data; lia)
             F3).
  cbn [bind]. rewrite Hc. cbn [bind].
  assert (Hrest :
    f_read_all out
      (calcsize riff_format + calcsize fmt_format + calcsize data_format)
    = b4).
  { unfold f_read_all, out. rewrite !app_assoc.
    apply skipn_app_exact. rewrite !length_app, L1, L2, L3. reflexivity. }
  rewrite Hrest, (iter_unpack_pack c (data d) b4 Hcase P4).
  cbn [bind]. rewrite first_ints_singletons. cbn [bind].
  unfold ret. rewrite <- Hfmt. destruct h, d. reflexivity.
Qed.

Lemma write_read_back (h : Header) (d : Data) (out : list byte) :
  write_wave h d = mkOutcome (Some out) None ->
  length (ChunkID h) = 4%nat -> length (SubChunk1ID h) = 4%nat ->
  length (SubChunk2ID d) = 4%nat ->
  read_wave out = inr (h, d).
Proof.
  intros Hw Hid Hid1 Hid2.
  apply write_wave_inv in Hw
    as (Hfmt & b1 & b2 & b3 & c & b4 & P1 & P2 & P3 & Hc & P4 & ->).
  now apply (read_wave_of_packs h d c).
Qed.

(** ** What read_wave returns, and writing it back *)

Lemma to_signed_mod_inv (bits u : Z) :
  0 < bits -> 0 <= u < 2 ^ bits -> to_signed bits u mod 2 ^ bits = u.
Proof.
  intros Hb Hu. unfold to_signed.
  destruct (Z.ltb_spec u (2 ^ (bits - 1))).
  - now apply Z.mod_small.
  - symmetry. apply Z.mod_unique with (q := -1); lia.
Qed.

Lemma pack_signed_of_unpack (w : nat) (bs : list byte) :
  (0 < w)%nat -> length bs = w ->
  pack_signed w (to_signed (8 * Z.of_nat w) (from_le bs)) = inr bs.
Proof.
  intros Hw Hlen. unfold pack_signed.
  pose proof (from_le_range bs) as Hr. rewrite Hlen in Hr.
  pose proof (to_signed_range (8 * Z.of_nat w) _ ltac:(lia) Hr) as Hs.
  apply in_signedb_iff in Hs. rewrite Hs.
  rewrite to_signed_mod_inv by (auto; lia).
  unfold ret. f_equal. rewrite <- Hlen. apply to_le_from_le.
Qed.

Lemma pack_unsigned_of_unpack (w : nat) (bs : list byte) :
  length bs = w -> pack_unsigned w (from_le bs) = inr bs.
Proof.
  intros Hlen. pose proof (from_le_range bs) as Hr. rewrite Hlen in Hr.
  rewrite pack_unsigned_ok by exact Hr.
  f_equal. rewrite <- Hlen. apply to_le_from_le.
Qed.

(** Packing what was unpacked from bytes of the right size gives the
    bytes back. *)
Lemma pack1_of_unpack1 (c : code) (bs : list byte) :
  length bs = size c -> pack1 c (unpack1 c bs) = inr bs.
Proof.
  intros Hlen. destruct c; cbn [pack1 unpack1 size] in *.
  - unfold ret. f_equal. now apply pack_4s_exact.
  - now apply pack_unsigned_of_unpack.
  - now apply pack_unsigned_of_unpack.
  - apply pack_signed_of_unpack; [lia | exact Hlen].
  - apply pack_signed_of_unpack; [lia | exact Hlen].
  - apply pack_signed_of_unpack; [lia | exact Hlen].
Qed.

Lemma firstn_plus {A} (n m : nat) (l : list A) :
  firstn (n + m) l = firstn n l ++ firstn m (skipn n l).
Proof.
  revert l. induction n as [|n IH]; intros l; [reflexivity|].
  destruct l as [|a l]; cbn [Nat.add firstn skipn app].
  - now rewrite firstn_nil.
  - now rewrite IH.
Qed.

Lemma f_read_split (content : list byte) (p n m : nat) :
  f_read content p (n + m)
  = f_read content p n ++ f_read content (p + n) m.
Proof.
  unfold f_read. rewrite firstn_plus, skipn_skipn.
  now rewrite (Nat.add_comm n p).
Qed.

Lemma pack_fields_at (format : list code) (content : list byte) (p : nat) :
  (p + calcsize format <= length content)%nat ->
  pack format (fields_at format content p)
  = inr (f_read content p (calcsize format)).
Proof.
  revert p. induction format as [|c format IH]; intros p Hlen.
  - reflexivity.
  - rewrite calcsize_cons in *. cbn [fields_at pack].
    rewrite pack1_of_unpack1 by (rewrite length_f_read; lia).
    cbn [bind]. rewrite IH by lia. cbn [bind]. unfold ret.
    now rewrite f_read_split.
Qed.

(** The samples of a buffer of [n] items of a sample code: they exist,
    are in the signed range of the code, and pack to the buffer. *)
Lemma chunks_samples (c : code) (n : nat) (bs : list byte) :
  c = c_b \/ c = c_h \/ c = c_i ->
  length bs = (n * size c)%nat ->
  exists samples,
    first_ints (chunks n [c] bs) = inr samples
    /\ length samples = n
    /\ Forall (in_signed (8 * Z.of_nat (size c))) samples
    /\ pack (repeat c n) (map Int samples) = inr bs.
Proof.
  intros Hc. revert bs. induction n as [|n IH]; intros bs Hlen.
  - exists []. destruct bs; [|discriminate]. repeat split. constructor.
  - assert (Hsz : calcsize [c] = size c)
      by (rewrite calcsize_cons; cbn; lia).
    assert (Hpos : (0 < size c)%nat)
      by (destruct Hc as [-> | [-> | ->]]; cbn; lia).
    cbn [chunks]. rewrite Hsz.
    destruct (IH (skipn (size c) bs)) as (samples & Hf & Hl & Hr & Hp).
    { rewrite length_skipn, Hlen. cbn [Nat.mul]. lia. }
    assert (Hfl : length (firstn (size c) bs) = size c).
    { rewrite length_firstn, Hlen. cbn [Nat.mul]. lia. }
    pose proof (from_le_range (firstn (size c) bs)) as Hu.
    rewrite Hfl in Hu.
    pose proof (to_signed_range (8 * Z.of_nat (size c)) _ ltac:(lia) Hu)
      as Hs.
    pose proof (pack1_of_unpack1 c (firstn (size c) bs) Hfl) as Hp1.
    exists (to_signed (8 * Z.of_nat (size c)) (from_le (firstn (size c) bs))
              :: samples).
    assert (Hu1 : unpack1 c (firstn (size c) bs)
                  = Int (to_signed (8 * Z.of_nat (size c))
                           (from_le (firstn (size c) bs))))
      by (destruct Hc as [-> | [-> | ->]]; reflexivity).
    cbn [unpack_fields]. rewrite firstn_firstn, Nat.min_id, Hu1.
    cbn [first_ints]. rewrite Hf. cbn [bind].
    split; [reflexivity|]. split; [cbn [length]; now rewrite Hl|].
    split; [now constructor|].
    cbn [repeat map pack]. rewrite <- Hu1, Hp1, Hp. cbn [bind].
    unfold ret. now rewrite firstn_skipn.
Qed.

Lemma iter_unpack_inv (c : code) (buffer : list byte)
  (tuples : list (list value)) :
  c = c_b \/ c = c_h \/ c = c_i ->
  iter_unpack [c] buffer = inr tuples ->
  exists n, length buffer = (n * size c)%nat
            /\ tuples = chunks n [c] buffer.
Proof.
  intros Hc. unfold iter_unpack, raise, ret.
  assert (Hsz : calcsize [c] = size c)
    by (rewrite calcsize_cons; cbn; lia).
  rewrite Hsz.
  destruct (Nat.eqb_spec (size c) 0) as [|Hpos]; [discriminate|].
  destruct (Nat.eqb_spec (length buffer mod size c) 0) as [Hm|];
    [|discriminate].
  intros [= <-]. exists (length buffer / size c)%nat. split; [|reflexivity].
  apply Nat.Div0.div_exact in Hm. lia.
Qed.

(** Everything [read_wave] establishes about a file it accepts. *)
Lemma read_wave_inv_full (content : list byte) (h : Header) (d : Data) :
  read_wave content = inr (h, d) ->
  (44 <= length content)%nat /\ h = header_at content /\ Format h = WAVE
  /\ SubChunk2ID d = f_read content 36 4
  /\ SubChunk2Size d = from_le (f_read content 40 4)
  /\ exists c,
      sample_code (BitsPerSample h) = inr c
      /\ (length content - 44 = length (data d) * size c)%nat
      /\ Forall (in_signed (8 * Z.of_nat (size c))) (data d)
      /\ pack (repeat c (length (data d))) (map Int (data d))
         = inr (f_read_all content 44).
Proof.
  intros Hr. destruct (read_wave_inv _ _ _ Hr) as (Hlen & Hh & Hf).
  split; [exact Hlen|]. split; [exact Hh|]. split; [exact Hf|].
  rewrite read_wave_full in Hr by (subst h; assumption).
  rewrite <- Hh in Hr.
  destruct (sample_code (BitsPerSample h)) as [?|c] eqn:Hc;
    cbn [bind] in Hr; [discriminate|].
  destruct (sample_code_inv _ _ Hc) as (_ & _ & Hcase).
  destruct (iter_unpack _ _) as [?|tuples] eqn:Hi; cbn [bind] in Hr;
    [discriminate|].
  destruct (iter_unpack_inv _ _ _ Hcase Hi) as (n & Hn & ->).
  destruct (chunks_samples c n _ Hcase Hn) as (samples & Hs & Hl & Hrg & Hp).
  rewrite Hs in Hr. cbn [bind] in Hr. unfold ret in Hr.
  injection Hr as <-. cbn [SubChunk2ID SubChunk2Size data].
  split; [reflexivity|]. split; [reflexivity|].
  exists c. split; [reflexivity|]. rewrite Hl.
  split; [|split; assumption].
  unfold f_read_all in Hn. rewrite length_skipn in Hn. exact Hn.
Qed.

(** [X1]: Writing back the two dictionaries [read_wave] returned for a file
    reproduces the file byte for byte. *)
Theorem read_wave_then_write_wave (content : list byte)
  (h : Header) (d : Data) :
  read_wave content = inr (h, d) ->
  write_wave h d = mkOutcome (Some content) None.
Proof.
  intros Hr.
  destruct (read_wave_inv_full _ _ _ Hr)
    as (Hlen & Hh & Hf & Hid2 & Hsz2 & c & Hc & _ & _ & Hp).
  unfold write_wave, write_body.
  rewrite Hf, bytes_eqb_refl. cbn [negb]. rewrite <- Hf.
  rewrite Hid2, Hsz2, Hc, Hp. subst h.
  change [Bytes (ChunkID (header_at content));
          Int (ChunkSize (header_at content));
          Bytes (Format (header_at content))]
    with (fields_at riff_format content 0).
  change [Bytes (SubChunk1ID (header_at content));
          Int (SubChunk1Size (header_at content));
          Int (AudioFormat (header_at content));
          Int (NumChannels (header_at content));
          Int (SampleRate (header_at content));
          Int (ByteRate (header_at content));
          Int (BlockAlign (header_at content));
          Int (BitsPerSample (header_at content))]
    with (fields_at fmt_format content 12).
  change [Bytes (f_read content 36 4); Int (from_le (f_read content 40 4))]
    with (fields_at data_format content 36).
  rewrite !pack_fields_at
    by (rewrite ?calcsize_riff, ?calcsize_fmt, ?calcsize_data; lia).
  cbn [app]. do 2 f_equal.
  rewrite calcsize_riff, calcsize_fmt, calcsize_data.
  rewrite <- !f_read_split. cbn [Nat.add].
  unfold f_read, f_read_all. cbn [skipn]. apply firstn_skipn.
Qed.

Lemma read_wave_then_write_wave_witness :
  write_wave (header_at (wav 2 16 [100; 50; -200; 50]))
             (mkData data_id 8 [100; 50; -200; 50])
  = mkOutcome (Some (wav 2 16 [100; 50; -200; 50])) None.
Proof.
  apply (read_wave_then_write_wave (wav 2 16 [100; 50; -200; 50])).
  vm_compute. reflexivity.
Defined.

(** ** Which files read_wave accepts *)

Lemma length_f_read_full (content : list byte) (p n : nat) :
  (p + n <= length content)%nat -> length (f_read content p n) = n.
Proof. intros H. rewrite length_f_read. lia. Qed.

Lemma from_le_f_read_uint (content : list byte) (p n : nat) :
  (p + n <= length content)%nat ->
  uint (8 * Z.of_nat n) (from_le (f_read content p n)).
Proof.
  intros H. pose proof (from_le_range (f_read content p n)) as Hr.
  now rewrite length_f_read_full in Hr by exact H.
Qed.

(** The header found at the fixed offsets of a file of at least 44 bytes
    has identifiers of four bytes and integers in the range of their
    fields. *)
Lemma header_at_fields (content : list byte) :
  (44 <= length content)%nat ->
  length (ChunkID (header_at content)) = 4%nat
  /\ uint 32 (ChunkSize (header_at content))
  /\ length (Format (header_at content)) = 4%nat
  /\ length (SubChunk1ID (header_at content)) = 4%nat
  /\ uint 32 (SubChunk1Size (header_at content))
  /\ uint 16 (AudioFormat (header_at content))
  /\ uint 16 (NumChannels (header_at content))
  /\ uint 32 (SampleRate (header_at content))
  /\ uint 32 (ByteRate (header_at content))
  /\ uint 16 (BlockAlign (header_at content))
  /\ uint 16 (BitsPerSample (header_at content)).
Proof.
  intros H. cbn [header_at ChunkID ChunkSize Format SubChunk1ID SubChunk1Size
                 AudioFormat NumChannels SampleRate ByteRate BlockAlign
                 BitsPerSample].
  repeat split;
    try (apply length_f_read_full; lia);
    try (apply (from_le_f_read_uint content _ 4); lia);
    try (apply (from_le_f_read_uint content _ 2); lia).
Qed.

(** [X3]: [read_wave] returns normally exactly on the files that hold the 44
    bytes of headers with the "WAVE" tag and a BitsPerSample of 8, 16 or
    32, and whose remaining bytes are a whole number of samples of that
    width.  Neither ChunkSize nor SubChunk2Size nor any other field is
    looked at. *)
Theorem read_wave_accepts_iff (content : list byte) :
  (exists h d, read_wave content = inr (h, d)) <->
  (44 <= length content)%nat
  /\ Format (header_at content) = WAVE
  /\ (BitsPerSample (header_at content) = 8
      \/ BitsPerSample (header_at content) = 16
      \/ BitsPerSample (header_at content) = 32)
  /\ (Z.of_nat (length content) - 44)
       mod (BitsPerSample (header_at content) / 8) = 0.
Proof.
  split.
  - intros (h & d & Hr).
    destruct (read_wave_inv_full _ _ _ Hr)
      as (Hlen & -> & Hf & _ & _ & c & Hc & Hn & _ & _).
    destruct (sample_code_inv _ _ Hc) as (Hb & Hw & _).
    repeat (split; [assumption|]).
    rewrite <- Hw.
    replace (8 * Z.of_nat (size c) / 8) with (Z.of_nat (size c))
      by (rewrite Z.mul_comm, Z.div_mul; lia).
    replace (Z.of_nat (length content) - 44)
      with (Z.of_nat (length (data d)) * Z.of_nat (size c)) by lia.
    apply Z.mod_mul.
    destruct c; cbn; lia.
  - intros (Hlen & Hf & Hb & Hm).
    destruct (sample_code_ok _ Hb) as (c & Hc & Hw & Hcase).
    rewrite read_wave_full, Hc by assumption. cbn [bind].
    assert (Hpos : (0 < size c)%nat)
      by (destruct Hcase as [-> | [-> | ->]]; cbn; lia).
    rewrite <- Hw in Hm.
    replace (8 * Z.of_nat (size c) / 8) with (Z.of_nat (size c)) in Hm
      by (rewrite Z.mul_comm, Z.div_mul; lia).
    assert (Hn : length (f_read_all content 44)
                 = (length (f_read_all content 44) / size c * size c)%nat).
    { unfold f_read_all. rewrite length_skipn.
      assert (Hz : Z.of_nat ((length content - 44) mod size c) = 0).
      { rewrite Nat2Z.inj_mod, Nat2Z.inj_sub by lia. exact Hm. }
      pose proof (Nat.div_mod_eq (length content - 44) (size c)). lia. }
    destruct (chunks_samples c _ _ Hcase Hn) as (samples & Hs & _).
    unfold iter_unpack.
    assert (Hsz : calcsize [c] = size c)
      by (rewrite calcsize_cons; cbn; lia).
    rewrite Hsz.
    destruct (Nat.eqb_spec (size c) 0) as [|_]; [lia|].
    destruct (Nat.eqb_spec (length (f_read_all content 44) mod size c) 0)
      as [_|Hne].
    + unfold ret. cbn [bind]. rewrite Hs. cbn [bind].
      eexists _, _. reflexivity.
    + exfalso. apply Hne. rewrite Hn at 1. apply Nat.Div0.mod_mul.
Qed.

Lemma read_wave_accepts_iff_witness :
  exists h d, read_wave (wav 2 8 [1; -2; 3; -4; 5]) = inr (h, d).
Proof.
  apply (proj2 (read_wave_accepts_iff (wav 2 8 [1; -2; 3; -4; 5]))).
  split; [vm_compute; lia|].
  split; [vm_compute; reflexivity|].
  split; [left; vm_compute; reflexivity|].
  vm_compute. reflexivity.
Defined.

Lemma read_wave_valid (content : list byte) (h : Header) (d : Data) :
  read_wave content = inr (h, d) ->
  valid_header h /\ valid_data (BitsPerSample h) d.
Proof.
  intros Hr.
  destruct (read_wave_inv_full _ _ _ Hr)
    as (Hlen & -> & Hf & Hid2 & Hsz2 & c & Hc & Hn & Hs & _).
  destruct (sample_code_inv _ _ Hc) as (Hb & Hw & _).
  destruct (header_at_fields content Hlen)
    as (H1 & H2 & H3 & H4 & H5 & H6 & H7 & H8 & H9 & H10 & H11).
  split; [constructor; assumption|].
  constructor.
  - rewrite Hid2. apply length_f_read_full. lia.
  - rewrite Hsz2. apply (from_le_f_read_uint content 40 4). lia.
  - now rewrite <- Hw.
Qed.

Lemma read_wave_count (content : list byte) (h : Header) (d : Data) :
  read_wave content = inr (h, d) ->
  Z.of_nat (length (data d)) * (BitsPerSample h / 8)
  = Z.of_nat (length content) - 44.
Proof.
  intros Hr.
  destruct (read_wave_inv_full _ _ _ Hr)
    as (Hlen & -> & _ & _ & _ & c & Hc & Hn & _ & _).
  destruct (sample_code_inv _ _ Hc) as (_ & Hw & _).
  rewrite <- Hw.
  replace (8 * Z.of_nat (size c) / 8) with (Z.of_nat (size c))
    by (rewrite Z.mul_comm, Z.div_mul; lia).
  lia.
Qed.

(** [X4]: What [read_wave] returns is always something [write_wave] can
    serialize: identifiers of four bytes, integers within their fields, a
    supported width and samples in the signed range of that width.  The
    number of samples is the size of the file after the 44 bytes of
    headers divided by the bytes per sample, whatever SubChunk2Size
    says. *)
Theorem read_wave_returns_valid (content : list byte)
  (h : Header) (d : Data) :
  read_wave content = inr (h, d) ->
  valid_header h /\ valid_data (BitsPerSample h) d
  /\ Z.of_nat (length (data d)) * (BitsPerSample h / 8)
     = Z.of_nat (length content) - 44.
Proof.
  intros Hr. destruct (read_wave_valid _ _ _ Hr) as [Hh Hd].
  split; [exact Hh|]. split; [exact Hd|].
  now apply read_wave_count.
Qed.

Lemma read_wave_returns_valid_witness :
  valid_header (header_at (wav 1 16 [7; -9]))
  /\ valid_data (BitsPerSample (header_at (wav 1 16 [7; -9])))
                (mkData data_id 4 [7; -9])
  /\ Z.of_nat (length (data (mkData data_id 4 [7; -9])))
     * (BitsPerSample (header_at (wav 1 16 [7; -9])) / 8)
     = Z.of_nat (length (wav 1 16 [7; -9])) - 44.
Proof.
  apply (read_wave_returns_valid (wav 1 16 [7; -9])).
  vm_compute. reflexivity.
Defined.

(** ** Interleaving by slice assignment *)

Lemma slice2_cons {A} (x : A) (l : list A) :
  slice2 (x :: l) = x :: slice2 (tl l).
Proof. destruct l; reflexivity. Qed.

Lemma length_slice2 {A} (l : list A) :
  (length (slice2 l) + length (slice2 (tl l)) = length l)%nat
  /\ (length (slice2 l) = length (slice2 (tl l))
      \/ length (slice2 l) = S (length (slice2 (tl l)))).
Proof.
  induction l as [| x | x y l [IH1 IH2]] using list_ind2.
  - cbn. auto.
  - cbn. auto.
  - cbn [tl]. rewrite (slice2_cons y l).
    change (slice2 (x :: y :: l)) with (x :: slice2 l).
    cbn [length]. lia.
Qed.

(** After [l[::2] = vals] the even positions hold [vals] and the odd
    positions are untouched. *)
Lemma assign_slice2_spec {A} (l vals r : list A) :
  assign_slice2 l vals = inr r ->
  slice2 r = vals /\ slice2 (tl r) = slice2 (tl l).
Proof.
  revert vals r. induction l as [| x | x y l IH] using list_ind2;
    intros vals r; cbn [assign_slice2]; unfold raise, ret.
  - destruct vals; [|discriminate]. intros [= <-]. auto.
  - destruct vals as [|v [|? ?]]; try discriminate.
    intros [= <-]. auto.
  - destruct vals as [|v vals]; [discriminate|].
    destruct (assign_slice2 l vals) as [?|r'] eqn:E; cbn [bind];
      [discriminate|].
    intros [= <-]. destruct (IH _ _ E) as [H1 H2].
    change (slice2 (v :: y :: r')) with (v :: slice2 r').
    cbn [tl]. rewrite !slice2_cons. now rewrite H1, H2.
Qed.

(** After [l[1::2] = vals] the odd positions hold [vals] and the even
    positions are untouched. *)
Lemma assign_slice2_from1_spec {A} (l vals r : list A) :
  assign_slice2_from1 l vals = inr r ->
  slice2 (tl r) = vals /\ slice2 r = slice2 l.
Proof.
  unfold assign_slice2_from1, raise, ret. destruct l as [|x l].
  - destruct vals; [|discriminate]. intros [= <-]. auto.
  - destruct (assign_slice2 l vals) as [?|r'] eqn:E; cbn [bind];
      [discriminate|].
    intros [= <-]. destruct (assign_slice2_spec _ _ _ E) as [H1 H2].
    cbn [tl]. rewrite !slice2_cons. cbn [tl]. now rewrite H1, H2.
Qed.

Lemma assign_slice2_ok {A} (l vals : list A) :
  (2 * length vals = length l \/ 2 * length vals = S (length l))%nat ->
  exists r, assign_slice2 l vals = inr r.
Proof.
  revert vals. induction l as [| x | x y l IH] using list_ind2;
    intros vals Hlen; cbn [assign_slice2].
  - destruct vals; [now exists []|]. cbn [length] in Hlen. lia.
  - destruct vals as [|v [|? ?]]; cbn [length] in Hlen; try lia.
    now exists [v].
  - destruct vals as [|v vals]; cbn [length] in Hlen; [lia|].
    destruct (IH vals) as [r Hr]; [lia|].
    rewrite Hr. cbn [bind]. eexists. reflexivity.
Qed.

Lemma assign_slice2_from1_ok {A} (l vals : list A) :
  (2 * length vals = length l \/ S (2 * length vals) = length l)%nat ->
  exists r, assign_slice2_from1 l vals = inr r.
Proof.
  intros Hlen. unfold assign_slice2_from1. destruct l as [|x l].
  - destruct vals; [now exists []|]. cbn [length] in Hlen. lia.
  - destruct (assign_slice2_ok l vals) as [r Hr];
      [cbn [length] in Hlen; lia|].
    rewrite Hr. cbn [bind]. eexists. reflexivity.
Qed.

(** A list is determined by its length, its even positions and its odd
    positions. *)
Lemma slices_determine {A} (a b : list A) :
  length a = length b -> slice2 a = slice2 b ->
  slice2 (tl a) = slice2 (tl b) -> a = b.
Proof.
  revert b. induction a as [| x | x y a IH] using list_ind2;
    intros b Hlen He Ho.
  - destruct b; [reflexivity | discriminate].
  - destruct b as [|x' [|? ?]]; try discriminate.
    cbn in He. congruence.
  - destruct b as [|x' [|y' b]]; try discriminate.
    change (slice2 (x :: y :: a)) with (x :: slice2 a) in He.
    change (slice2 (x' :: y' :: b)) with (x' :: slice2 b) in He.
    cbn [tl] in Ho. rewrite !slice2_cons in Ho.
    injection He as -> He. injection Ho as -> Ho.
    f_equal. f_equal. apply IH; [cbn [length] in Hlen; lia | assumption..].
Qed.

Lemma interleave_ok (lch rch : list Z) :
  length lch = length rch \/ length lch = S (length rch) ->
  exists d, interleave lch rch = inr d.
Proof.
  intros Hlen. unfold interleave.
  destruct (assign_slice2_ok (lch ++ rch) lch) as [d1 H1].
  { rewrite length_app. lia. }
  rewrite H1. cbn [bind].
  apply assign_slice2_inr in H1 as [Hl1 _]. rewrite length_app in Hl1.
  destruct (assign_slice2_from1_ok d1 rch) as [d H2]; [lia|].
  now exists d.
Qed.

Lemma interleave_slices_of (lch rch d : list Z) :
  interleave lch rch = inr d -> slice2 d = lch /\ slice2 (tl d) = rch.
Proof.
  unfold interleave.
  destruct (assign_slice2 (lch ++ rch) lch) as [?|d1] eqn:H1;
    cbn [bind]; [discriminate|].
  intros Hd. apply assign_slice2_spec in H1 as [He _].
  apply assign_slice2_from1_spec in Hd as [Ho He'].
  split; congruence.
Qed.

(** [X6]: The three statements [d = left + right; d[::2] = left;
    d[1::2] = right] go through exactly when the channels have the same
    length or the left one has one sample more; the result then has all
    len(left)+len(right) positions, the left channel at the even ones
    and the right channel at the odd ones. *)
Theorem interleave_spec (lch rch : list Z) :
  ((exists d, interleave lch rch = inr d) <->
   (length lch = length rch \/ length lch = S (length rch)))
  /\ (forall d, interleave lch rch = inr d ->
        length d = (length lch + length rch)%nat
        /\ slice2 d = lch /\ slice2 (tl d) = rch).
Proof.
  split; [split|].
  - intros [d Hd]. apply (interleave_inr _ _ _ Hd).
  - apply interleave_ok.
  - intros d Hd. split; [apply (interleave_inr _ _ _ Hd)|].
    now apply interleave_slices_of.
Qed.

Lemma interleave_spec_witness :
  exists d, interleave [1; 2; 3] [7; 8; 9] = inr d.
Proof.
  apply (proj2 (proj1 (interleave_spec [1; 2; 3] [7; 8; 9]))).
  left. reflexivity.
Defined.

(** [X7]: Splitting any list of samples into [s[::2]] and [s[1::2]] and
    interleaving the two again gives the list back, also for an odd
    number of samples. *)
Theorem interleave_slices (s : list Z) :
  interleave (slice2 s) (slice2 (tl s)) = inr s.
Proof.
  destruct (length_slice2 s) as [Hsum Hcmp].
  destruct (interleave_ok _ _ Hcmp) as [d Hd].
  destruct (interleave_inr _ _ _ Hd) as [Hlen _].
  destruct (interleave_slices_of _ _ _ Hd) as [He Ho].
  rewrite Hd. f_equal. apply slices_determine; [lia | assumption..].
Qed.

(** ** The decoder on arbitrary samples, the encoder on arbitrary channels *)

Lemma mapM_inr {A B} (f : A -> result B) (l : list A) (bs : list B) :
  mapM f l = inr bs -> Forall2 (fun a b => f a = inr b) l bs.
Proof.
  revert bs. induction l as [|a l IH]; intros bs; cbn [mapM]; unfold ret.
  - intros [= <-]. constructor.
  - destruct (f a) as [?|b] eqn:Ea; cbn [bind]; [discriminate|].
    destruct (mapM f l) as [?|bs'] eqn:El; cbn [bind]; [discriminate|].
    intros [= <-]. constructor; auto.
Qed.

Lemma mapM_inl {A B} (f : A -> result B) (l : list A) (e : exn) :
  mapM f l = inl e -> exists a, In a l /\ f a = inl e.
Proof.
  induction l as [|a l IH]; cbn [mapM]; unfold ret; [discriminate|].
  destruct (f a) as [e'|b] eqn:Ea; cbn [bind].
  - intros [= <-]. exists a. split; [now left | exact Ea].
  - destruct (mapM f l) as [e'|bs'] eqn:El; cbn [bind]; [|discriminate].
    intros [= <-]. destruct (IH eq_refl) as (a' & Hin & Ha').
    exists a'. split; [now right | exact Ha'].
Qed.

(** A value already masked to 16 bits always converts: the
    [OverflowError] of [int.to_bytes] cannot happen in the decoder. *)
Lemma as_int16_masked (u : Z) :
  0 <= u < 65536 -> as_int16 u = inr (to_signed 16 u).
Proof.
  intros Hu. unfold as_int16, int_to_bytes.
  change (8 * Z.of_nat 2) with 16.
  replace (in_unsignedb 16 u) with true
    by (symmetry; apply in_unsignedb_iff; change (2 ^ 16) with 65536; lia).
  unfold ret, int_from_bytes_signed. cbn [bind to_le length]. f_equal.
  change (from_le _) with (from_le (to_le 2 u)).
  rewrite from_le_to_le. change (8 * Z.of_nat 2) with 16.
  change (2 ^ 16) with 65536. now rewrite Z.mod_small.
Qed.

Lemma to_signed16_bounds (u : Z) :
  0 <= u < 65536 -> -32768 <= to_signed 16 u <= 32767.
Proof.
  intros Hu. apply int16_bounds.
  apply to_signed_range; [lia | change (2 ^ 16) with 65536; lia].
Qed.

Lemma mask16_range (x : Z) : 0 <= Z.land x 65535 < 65536.
Proof.
  change 65535 with (Z.ones 16). rewrite Z.land_ones by lia.
  change (2 ^ 16) with 65536. apply Z.mod_pos_bound. lia.
Qed.

Lemma dec_samples_eq (cod : list Z) :
  dec_samples cod
  = inr (map (fun s => to_signed 16 (Z.land (Z.shiftr s 16) 65535)
                       + to_signed 16 (Z.land s 65535)) cod,
         map (fun s => to_signed 16 (Z.land (Z.shiftr s 16) 65535)
                       - to_signed 16 (Z.land s 65535)) cod).
Proof.
  unfold dec_samples, dec_semi_sum, dec_semi_diff.
  rewrite (mapM_ok _ (fun s => to_signed 16 (Z.land (Z.shiftr s 16) 65535)))
    by (intros s _; apply as_int16_masked, mask16_range).
  cbn [bind].
  rewrite (mapM_ok _ (fun s => to_signed 16 (Z.land s 65535)))
    by (intros s _; apply as_int16_masked, mask16_range).
  cbn [bind]. unfold ret.
  rewrite combine_map_same, !map_map. reflexivity.
Qed.

(** [X8]: [decEstereo]'s four list comprehensions never raise: on any list of
    samples they give two channels of the same length, each sample
    being the sum, resp. the difference, of the sign-extended bits 16-31
    and the sign-extended bits 0-15.  The left samples therefore lie in
    [-65536, 65534] and the right ones in [-65535, 65535]. *)
Theorem dec_samples_total (cod : list Z) :
  dec_samples cod
  = inr (map (fun s => to_signed 16 (Z.land (Z.shiftr s 16) 65535)
                       + to_signed 16 (Z.land s 65535)) cod,
         map (fun s => to_signed 16 (Z.land (Z.shiftr s 16) 65535)
                       - to_signed 16 (Z.land s 65535)) cod)
  /\ (forall lch rch, dec_samples cod = inr (lch, rch) ->
        length lch = length cod /\ length rch = length cod
        /\ Forall (fun x => -65536 <= x <= 65534) lch
        /\ Forall (fun x => -65535 <= x <= 65535) rch).
Proof.
  split; [apply dec_samples_eq|].
  intros lch rch Hd. rewrite dec_samples_eq in Hd. injection Hd as <- <-.
  rewrite !length_map. repeat split.
  - apply Forall_map, Forall_forall. intros s _.
    pose proof (to_signed16_bounds _ (mask16_range (Z.shiftr s 16))).
    pose proof (to_signed16_bounds _ (mask16_range s)). lia.
  - apply Forall_map, Forall_forall. intros s _.
    pose proof (to_signed16_bounds _ (mask16_range (Z.shiftr s 16))).
    pose proof (to_signed16_bounds _ (mask16_range s)). lia.
Qed.

Lemma dec_samples_total_witness :
  length [65534] = length [2147450879]
  /\ length [0] = length [2147450879]
  /\ Forall (fun x => -65536 <= x <= 65534) [65534]
  /\ Forall (fun x => -65535 <= x <= 65535) [0].
Proof.
  apply (proj2 (dec_samples_total [2147450879]) [65534] [0]).
  vm_compute. reflexivity.
Defined.

Lemma int_to_bytes_signed_inv (n : Z) (bs : list byte) :
  int_to_bytes_signed n 2 = inr bs -> int16 n /\ bs = to_le 2 (n mod 65536).
Proof.
  unfold int_to_bytes_signed, raise, ret.
  change (8 * Z.of_nat 2) with 16.
  destruct (in_signedb 16 n) eqn:E; [|discriminate].
  intros [= <-]. apply in_signedb_iff in E. auto.
Qed.

Lemma int_to_bytes_signed_inl (n : Z) (e : exn) :
  int_to_bytes_signed n 2 = inl e -> e = OverflowError /\ ~ int16 n.
Proof.
  unfold int_to_bytes_signed, raise, ret.
  change (8 * Z.of_nat 2) with 16.
  destruct (in_signedb 16 n) eqn:E; [discriminate|].
  intros [= <-]. split; [reflexivity|].
  intros H. apply in_signedb_iff in H. unfold int16 in *. congruence.
Qed.

(** The encoder on channels whose half-sums and half-differences fit in
    16 bits, whatever the samples themselves are. *)
Lemma cod_samples_halves (lch rch : list Z) :
  Forall (fun p => int16 ((fst p + snd p) / 2) /\ int16 ((fst p - snd p) / 2))
         (combine lch rch) ->
  cod_samples lch rch
  = inr (map (fun p => packed ((fst p + snd p) / 2) ((fst p - snd p) / 2))
             (combine lch rch)).
Proof.
  intros Hc. rewrite Forall_forall in Hc. unfold cod_samples.
  rewrite (mapM_ok _ (fun p => to_le 2 (((fst p + snd p) / 2) mod 65536))).
  2:{ intros [l r] Hin. apply int_to_bytes_signed_int16, (Hc _ Hin). }
  cbn [bind].
  rewrite (mapM_ok _ (fun p => to_le 2 (((fst p - snd p) / 2) mod 65536))).
  2:{ intros [l r] Hin. apply int_to_bytes_signed_int16, (Hc _ Hin). }
  cbn [bind]. unfold ret. f_equal.
  rewrite combine_map_same, map_map. reflexivity.
Qed.

Lemma packed_int32 (s d : Z) : in_signed 32 (packed s d).
Proof.
  rewrite packed_value. apply to_signed_range; [lia|].
  pose proof (Z.mod_pos_bound s 65536 ltac:(lia)).
  pose proof (Z.mod_pos_bound d 65536 ltac:(lia)).
  change (2 ^ 32) with 4294967296. lia.
Qed.

Lemma Forall2_In_l {A B} (R : A -> B -> Prop) (l : list A) (l' : list B)
  (a : A) :
  Forall2 R l l' -> In a l -> exists b, R a b.
Proof.
  intros H. induction H as [|x y l l' Hxy H IH]; intros Hin;
    [contradiction|].
  destruct Hin as [<- | Hin]; [now exists y | auto].
Qed.

(** [X9]: [codEstereo]'s three list comprehensions succeed exactly when every
    half-sum and every half-difference of the paired samples fits in 16
    bits; otherwise they raise [OverflowError] (and nothing else).  On
    success there is one sample per pair, the shorter channel deciding,
    and every sample fits in the signed 32 bits that [write_wave] will
    pack. *)
Theorem cod_samples_spec (lch rch : list Z) :
  ((exists cod, cod_samples lch rch = inr cod) <->
   Forall (fun p => int16 ((fst p + snd p) / 2)
                    /\ int16 ((fst p - snd p) / 2))
          (combine lch rch))
  /\ (forall cod, cod_samples lch rch = inr cod ->
        length cod = Nat.min (length lch) (length rch)
        /\ Forall (in_signed 32) cod)
  /\ (forall e, cod_samples lch rch = inl e -> e = OverflowError).
Proof.
  assert (Hsucc : forall cod, cod_samples lch rch = inr cod ->
    Forall (fun p => int16 ((fst p + snd p) / 2)
                     /\ int16 ((fst p - snd p) / 2))
           (combine lch rch)).
  { intros cod. unfold cod_samples.
    destruct (mapM _ (combine lch rch)) as [?|sb] eqn:Es; cbn [bind];
      [discriminate|].
    destruct (mapM _ (combine lch rch)) as [?|db] eqn:Ed in |- *; cbn [bind];
      [discriminate|].
    intros _. apply mapM_inr in Es. apply mapM_inr in Ed.
    apply Forall_forall. intros [l r] Hin. cbn [fst snd].
    destruct (Forall2_In_l _ _ _ _ Es Hin) as [b1 H1].
    destruct (Forall2_In_l _ _ _ _ Ed Hin) as [b2 H2].
    cbn in H1, H2.
    apply int_to_bytes_signed_inv in H1 as [H1 _].
    apply int_to_bytes_signed_inv in H2 as [H2 _]. auto. }
  split; [split|split].
  - intros [cod Hcod]. exact (Hsucc cod Hcod).
  - intros H. eexists. now apply cod_samples_halves.
  - intros cod Hcod. pose proof (Hsucc cod Hcod) as H.
    rewrite (cod_samples_halves _ _ H) in Hcod. injection Hcod as <-.
    rewrite length_map, length_combine. split; [reflexivity|].
    apply Forall_map, Forall_forall. intros p _. apply packed_int32.
  - intros e. unfold cod_samples.
    destruct (mapM _ (combine lch rch)) as [e1|sb] eqn:Es; cbn [bind].
    + intros [= <-]. apply mapM_inl in Es as ([l r] & _ & Ha).
      now apply int_to_bytes_signed_inl in Ha.
    + destruct (mapM _ (combine lch rch)) as [e2|db] eqn:Ed in |- *;
        cbn [bind]; [|discriminate].
      intros [= <-]. apply mapM_inl in Ed as ([l r] & _ & Ha).
      now apply int_to_bytes_signed_inl in Ha.
Qed.

Lemma cod_samples_spec_witness :
  exists cod, cod_samples [40000; 5] [0; -7; 1] = inr cod.
Proof.
  apply (proj2 (proj1 (cod_samples_spec [40000; 5] [0; -7; 1]))).
  cbn [combine]. repeat apply Forall_cons; try apply Forall_nil;
    cbn [fst snd]; split; apply int16_bounds; vm_compute;
    split; intro H; discriminate H.
Defined.

Lemma map_snd_combine {A B} (l : list A) (r : list B) :
  length l = length r -> map snd (combine l r) = r.
Proof.
  revert r. induction l as [|a l IH]; intros [|b r] Hlen;
    try discriminate; [reflexivity|].
  cbn [combine map snd]. f_equal. apply IH. now injection Hlen.
Qed.

Lemma semi_diff_minus_semi_sum (l r : Z) :
  (l - r) / 2 - (l + r) / 2 = - r.
Proof. Z.div_mod_to_equations. lia. Qed.

(** [X10]: Decoding what the encoder produced from 16-bit channels of equal
    length gives, as right channel, the original right channel with every
    sample negated: the decoder takes the half-difference for its
    [semi_sum] and the half-sum for its [semi_diff], and their difference
    is minus the right sample whatever the parity. *)
Theorem dec_cod_right_channel_negated (lch rch : list Z) :
  length lch = length rch -> Forall int16 lch -> Forall int16 rch ->
  exists cod dl dr,
    cod_samples lch rch = inr cod
    /\ dec_samples cod = inr (dl, dr)
    /\ dr = map Z.opp rch.
Proof.
  intros Hlen Hl Hr.
  pose proof (Forall_combine _ _ _ _ Hl Hr) as Hc.
  eexists _, _, _. split; [now apply cod_samples_int16|].
  rewrite <- (map_map (fun p => ((fst p + snd p) / 2, (fst p - snd p) / 2))
                      (fun q => packed (fst q) (snd q))).
  rewrite dec_samples_packed.
  2:{ apply Forall_map. eapply Forall_impl; [|exact Hc].
      intros [l r] [Hl' Hr']. cbn [fst snd].
      split; [now apply semi_sum_int16 | now apply semi_diff_int16]. }
  split; [reflexivity|]. rewrite map_map. cbn [fst snd].
  rewrite <- (map_snd_combine lch rch Hlen) at 2. rewrite map_map.
  apply map_ext. intros [l r]. cbn [fst snd].
  apply semi_diff_minus_semi_sum.
Qed.

Lemma dec_cod_right_channel_negated_witness :
  exists cod dl dr,
    cod_samples [10; 1; -3] [4; 0; -32768] = inr cod
    /\ dec_samples cod = inr (dl, dr)
    /\ dr = [-4; 0; 32768].
Proof.
  apply (dec_cod_right_channel_negated [10; 1; -3] [4; 0; -32768]).
  - reflexivity.
  - repeat constructor; apply int16_bounds; lia.
  - repeat constructor; apply int16_bounds; lia.
Defined.

(** ** How write_wave ends *)

Lemma pack_unsigned_error (w : nat) (n : Z) (e : exn) :
  pack_unsigned w n = inl e -> e = StructError.
Proof.
  unfold pack_unsigned, raise, ret.
  destruct (in_unsignedb _ n); [discriminate|]. now intros [= <-].
Qed.

Lemma pack_signed_error (w : nat) (n : Z) (e : exn) :
  pack_signed w n = inl e -> e = StructError.
Proof.
  unfold pack_signed, raise, ret.
  destruct (in_signedb _ n); [discriminate|]. now intros [= <-].
Qed.

Lemma pack1_error (c : code) (v : value) (e : exn) :
  pack1 c v = inl e -> e = StructError.
Proof.
  destruct c, v as [bs|n]; cbn [pack1]; unfold raise, ret;
    try (intros [= <-]; reflexivity); try discriminate;
    try apply pack_unsigned_error; apply pack_signed_error.
Qed.

Lemma pack_error (format : list code) (values : list value) (e : exn) :
  pack format values = inl e -> e = StructError.
Proof.
  revert values. induction format as [|c format IH]; intros values;
    destruct values as [|v values]; cbn [pack]; unfold raise, ret;
    try discriminate; try (intros [= <-]; reflexivity).
  destruct (pack1 c v) as [e1|b] eqn:E1; cbn [bind].
  - intros [= <-]. now apply pack1_error in E1.
  - destruct (pack format values) as [e2|bs] eqn:E2; cbn [bind];
      [|discriminate].
    intros [= <-]. now apply IH in E2.
Qed.

Lemma Forall2_canonical_ints (c : code) (samples : list Z) :
  c = c_b \/ c = c_h \/ c = c_i ->
  Forall2 canonical (repeat c (length samples)) (map Int samples).
Proof.
  intros Hc. induction samples as [|s samples IH]; cbn [length repeat map];
    constructor; [|exact IH].
  destruct Hc as [-> | [-> | ->]]; exact I.
Qed.

Lemma calcsize_repeat (c : code) (n : nat) :
  calcsize (repeat c n) = (n * size c)%nat.
Proof.
  induction n as [|n IH]; [reflexivity|].
  cbn [repeat]. rewrite calcsize_cons, IH. reflexivity.
Qed.

(** [X2]: A [write_wave] that returns normally has written the 44 bytes of
    headers and bits/8 bytes for each sample of the list it was given,
    and [read_wave] on the file gives back the same two dictionaries
    (provided the three identifiers have four bytes, which [4s] needs to
    keep them as they are). *)
Theorem write_wave_complete (h : Header) (d : Data) (out : list byte) :
  write_wave h d = mkOutcome (Some out) None ->
  Z.of_nat (length out)
  = 44 + Z.of_nat (length (data d)) * (BitsPerSample h / 8)
  /\ (length (ChunkID h) = 4%nat -> length (SubChunk1ID h) = 4%nat ->
      length (SubChunk2ID d) = 4%nat -> read_wave out = inr (h, d)).
Proof.
  intros Hw. split; [|now apply write_read_back].
  apply write_wave_inv in Hw
    as (Hfmt & b1 & b2 & b3 & c & b4 & P1 & P2 & P3 & Hc & P4 & ->).
  destruct (sample_code_inv _ _ Hc) as (_ & Hbits & Hcase).
  apply pack_length_any in P1, P2, P3, P4.
  rewrite calcsize_riff in P1. rewrite calcsize_fmt in P2.
  rewrite calcsize_data in P3.
  rewrite calcsize_repeat in P4.
  rewrite !length_app, P1, P2, P3, P4, <- Hbits.
  replace (8 * Z.of_nat (size c) / 8) with (Z.of_nat (size c))
    by (rewrite Z.mul_comm, Z.div_mul; lia).
  lia.
Qed.

Lemma write_wave_complete_witness :
  Z.of_nat (length (wav 2 16 [100; 50; -200; 50]))
  = 44 + Z.of_nat (length (data (mkData data_id 8 [100; 50; -200; 50])))
         * (BitsPerSample (header_at (wav 2 16 [100; 50; -200; 50])) / 8)
  /\ (length (ChunkID (header_at (wav 2 16 [100; 50; -200; 50]))) = 4%nat ->
      length (SubChunk1ID (header_at (wav 2 16 [100; 50; -200; 50])))
      = 4%nat ->
      length (SubChunk2ID (mkData data_id 8 [100; 50; -200; 50])) = 4%nat ->
      read_wave (wav 2 16 [100; 50; -200; 50])
      = inr (header_at (wav 2 16 [100; 50; -200; 50]),
             mkData data_id 8 [100; 50; -200; 50])).
Proof.
  apply (write_wave_complete
           (header_at (wav 2 16 [100; 50; -200; 50]))
           (mkData data_id 8 [100; 50; -200; 50])).
  vm_compute. reflexivity.
Defined.

(** [X5]: A [write_wave] that raises: before the file is opened exactly when
    the Format tag is not "WAVE"; otherwise with a [struct.error], or the
    [ValueError] for BitsPerSample after all 44 bytes of headers, and the
    file is left with 0, 12, 36 or 44 bytes: sample bytes are written
    only by a call that returns normally. *)
Theorem write_wave_failures (h : Header) (d : Data) :
  (written (write_wave h d) = None <-> Format h <> WAVE)
  /\ (Format h <> WAVE ->
      write_wave h d = mkOutcome None (Some (ValueError NotWave)))
  /\ (forall out e,
        write_wave h d = mkOutcome (Some out) (Some e) ->
        (e = StructError
         /\ (length out = 0 \/ length out = 12 \/ length out = 36
             \/ length out = 44)%nat)
        \/ (e = ValueError BadBitsPerSample /\ length out = 44%nat
            /\ ~ (BitsPerSample h = 8 \/ BitsPerSample h = 16
                  \/ BitsPerSample h = 32))).
Proof.
  unfold write_wave.
  destruct (bytes_eqb (Format h) WAVE) eqn:Ef; cbn [negb].
  - apply bytes_eqb_eq in Ef.
    destruct (write_body h d) as [f e0] eqn:Eb. cbn [written].
    split; [split; [discriminate | contradiction]|].
    split; [contradiction|].
    intros out e [= -> ->]. revert Eb. unfold write_body.
    destruct (pack riff_format _) as [e1|b1] eqn:P1.
    { intros [= <- <-]. apply pack_error in P1. left. cbn. auto. }
    apply pack_length_any in P1. rewrite calcsize_riff in P1.
    destruct (pack fmt_format _) as [e2|b2] eqn:P2.
    { intros [= <- <-]. apply pack_error in P2. left.
      cbn [app]. rewrite P1. auto. }
    apply pack_length_any in P2. rewrite calcsize_fmt in P2.
    destruct (pack data_format _) as [e3|b3] eqn:P3.
    { intros [= <- <-]. apply pack_error in P3. left.
      cbn [app]. rewrite length_app, P1, P2. auto. }
    apply pack_length_any in P3. rewrite calcsize_data in P3.
    assert (L : length ((([] ++ b1) ++ b2) ++ b3) = 44%nat).
    { cbn [app]. rewrite !length_app, P1, P2, P3. reflexivity. }
    destruct (sample_code (BitsPerSample h)) as [ec|c] eqn:Pc.
    { intros [= <- <-]. right.
      destruct (bits_dec (BitsPerSample h)) as [Hb|Hb].
      - destruct (sample_code_ok _ Hb) as (c & Hc & _). congruence.
      - rewrite (sample_code_bad _ Hb) in Pc. injection Pc as <-. auto. }
    destruct (pack (repeat c _) _) as [e4|b4] eqn:P4; [|discriminate].
    intros [= <- <-]. apply pack_error in P4. left. auto.
  - assert (Hne : Format h <> WAVE).
    { intros H. apply bytes_eqb_eq in H. congruence. }
    cbn [written]. split; [split; auto|]. split; [reflexivity|].
    discriminate.
Qed.

Lemma write_wave_failures_witness :
  write_wave (mkHeader RIFF 36 RIFF fmt_id 16 1 1 8000 16000 2 16)
             (mkData data_id 0 [])
  = mkOutcome None (Some (ValueError NotWave)).
Proof.
  apply (proj1 (proj2 (write_wave_failures
                         (mkHeader RIFF 36 RIFF fmt_id 16 1 1 8000 16000 2 16)
                         (mkData data_id 0 [])))).
  cbn. discriminate.
Defined.

(** ** What each transcoder hands to write_wave *)

Lemma then_write_ok (r : result (Header * Data)) (out : list byte) :
  then_write r = mkOutcome (Some out) None ->
  exists h' d', r = inr (h', d')
                /\ write_wave h' d' = mkOutcome (Some out) None.
Proof.
  destruct r as [e|[h' d']]; cbn [then_write]; [discriminate|].
  intros Hw. now exists h', d'.
Qed.

Lemma mono_samples_inr (canal : Z) (lch rch mono : list Z) :
  mono_samples canal lch rch = inr mono -> 0 <= canal <= 3.
Proof.
  unfold mono_samples, raise.
  destruct (Z.eqb_spec canal 0); [lia|].
  destruct (Z.eqb_spec canal 1); [lia|].
  destruct (Z.eqb_spec canal 2); [lia|].
  destruct (Z.eqb_spec canal 3); [lia|]. discriminate.
Qed.

Lemma estereo2mono_args_inv ficEste canal h' d' :
  estereo2mono_args ficEste canal = inr (h', d') ->
  exists h d mono,
    read_wave ficEste = inr (h, d) /\ NumChannels h = 2
    /\ mono_samples canal (slice2 (data d)) (slice2 (tl (data d)))
       = inr mono
    /\ h' = mkHeader (ChunkID h) (ChunkSize h) (Format h) (SubChunk1ID h)
              (SubChunk1Size h) (AudioFormat h) 1 (SampleRate h)
              (SampleRate h * 1 * BitsPerSample h / 8)
              (1 * BitsPerSample h / 8) (BitsPerSample h)
    /\ d' = mkData data_id
              (Z.of_nat (length mono) * 1 * BitsPerSample h / 8) mono.
Proof.
  unfold estereo2mono_args, raise, ret.
  destruct (read_wave ficEste) as [?|[h d]]; cbn [bind]; [discriminate|].
  destruct (Z.eqb_spec (NumChannels h) 2) as [Hc|]; cbn [negb];
    [|discriminate].
  destruct (mono_samples _ _ _) as [?|mono] eqn:Em; cbn [bind];
    [discriminate|].
  intros [= <- <-]. exists h, d, mono. repeat split; assumption.
Qed.

Lemma mono2estereo_args_inv ficIzq ficDer h' d' :
  mono2estereo_args ficIzq ficDer = inr (h', d') ->
  exists h d hr dr dd,
    read_wave ficIzq = inr (h, d) /\ NumChannels h = 1
    /\ read_wave ficDer = inr (hr, dr) /\ NumChannels hr = 1
    /\ interleave (data d) (data dr) = inr dd
    /\ h' = mkHeader (ChunkID h) (ChunkSize h) (Format h) (SubChunk1ID h)
              (SubChunk1Size h) (AudioFormat h) 2 (SampleRate h)
              (SampleRate h * 2 * BitsPerSample h / 8)
              (2 * BitsPerSample h / 8) (BitsPerSample h)
    /\ d' = mkData data_id
              (Z.of_nat (length (data d)) * 2 * BitsPerSample h / 8) dd.
Proof.
  unfold mono2estereo_args, raise, ret.
  destruct (read_wave ficIzq) as [?|[h d]]; cbn [bind]; [discriminate|].
  destruct (Z.eqb_spec (NumChannels h) 1) as [Hc|]; cbn [negb];
    [|discriminate].
  destruct (read_wave ficDer) as [?|[hr dr]]; cbn [bind]; [discriminate|].
  destruct (Z.eqb_spec (NumChannels hr) 1) as [Hcr|]; cbn [negb];
    [|discriminate].
  destruct (interleave _ _) as [?|dd] eqn:Ei; cbn [bind]; [discriminate|].
  intros [= <- <-]. exists h, d, hr, dr, dd. repeat split; assumption.
Qed.

Lemma codEstereo_args_inv ficEste h' d' :
  codEstereo_args ficEste = inr (h', d') ->
  exists h d cod,
    read_wave ficEste = inr (h, d) /\ NumChannels h = 2
    /\ cod_samples (slice2 (data d)) (slice2 (tl (data d))) = inr cod
    /\ h' = mkHeader (ChunkID h) (ChunkSize h) (Format h) (SubChunk1ID h)
              (SubChunk1Size h) (AudioFormat h) 1 (SampleRate h)
              (SampleRate h * 1 * 32 / 8) (1 * 32 / 8) 32
    /\ d' = mkData data_id (Z.of_nat (length cod) * 1 * 32 / 8) cod.
Proof.
  unfold codEstereo_args, raise, ret.
  destruct (read_wave ficEste) as [?|[h d]]; cbn [bind]; [discriminate|].
  destruct (Z.eqb_spec (NumChannels h) 2) as [Hc|]; cbn [negb];
    [|discriminate].
  destruct (cod_samples _ _) as [?|cod] eqn:Ec; cbn [bind]; [discriminate|].
  intros [= <- <-]. exists h, d, cod. repeat split; assumption.
Qed.

Lemma decEstereo_args_inv ficCod h' d' :
  decEstereo_args ficCod = inr (h', d') ->
  exists h d lch rch dd,
    read_wave ficCod = inr (h, d) /\ NumChannels h = 1
    /\ BitsPerSample h = 32
    /\ dec_samples (data d) = inr (lch, rch)
    /\ interleave lch rch = inr dd
    /\ h' = mkHeader (ChunkID h) (ChunkSize h) (Format h) (SubChunk1ID h)
              (SubChunk1Size h) (AudioFormat h) 2 (SampleRate h)
              (SampleRate h * 2 * 16 / 8) (2 * 16 / 8) 16
    /\ d' = mkData data_id (Z.of_nat (length dd) * 2 * 16 / 8) dd.
Proof.
  unfold decEstereo_args, raise, ret.
  destruct (read_wave ficCod) as [?|[h d]]; cbn [bind]; [discriminate|].
  destruct (Z.eqb_spec (NumChannels h) 1) as [Hc|]; cbn [negb];
    [|discriminate].
  destruct (Z.eqb_spec (BitsPerSample h) 32) as [Hb|]; cbn [negb];
    [|discriminate].
  destruct (dec_samples _) as [?|[lch rch]] eqn:Ed; cbn [bind];
    [discriminate|].
  destruct (interleave _ _) as [?|dd] eqn:Ei; cbn [bind]; [discriminate|].
  intros [= <- <-]. exists h, d, lch, rch, dd. repeat split; assumption.
Qed.

(** What a transcoder that returned normally wrote can be read back as
    the dictionaries it had built. *)
Lemma transcoded_read_back (h h' : Header) (d' : Data)
  (content out : list byte) (d : Data) :
  read_wave content = inr (h, d) ->
  write_wave h' d' = mkOutcome (Some out) None ->
  ChunkID h' = ChunkID h -> SubChunk1ID h' = SubChunk1ID h ->
  SubChunk2ID d' = data_id ->
  read_wave out = inr (h', d').
Proof.
  intros Hr Hw H1 H2 H3.
  destruct (read_wave_valid _ _ _ Hr) as [[Hid _ _ Hid1 _ _ _ _ _ _ _] _].
  apply (write_read_back h' d' out Hw); [congruence | congruence|].
  now rewrite H3.
Qed.

Lemma bits_div8 (x bits : Z) :
  bits = 8 \/ bits = 16 \/ bits = 32 -> x * bits / 8 = x * (bits / 8).
Proof.
  intros [-> | [-> | ->]].
  - change (8 / 8) with 1. rewrite Z.div_mul by lia. lia.
  - change (16 / 8) with 2. replace (x * 16) with (x * 2 * 8) by lia.
    now rewrite Z.div_mul by lia.
  - change (32 / 8) with 4. replace (x * 32) with (x * 4 * 8) by lia.
    now rewrite Z.div_mul by lia.
Qed.

Lemma bits_div8_pos (bits : Z) :
  bits = 8 \/ bits = 16 \/ bits = 32 -> 0 < bits / 8.
Proof. intros [-> | [-> | ->]]; reflexivity. Qed.

(** ** SubChunk2Size against the payload written *)

(** [X11]: [estereo2mono] and [codEstereo], when they return normally, write as
    SubChunk2Size (bytes 40-43) the number of bytes that follow the
    headers.  [mono2estereo] does so exactly when its two inputs have the
    same number of samples; the one other case in which it returns
    normally is a left input one sample longer, and then SubChunk2Size
    counts one sample more than was written. *)
Theorem SubChunk2Size_is_payload :
  (forall ficEste canal out,
      estereo2mono ficEste canal = mkOutcome (Some out) None ->
      from_le (f_read out 40 4) = Z.of_nat (length out) - 44)
  /\ (forall ficEste out,
        codEstereo ficEste = mkOutcome (Some out) None ->
        from_le (f_read out 40 4) = Z.of_nat (length out) - 44)
  /\ (forall ficIzq ficDer out hl dl hr dr,
        mono2estereo ficIzq ficDer = mkOutcome (Some out) None ->
        read_wave ficIzq = inr (hl, dl) ->
        read_wave ficDer = inr (hr, dr) ->
        (from_le (f_read out 40 4) = Z.of_nat (length out) - 44
         <-> length (data dl) = length (data dr))).
Proof.
  split; [|split].
  - intros ficEste canal out Hrun.
    apply then_write_ok in Hrun as (h' & d' & Hargs & Hw).
    apply estereo2mono_args_inv in Hargs
      as (h & d & mono & Hr & _ & _ & -> & ->).
    pose proof (transcoded_read_back _ _ _ _ _ _ Hr Hw eq_refl eq_refl
                  eq_refl) as Hback.
    destruct (read_wave_inv_full _ _ _ Hback)
      as (_ & _ & _ & _ & Hsz & _).
    destruct (read_wave_valid _ _ _ Hback) as [[] _].
    pose proof (read_wave_count _ _ _ Hback) as Hn.
    cbn [SubChunk2Size BitsPerSample data] in *.
    rewrite <- Hsz, <- Hn, Z.mul_1_r. now apply bits_div8.
  - intros ficEste out Hrun.
    apply then_write_ok in Hrun as (h' & d' & Hargs & Hw).
    apply codEstereo_args_inv in Hargs
      as (h & d & cod & Hr & _ & _ & -> & ->).
    pose proof (transcoded_read_back _ _ _ _ _ _ Hr Hw eq_refl eq_refl
                  eq_refl) as Hback.
    destruct (read_wave_inv_full _ _ _ Hback)
      as (_ & _ & _ & _ & Hsz & _).
    pose proof (read_wave_count _ _ _ Hback) as Hn.
    cbn [SubChunk2Size BitsPerSample data] in *.
    rewrite <- Hsz, <- Hn, Z.mul_1_r. apply bits_div8. auto.
  - intros ficIzq ficDer out hl dl hr dr Hrun Hl Hr.
    apply then_write_ok in Hrun as (h' & d' & Hargs & Hw).
    apply mono2estereo_args_inv in Hargs
      as (h & d & hr' & dr' & dd & Hl' & _ & Hr' & _ & Hi & -> & ->).
    rewrite Hl in Hl'. injection Hl' as <- <-.
    rewrite Hr in Hr'. injection Hr' as <- <-.
    pose proof (transcoded_read_back _ _ _ _ _ _ Hl Hw eq_refl eq_refl
                  eq_refl) as Hback.
    destruct (read_wave_inv_full _ _ _ Hback)
      as (_ & _ & _ & _ & Hsz & _).
    destruct (read_wave_valid _ _ _ Hback) as [[] _].
    pose proof (read_wave_count _ _ _ Hback) as Hn.
    destruct (interleave_inr _ _ _ Hi) as [Hlen _].
    cbn [SubChunk2Size BitsPerSample data] in *.
    rewrite <- Hsz, <- Hn, Hlen, bits_div8 by assumption.
    pose proof (bits_div8_pos _ vh_BitsPerSample0) as Hpos.
    split; intros H; nia.
Qed.

Lemma SubChunk2Size_is_payload_witness :
  exists out,
    estereo2mono (wav 2 16 [100; 50; -200; 50]) 3 = mkOutcome (Some out) None
    /\ from_le (f_read out 40 4) = Z.of_nat (length out) - 44.
Proof.
  eexists. split; [vm_compute; reflexivity|].
  apply (proj1 SubChunk2Size_is_payload (wav 2 16 [100; 50; -200; 50]) 3).
  vm_compute. reflexivity.
Defined.

(** [X12]: [decEstereo], whenever it returns normally, writes as SubChunk2Size
    twice the number of bytes that follow the headers. *)
Theorem decEstereo_SubChunk2Size_twice_payload (ficCod out : list byte) :
  decEstereo ficCod = mkOutcome (Some out) None ->
  from_le (f_read out 40 4) = 2 * (Z.of_nat (length out) - 44).
Proof.
  intros Hrun.
  apply then_write_ok in Hrun as (h' & d' & Hargs & Hw).
  apply decEstereo_args_inv in Hargs
    as (h & d & lch & rch & dd & Hr & _ & _ & _ & _ & -> & ->).
  pose proof (transcoded_read_back _ _ _ _ _ _ Hr Hw eq_refl eq_refl
                eq_refl) as Hback.
  destruct (read_wave_inv_full _ _ _ Hback) as (_ & _ & _ & _ & Hsz & _).
  pose proof (read_wave_count _ _ _ Hback) as Hn.
  cbn [SubChunk2Size BitsPerSample data] in *.
  rewrite <- Hsz, <- Hn. change (16 / 8) with 2.
  replace (Z.of_nat (length dd) * 2 * 16) with
    (Z.of_nat (length dd) * 4 * 8) by lia.
  rewrite Z.div_mul by lia. lia.
Qed.

Lemma decEstereo_SubChunk2Size_twice_payload_witness :
  exists out,
    decEstereo (wav 1 32 [196615; 0; 65536]) = mkOutcome (Some out) None
    /\ from_le (f_read out 40 4) = 2 * (Z.of_nat (length out) - 44).
Proof.
  eexists. split; [vm_compute; reflexivity|].
  apply (decEstereo_SubChunk2Size_twice_payload (wav 1 32 [196615; 0; 65536])).
  vm_compute. reflexivity.
Defined.

(** ** The header a transcoder writes *)

(** [X13]: Whenever a transcoder returns normally, the header of its output has
    the identifiers, AudioFormat, SubChunk1Size and SampleRate of the
    file whose header it reused, the channel count and sample width of
    the operation (mono for [estereo2mono] and [codEstereo], stereo for
    the other two; 32 bits after [codEstereo], 16 after [decEstereo], the
    source's width otherwise), and a BlockAlign and a ByteRate that
    agree with them, whatever the source header said; the data
    identifier is "data". *)
Theorem transcoded_header (t : transcoding) (out : list byte) :
  run t = mkOutcome (Some out) None ->
  ChunkID (header_at out) = ChunkID (header_at (source t))
  /\ Format (header_at out) = WAVE
  /\ SubChunk1ID (header_at out) = SubChunk1ID (header_at (source t))
  /\ SubChunk1Size (header_at out) = SubChunk1Size (header_at (source t))
  /\ AudioFormat (header_at out) = AudioFormat (header_at (source t))
  /\ SampleRate (header_at out) = SampleRate (header_at (source t))
  /\ NumChannels (header_at out)
     = match t with
       | Estereo2mono _ _ | CodEstereo _ => 1
       | Mono2estereo _ _ | DecEstereo _ => 2
       end
  /\ BitsPerSample (header_at out)
     = match t with
       | CodEstereo _ => 32
       | DecEstereo _ => 16
       | Estereo2mono _ _ | Mono2estereo _ _ =>
           BitsPerSample (header_at (source t))
       end
  /\ BlockAlign (header_at out)
     = NumChannels (header_at out) * (BitsPerSample (header_at out) / 8)
  /\ ByteRate (header_at out)
     = SampleRate (header_at out) * BlockAlign (header_at out)
  /\ f_read out 36 4 = data_id.
Proof.
  intros Hrun.
  assert (Hcore : exists h d h' d',
    read_wave (source t) = inr (h, d)
    /\ read_wave out = inr (h', d')
    /\ ChunkID h' = ChunkID h /\ SubChunk1ID h' = SubChunk1ID h
    /\ SubChunk1Size h' = SubChunk1Size h /\ AudioFormat h' = AudioFormat h
    /\ SampleRate h' = SampleRate h
    /\ NumChannels h'
       = match t with
         | Estereo2mono _ _ | CodEstereo _ => 1
         | Mono2estereo _ _ | DecEstereo _ => 2
         end
    /\ BitsPerSample h'
       = match t with
         | CodEstereo _ => 32
         | DecEstereo _ => 16
         | Estereo2mono _ _ | Mono2estereo _ _ => BitsPerSample h
         end
    /\ BlockAlign h' = NumChannels h' * BitsPerSample h' / 8
    /\ ByteRate h' = SampleRate h' * NumChannels h' * BitsPerSample h' / 8
    /\ SubChunk2ID d' = data_id).
  { destruct t; cbn [run source] in *;
      apply then_write_ok in Hrun as (h' & d' & Hargs & Hw).
    - apply estereo2mono_args_inv in Hargs
        as (h & d & mono & Hr & _ & _ & -> & ->).
      exists h, d. eexists _, _. split; [exact Hr|].
      split; [apply (transcoded_read_back _ _ _ _ _ _ Hr Hw); reflexivity|].
      cbn. repeat split.
    - apply mono2estereo_args_inv in Hargs
        as (h & d & hr & dr & dd & Hr & _ & _ & _ & _ & -> & ->).
      exists h, d. eexists _, _. split; [exact Hr|].
      split; [apply (transcoded_read_back _ _ _ _ _ _ Hr Hw); reflexivity|].
      cbn. repeat split.
    - apply codEstereo_args_inv in Hargs
        as (h & d & cod & Hr & _ & _ & -> & ->).
      exists h, d. eexists _, _. split; [exact Hr|].
      split; [apply (transcoded_read_back _ _ _ _ _ _ Hr Hw); reflexivity|].
      cbn. repeat split.
    - apply decEstereo_args_inv in Hargs
        as (h & d & lch & rch & dd & Hr & _ & _ & _ & _ & -> & ->).
      exists h, d. eexists _, _. split; [exact Hr|].
      split; [apply (transcoded_read_back _ _ _ _ _ _ Hr Hw); reflexivity|].
      cbn. repeat split. }
  destruct Hcore as (h & d & h' & d' & Hr & Hback & H1 & H2 & H3 & H4 & H5
                       & H6 & H7 & H8 & H9 & H10).
  destruct (read_wave_inv_full _ _ _ Hback)
    as (_ & Hh' & Hf & Hid2 & _).
  destruct (read_wave_inv _ _ _ Hr) as (_ & Hh & _).
  destruct (read_wave_valid _ _ _ Hback) as [[] _].
  rewrite <- Hh', <- Hh.
  repeat (split; [assumption|]).
  split; [rewrite H8; now apply bits_div8|].
  split; [|congruence].
  rewrite H9, H8, !bits_div8 by assumption. ring.
Qed.

Lemma transcoded_header_witness :
  exists out,
    run (CodEstereo (wav 2 16 [10; 4; 1; 0])) = mkOutcome (Some out) None
    /\ NumChannels (header_at out) = 1
    /\ BitsPerSample (header_at out) = 32
    /\ BlockAlign (header_at out) = 4
    /\ ByteRate (header_at out) = 32000.
Proof.
  eexists. split; [vm_compute; reflexivity|].
  destruct (transcoded_header (CodEstereo (wav 2 16 [10; 4; 1; 0])) _
              ltac:(vm_compute; reflexivity))
    as (_ & _ & _ & _ & _ & _ & Hn & Hb & _).
  split; [exact Hn|]. split; [exact Hb|].
  split; vm_compute; reflexivity.
Defined.

(** ** When a transcoder opens its output *)

(** [X14]: A transcoder opens its output file only after every check before
    [write_wave] has passed: each file it reads is one [read_wave]
    accepts, with two channels for [estereo2mono] and [codEstereo], one
    channel for both inputs of [mono2estereo] and for [decEstereo], 32
    bits per sample for [decEstereo], and a [canal] from 0 to 3 for
    [estereo2mono].  In every other case no output file is created or
    truncated. *)
Theorem output_only_after_checks (t : transcoding) (out : list byte) :
  written (run t) = Some out ->
  (exists h d, read_wave (source t) = inr (h, d))
  /\ match t with
     | Estereo2mono ficEste canal =>
         NumChannels (header_at ficEste) = 2 /\ 0 <= canal <= 3
     | Mono2estereo ficIzq ficDer =>
         NumChannels (header_at ficIzq) = 1
         /\ NumChannels (header_at ficDer) = 1
         /\ exists h d, read_wave ficDer = inr (h, d)
     | CodEstereo ficEste => NumChannels (header_at ficEste) = 2
     | DecEstereo ficCod =>
         NumChannels (header_at ficCod) = 1
         /\ BitsPerSample (header_at ficCod) = 32
     end.
Proof.
  intros Hw. destruct t; cbn [run source] in *;
    apply then_write_written in Hw as (h' & d' & Hargs & _).
  - apply estereo2mono_args_inv in Hargs
      as (h & d & mono & Hr & Hc & Hm & _).
    destruct (read_wave_inv _ _ _ Hr) as (_ & -> & _).
    split; [eexists _, _; eassumption|]. split; [exact Hc|].
    now apply mono_samples_inr in Hm.
  - apply mono2estereo_args_inv in Hargs
      as (h & d & hr & dr & dd & Hr & Hc & Hr' & Hc' & _).
    destruct (read_wave_inv _ _ _ Hr) as (_ & -> & _).
    destruct (read_wave_inv _ _ _ Hr') as (_ & Hhr & _). subst hr.
    split; [eexists _, _; eassumption|]. split; [exact Hc|].
    split; [exact Hc'|]. eexists _, _; eassumption.
  - apply codEstereo_args_inv in Hargs as (h & d & cod & Hr & Hc & _).
    destruct (read_wave_inv _ _ _ Hr) as (_ & -> & _).
    split; [eexists _, _; eassumption | exact Hc].
  - apply decEstereo_args_inv in Hargs
      as (h & d & lch & rch & dd & Hr & Hc & Hb & _).
    destruct (read_wave_inv _ _ _ Hr) as (_ & -> & _).
    split; [eexists _, _; eassumption|]. split; assumption.
Qed.

Lemma output_only_after_checks_witness :
  (exists h d, read_wave (wav 1 32 [196615]) = inr (h, d))
  /\ NumChannels (header_at (wav 1 32 [196615])) = 1
  /\ BitsPerSample (header_at (wav 1 32 [196615])) = 32.
Proof.
  refine (output_only_after_checks (DecEstereo (wav 1 32 [196615])) _ _).
  vm_compute. reflexivity.
Defined.

(** ** Decoding what the encoder wrote *)

(** [X15]: Every file [codEstereo] completes is one [decEstereo] takes up to its
    call of [write_wave]: it is read without error, passes the mono and
    32-bit checks, decodes and interleaves, into a stereo 16-bit header
    at the same sample rate and two samples for each encoded one.  Only
    the packing in [write_wave] can still raise. *)
Theorem decEstereo_takes_codEstereo_output (ficEste out : list byte) :
  codEstereo ficEste = mkOutcome (Some out) None ->
  exists hc dc h d,
    read_wave out = inr (hc, dc)
    /\ decEstereo_args out = inr (h, d)
    /\ NumChannels h = 2 /\ BitsPerSample h = 16
    /\ SampleRate h = SampleRate (header_at ficEste)
    /\ length (data d) = (2 * length (data dc))%nat.
Proof.
  intros Hrun.
  apply then_write_ok in Hrun as (h' & d' & Hargs & Hw).
  apply codEstereo_args_inv in Hargs
    as (h0 & d0 & cod & Hr & _ & _ & -> & ->).
  pose proof (transcoded_read_back _ _ _ _ _ _ Hr Hw eq_refl eq_refl
                eq_refl) as Hback.
  destruct (read_wave_inv _ _ _ Hr) as (_ & Hh0 & _).
  destruct (interleave_ok
              (map (fun s => to_signed 16 (Z.land (Z.shiftr s 16) 65535)
                             + to_signed 16 (Z.land s 65535)) cod)
              (map (fun s => to_signed 16 (Z.land (Z.shiftr s 16) 65535)
                             - to_signed 16 (Z.land s 65535)) cod))
    as [dd Hdd].
  { left. now rewrite !length_map. }
  destruct (interleave_inr _ _ _ Hdd) as [Hlen _].
  rewrite !length_map in Hlen.
  eexists _, _, _, _. split; [exact Hback|].
  unfold decEstereo_args. rewrite Hback.
  cbn [bind NumChannels BitsPerSample data Z.eqb Pos.eqb negb].
  rewrite dec_samples_eq. cbn [bind]. rewrite Hdd. cbn [bind].
  split; [reflexivity|].
  cbn [NumChannels BitsPerSample SampleRate data set_NumChannels
       set_BitsPerSample set_ByteRate set_BlockAlign].
  rewrite Hh0. repeat split. lia.
Qed.

Lemma decEstereo_takes_codEstereo_output_witness :
  exists out hc dc h d,
    codEstereo (wav 2 16 [10; 4; 1; 0]) = mkOutcome (Some out) None
    /\ read_wave out = inr (hc, dc)
    /\ decEstereo_args out = inr (h, d)
    /\ NumChannels h = 2 /\ BitsPerSample h = 16
    /\ SampleRate h = SampleRate (header_at (wav 2 16 [10; 4; 1; 0]))
    /\ length (data d) = (2 * length (data dc))%nat.
Proof.
  eexists.
  destruct (decEstereo_takes_codEstereo_output (wav 2 16 [10; 4; 1; 0]) _
              ltac:(vm_compute; reflexivity))
    as (hc & dc & h & d & H).
  exists hc, dc, h, d. split; [vm_compute; reflexivity | exact H].
Defined.

(** ** Splitting what mono2estereo combined *)

(** Dictionaries that are valid in the sense of [valid_header] and
    [valid_data] are written without error. *)
Lemma write_wave_valid (h : Header) (d : Data) :
  valid_header h -> valid_data (BitsPerSample h) d ->
  exists out, write_wave h d = mkOutcome (Some out) None.
Proof.
  intros [Hid Hsz Hfmt Hid1 Hsz1 Haf Hnc Hsr Hbr Hba Hbits] [Hid2 Hsz2 Hs].
  destruct (sample_code_ok _ Hbits) as (c & Hc & Hw & Hcase).
  rewrite <- Hw in Hs.
  destruct (pack_samples c (data d) Hcase Hs) as [b4 P4].
  assert (Hb16 : uint 16 (BitsPerSample h)).
  { unfold uint. change (2 ^ 16) with 65536. lia. }
  unfold write_wave, write_body.
  rewrite Hfmt, bytes_eqb_refl. cbn [negb].
  cbn [pack riff_format fmt_format data_format pack1].
  rewrite !(pack_unsigned_ok 4), !(pack_unsigned_ok 2) by assumption.
  unfold ret. cbn [bind]. rewrite Hc, P4.
  eexists. reflexivity.
Qed.

Lemma Forall_slice2 {A} (P : A -> Prop) (l : list A) :
  Forall P l -> Forall P (slice2 l).
Proof.
  induction l as [| x | x y l IH] using list_ind2; intros H.
  - constructor.
  - exact H.
  - change (slice2 (x :: y :: l)) with (x :: slice2 l).
    inversion H as [|? ? Hx H']. inversion H' as [|? ? Hy H''].
    constructor; auto.
Qed.

Lemma Forall_tl {A} (P : A -> Prop) (l : list A) :
  Forall P l -> Forall P (tl l).
Proof. intros H. destruct H; [constructor | assumption]. Qed.

Lemma uint_le (bits x y : Z) : 0 <= x <= y -> uint bits y -> uint bits x.
Proof. unfold uint. lia. Qed.

(** Taking one channel out of a stereo file that [read_wave] accepts
    goes through as soon as the recomputed ByteRate and SubChunk2Size fit
    their 32-bit fields, and the file written holds that channel. *)
Lemma estereo2mono_channel (ficEste : list byte) (canal : Z)
  (h : Header) (d : Data) (mono : list Z) :
  read_wave ficEste = inr (h, d) -> NumChannels h = 2 ->
  mono_samples canal (slice2 (data d)) (slice2 (tl (data d))) = inr mono ->
  Forall (in_signed (BitsPerSample h)) mono ->
  uint 32 (SampleRate h * 1 * BitsPerSample h / 8) ->
  uint 32 (Z.of_nat (length mono) * 1 * BitsPerSample h / 8) ->
  exists out h' d',
    estereo2mono ficEste canal = mkOutcome (Some out) None
    /\ read_wave out = inr (h', d') /\ data d' = mono.
Proof.
  intros Hr Hc Hm Hs Hbr Hsz.
  destruct (read_wave_valid _ _ _ Hr)
    as [[Hid Hcs Hfmt Hid1 Hsz1 Haf Hnc Hsr _ _ Hbits] _].
  unfold estereo2mono, estereo2mono_args.
  rewrite Hr. cbn [bind]. rewrite Hc. cbn [Z.eqb Pos.eqb negb].
  rewrite Hm. cbn [bind]. unfold ret. cbn [then_write].
  cbn [set_NumChannels set_ByteRate set_BlockAlign NumChannels SampleRate
       BitsPerSample ChunkID ChunkSize Format SubChunk1ID SubChunk1Size
       AudioFormat ByteRate BlockAlign].
  match goal with
  | |- context [write_wave ?h' ?d'] =>
      destruct (write_wave_valid h' d') as [out Hw]
  end.
  - constructor; cbn; try assumption.
    + unfold uint. change (2 ^ 16) with 65536. lia.
    + unfold uint. change (2 ^ 16) with 65536.
      destruct Hbits as [-> | [-> | ->]]; cbn; lia.
  - constructor; cbn; [reflexivity | assumption | assumption].
  - exists out. eexists _, _. split; [exact Hw|].
    split; [apply (transcoded_read_back _ _ _ _ _ _ Hr Hw); reflexivity|].
    reflexivity.
Qed.

(** [X16]: Whenever [mono2estereo] returns normally, [estereo2mono] on the file
    it wrote returns normally for the left channel (canal 0) and for the
    right channel (canal 1), and the samples of the two files it writes
    are the samples of the two mono files that were combined. *)
Theorem estereo2mono_after_mono2estereo
  (ficIzq ficDer out : list byte) (hl hr : Header) (dl dr : Data) :
  read_wave ficIzq = inr (hl, dl) ->
  read_wave ficDer = inr (hr, dr) ->
  mono2estereo ficIzq ficDer = mkOutcome (Some out) None ->
  (exists out0 h0 d0,
      estereo2mono out 0 = mkOutcome (Some out0) None
      /\ read_wave out0 = inr (h0, d0) /\ data d0 = data dl)
  /\ (exists out1 h1 d1,
        estereo2mono out 1 = mkOutcome (Some out1) None
        /\ read_wave out1 = inr (h1, d1) /\ data d1 = data dr).
Proof.
  intros Hl Hr Hrun.
  apply then_write_ok in Hrun as (h' & d' & Hargs & Hw).
  apply mono2estereo_args_inv in Hargs
    as (h & d & hr' & dr' & dd & Hl' & _ & Hr' & _ & Hi & -> & ->).
  rewrite Hl in Hl'. injection Hl' as <- <-.
  rewrite Hr in Hr'. injection Hr' as <- <-.
  pose proof (transcoded_read_back _ _ _ _ _ _ Hl Hw eq_refl eq_refl
                eq_refl) as Hback.
  destruct (read_wave_valid _ _ _ Hback)
    as [[_ _ _ _ _ _ _ Hsr Hbr _ Hbits] [_ Hsz Hs]].
  cbn [SampleRate ByteRate BitsPerSample SubChunk2Size data] in *.
  destruct (interleave_slices_of _ _ _ Hi) as [He Ho].
  destruct (interleave_inr _ _ _ Hi) as [_ Hlen].
  assert (Hk : 0 < BitsPerSample hl / 8) by now apply bits_div8_pos.
  rewrite (bits_div8 _ _ Hbits) in Hbr. rewrite (bits_div8 _ _ Hbits) in Hsz.
  assert (Hsr0 : 0 <= SampleRate hl) by (destruct Hsr; assumption).
  assert (Hle : 0 <= Z.of_nat (length (data dr))
                <= Z.of_nat (length (data dl))) by lia.
  split.
  - apply (estereo2mono_channel out 0 _ _ (data dl) Hback eq_refl).
    + cbn [data mono_samples Z.eqb]. unfold ret. now rewrite He.
    + cbn [BitsPerSample]. rewrite <- He. now apply Forall_slice2.
    + cbn [SampleRate BitsPerSample]. rewrite (bits_div8 _ _ Hbits).
      eapply uint_le; [|exact Hbr]. nia.
    + cbn [BitsPerSample]. rewrite (bits_div8 _ _ Hbits).
      eapply uint_le; [|exact Hsz]. nia.
  - apply (estereo2mono_channel out 1 _ _ (data dr) Hback eq_refl).
    + cbn [data mono_samples Z.eqb Pos.eqb]. unfold ret. now rewrite Ho.
    + cbn [BitsPerSample]. rewrite <- Ho.
      now apply Forall_slice2, Forall_tl.
    + cbn [SampleRate BitsPerSample]. rewrite (bits_div8 _ _ Hbits).
      eapply uint_le; [|exact Hbr]. nia.
    + cbn [BitsPerSample]. rewrite (bits_div8 _ _ Hbits).
      eapply uint_le; [|exact Hsz]. nia.
Qed.

Lemma estereo2mono_after_mono2estereo_witness :
  exists out,
    mono2estereo (wav 1 16 [1; 2; 3]) (wav 1 16 [-7; -8; -9])
    = mkOutcome (Some out) None
    /\ (exists out0 h0 d0,
          estereo2mono out 0 = mkOutcome (Some out0) None
          /\ read_wave out0 = inr (h0, d0)
          /\ data d0 = data (mkData data_id 6 [1; 2; 3]))
    /\ (exists out1 h1 d1,
          estereo2mono out 1 = mkOutcome (Some out1) None
          /\ read_wave out1 = inr (h1, d1)
          /\ data d1 = data (mkData data_id 6 [-7; -8; -9])).
Proof.
  eexists. split; [vm_compute; reflexivity|].
  apply (estereo2mono_after_mono2estereo
           (wav 1 16 [1; 2; 3]) (wav 1 16 [-7; -8; -9]) _
           (header_at (wav 1 16 [1; 2; 3]))
           (header_at (wav 1 16 [-7; -8; -9]))).
  - vm_compute. reflexivity.
  - vm_compute. reflexivity.
  - vm_compute. reflexivity.
Defined.

(** ** An odd number of samples in a stereo file *)

Lemma length_slice2_div2 {A} (l : list A) :
  length (slice2 l) = Nat.div2 (S (length l))
  /\ length (slice2 (tl l)) = Nat.div2 (length l).
Proof.
  induction l as [| x | x y l [IH1 IH2]] using list_ind2.
  - auto.
  - auto.
  - cbn [tl]. rewrite (slice2_cons y l).
    change (slice2 (x :: y :: l)) with (x :: slice2 l).
    cbn [length Nat.div2]. rewrite IH1, IH2.
    destruct (length l); auto.
Qed.

(** [X17]: [estereo2mono] splits the [n] samples of the file into [data[::2]]
    and [data[1::2]].  When [n] is odd the last sample belongs to the
    left channel only: canal 0 gives (n+1)/2 samples, and canals 1, 2
    and 3 give n/2 samples, the pairing of the mean and the difference
    dropping the unpaired sample. *)
Theorem mono_samples_length (canal : Z) (s mono : list Z) :
  mono_samples canal (slice2 s) (slice2 (tl s)) = inr mono ->
  length mono = if Z.eqb canal 0 then ((length s + 1) / 2)%nat
                else (length s / 2)%nat.
Proof.
  destruct (length_slice2_div2 s) as [He Ho].
  destruct (length_slice2 s) as [_ Hcmp].
  rewrite <- !Nat.div2_div, Nat.add_1_r.
  unfold mono_samples, raise, ret.
  destruct (Z.eqb_spec canal 0); [intros [= <-]; exact He|].
  destruct (Z.eqb_spec canal 1); [intros [= <-]; exact Ho|].
  destruct (Z.eqb_spec canal 2).
  { intros [= <-]. rewrite length_map, length_combine. lia. }
  destruct (Z.eqb_spec canal 3); [|discriminate].
  intros [= <-]. rewrite length_map, length_combine. lia.
Qed.

Lemma mono_samples_length_witness :
  length [2; 6] = if Z.eqb 2 0 then ((length [1; 3; 5; 7; 9] + 1) / 2)%nat
                  else (length [1; 3; 5; 7; 9] / 2)%nat.
Proof.
  apply (mono_samples_length 2 [1; 3; 5; 7; 9] [2; 6]).
  vm_compute. reflexivity.
Defined.

(** ** When estereo2mono and codEstereo complete *)

(** The floor half-sum and half-difference of two samples of any width
    fit in that width. *)
Lemma semi_in_signed (bits l r : Z) :
  0 < bits -> in_signed bits l -> in_signed bits r ->
  in_signed bits ((l + r) / 2) /\ in_signed bits ((l - r) / 2).
Proof.
  unfold in_signed. intros Hb Hl Hr.
  assert (0 < 2 ^ (bits - 1)) by (apply Z.pow_pos_nonneg; lia).
  split; Z.div_mod_to_equations; lia.
Qed.

Lemma mono_samples_le (canal : Z) (s mono : list Z) :
  mono_samples canal (slice2 s) (slice2 (tl s)) = inr mono ->
  (length mono <= length s)%nat.
Proof.
  destruct (length_slice2 s) as [Hsum _].
  unfold mono_samples, raise, ret.
  destruct (canal =? 0); [intros [= <-]; lia|].
  destruct (canal =? 1); [intros [= <-]; lia|].
  destruct (canal =? 2);
    [intros [= <-]; rewrite length_map, length_combine; lia|].
  destruct (canal =? 3); [|discriminate].
  intros [= <-]. rewrite length_map, length_combine. lia.
Qed.

Lemma mono_samples_in_signed (bits canal : Z) (s mono : list Z) :
  0 < bits -> Forall (in_signed bits) s ->
  mono_samples canal (slice2 s) (slice2 (tl s)) = inr mono ->
  Forall (in_signed bits) mono.
Proof.
  intros Hb Hs.
  pose proof (Forall_slice2 _ _ Hs) as He.
  pose proof (Forall_slice2 _ _ (Forall_tl _ _ Hs)) as Ho.
  pose proof (Forall_combine _ _ _ _ He Ho) as Hc.
  unfold mono_samples, raise, ret.
  destruct (canal =? 0); [now intros [= <-]|].
  destruct (canal =? 1); [now intros [= <-]|].
  destruct (canal =? 2).
  { intros [= <-]. apply Forall_map. eapply Forall_impl; [|exact Hc].
    intros [l r] [Hl Hr]. now apply semi_in_signed. }
  destruct (canal =? 3); [|discriminate].
  intros [= <-]. apply Forall_map. eapply Forall_impl; [|exact Hc].
  intros [l r] [Hl Hr]. now apply semi_in_signed.
Qed.

Lemma mono_samples_ok (canal : Z) (lch rch : list Z) :
  0 <= canal <= 3 -> exists mono, mono_samples canal lch rch = inr mono.
Proof.
  intros Hc.
  assert (H : canal = 0 \/ canal = 1 \/ canal = 2 \/ canal = 3) by lia.
  destruct H as [-> | [-> | [-> | ->]]]; eexists; reflexivity.
Qed.

(** [X18]: On a stereo file that [read_wave] accepts, of any of the three
    sample widths, [estereo2mono] with a [canal] from 0 to 3 returns
    normally provided the recomputed ByteRate fits its 32-bit field and
    the file is shorter than 2^32 bytes; in particular the mean and the
    difference never leave the sample range of the file.  The file
    written holds the samples of the chosen mode. *)
Theorem estereo2mono_completes (ficEste : list byte) (canal : Z)
  (h : Header) (d : Data) :
  read_wave ficEste = inr (h, d) -> NumChannels h = 2 ->
  0 <= canal <= 3 ->
  SampleRate h * (BitsPerSample h / 8) < 2 ^ 32 ->
  Z.of_nat (length ficEste) < 2 ^ 32 ->
  exists out h' d',
    estereo2mono ficEste canal = mkOutcome (Some out) None
    /\ read_wave out = inr (h', d')
    /\ mono_samples canal (slice2 (data d)) (slice2 (tl (data d)))
       = inr (data d').
Proof.
  intros Hr Hc Hcanal Hrate Hsize.
  destruct (read_wave_valid _ _ _ Hr)
    as [[_ _ _ _ _ _ _ Hsr _ _ Hbits] [_ _ Hs]].
  pose proof (read_wave_count _ _ _ Hr) as Hn.
  pose proof (bits_div8_pos _ Hbits) as Hk.
  destruct (mono_samples_ok canal (slice2 (data d)) (slice2 (tl (data d)))
              Hcanal) as [mono Hm].
  pose proof (mono_samples_le _ _ _ Hm) as Hle.
  destruct (estereo2mono_channel ficEste canal h d mono Hr Hc Hm)
    as (out & h' & d' & Hrun & Hback & Hd).
  - apply (mono_samples_in_signed _ canal (data d)); [lia | assumption..].
  - rewrite (bits_div8 _ _ Hbits). unfold uint in *. nia.
  - rewrite (bits_div8 _ _ Hbits). unfold uint. nia.
  - exists out, h', d'. rewrite Hd. auto.
Qed.

Lemma estereo2mono_completes_witness :
  exists out h' d',
    estereo2mono (wav 2 8 [127; -128; -128; 127; 5]) 3
    = mkOutcome (Some out) None
    /\ read_wave out = inr (h', d')
    /\ mono_samples 3 (slice2 (data (mkData data_id 5
                                       [127; -128; -128; 127; 5])))
         (slice2 (tl (data (mkData data_id 5 [127; -128; -128; 127; 5]))))
       = inr (data d').
Proof.
  apply (estereo2mono_completes (wav 2 8 [127; -128; -128; 127; 5]) 3
           (header_at (wav 2 8 [127; -128; -128; 127; 5]))
           (mkData data_id 5 [127; -128; -128; 127; 5])).
  - vm_compute. reflexivity.
  - reflexivity.
  - lia.
  - vm_compute. reflexivity.
  - vm_compute. reflexivity.
Defined.

Lemma in_signed_8_16 (bits n : Z) :
  bits = 8 \/ bits = 16 -> in_signed bits n -> int16 n.
Proof.
  unfold int16, in_signed. intros [-> | ->].
  - change (2 ^ (8 - 1)) with 128. change (2 ^ (16 - 1)) with 32768. lia.
  - auto.
Qed.

(** [X19]: On a stereo file of 8 or 16 bits per sample that [read_wave]
    accepts, [codEstereo] returns normally provided four times the sample
    rate fits the 32-bit ByteRate and the file is shorter than 2^31
    bytes: the half-sums and half-differences always fit in 16 bits.  The
    file written is mono, 32 bits per sample, with one sample per pair
    of input samples. *)
Theorem codEstereo_completes (ficEste : list byte) (h : Header) (d : Data) :
  read_wave ficEste = inr (h, d) -> NumChannels h = 2 ->
  BitsPerSample h = 8 \/ BitsPerSample h = 16 ->
  SampleRate h * 4 < 2 ^ 32 ->
  Z.of_nat (length ficEste) < 2 ^ 31 ->
  exists out h' d',
    codEstereo ficEste = mkOutcome (Some out) None
    /\ read_wave out = inr (h', d')
    /\ NumChannels h' = 1 /\ BitsPerSample h' = 32
    /\ cod_samples (slice2 (data d)) (slice2 (tl (data d))) = inr (data d')
    /\ length (data d') = (length (data d) / 2)%nat.
Proof.
  intros Hr Hc Hb Hrate Hsize.
  destruct (read_wave_valid _ _ _ Hr)
    as [[Hid Hcs Hfmt Hid1 Hsz1 Haf Hnc Hsr _ _ Hbits] [_ _ Hs]].
  pose proof (read_wave_count _ _ _ Hr) as Hn.
  pose proof (bits_div8_pos _ Hbits) as Hk.
  assert (H16 : Forall int16 (data d)).
  { eapply Forall_impl; [|exact Hs]. intros n. now apply in_signed_8_16. }
  pose proof (Forall_slice2 _ _ H16) as He.
  pose proof (Forall_slice2 _ _ (Forall_tl _ _ H16)) as Ho.
  pose proof (cod_samples_int16 _ _ He Ho) as Hcod.
  destruct (length_slice2_div2 (data d)) as [Le Lo].
  destruct (length_slice2 (data d)) as [Lsum Lcmp].
  set (cod := map (fun p => packed ((fst p + snd p) / 2)
                                   ((fst p - snd p) / 2))
                  (combine (slice2 (data d)) (slice2 (tl (data d))))) in *.
  assert (Lcod : length cod = (length (data d) / 2)%nat).
  { unfold cod. rewrite length_map, length_combine, <- Nat.div2_div. lia. }
  assert (Lle : (2 * length cod <= length (data d))%nat).
  { unfold cod. rewrite length_map, length_combine. lia. }
  unfold codEstereo, codEstereo_args.
  rewrite Hr. cbn [bind]. rewrite Hc. cbn [Z.eqb Pos.eqb negb].
  rewrite Hcod. cbn [bind]. unfold ret. cbn [then_write].
  cbn [set_NumChannels set_ByteRate set_BlockAlign set_BitsPerSample
       NumChannels SampleRate BitsPerSample ChunkID ChunkSize Format
       SubChunk1ID SubChunk1Size AudioFormat ByteRate BlockAlign].
  match goal with
  | |- context [write_wave ?h' ?d'] =>
      destruct (write_wave_valid h' d') as [out Hw]
  end.
  - constructor; cbn [ChunkID ChunkSize Format SubChunk1ID SubChunk1Size
                      AudioFormat NumChannels SampleRate ByteRate
                      BlockAlign BitsPerSample set_NumChannels set_ByteRate
                      set_BlockAlign set_BitsPerSample]; try assumption.
    + unfold uint. change (2 ^ 16) with 65536. lia.
    + rewrite (bits_div8 (SampleRate h * 1) 32) by auto.
      change (32 / 8) with 4. unfold uint in *. lia.
    + unfold uint. change (2 ^ 16) with 65536.
      change (1 * 32 / 8) with 4. lia.
    + auto.
  - constructor; cbn [SubChunk2ID SubChunk2Size data BitsPerSample
                      NumChannels set_NumChannels set_ByteRate
                      set_BlockAlign set_BitsPerSample].
    + reflexivity.
    + rewrite (bits_div8 (Z.of_nat (length cod) * 1) 32) by auto.
      change (32 / 8) with 4. unfold uint.
      change (2 ^ 32) with 4294967296. change (2 ^ 31) with 2147483648 in *.
      nia.
    + unfold cod. apply Forall_map, Forall_forall. intros p _.
      apply packed_int32.
  - exists out. eexists _, _. split; [exact Hw|].
    split; [apply (transcoded_read_back _ _ _ _ _ _ Hr Hw); reflexivity|].
    cbn [NumChannels BitsPerSample data set_NumChannels set_ByteRate
         set_BlockAlign set_BitsPerSample]. auto.
Qed.

Lemma codEstereo_completes_witness :
  exists out h' d',
    codEstereo (wav 2 16 [32767; -32768; -32768; -32768; 9])
    = mkOutcome (Some out) None
    /\ read_wave out = inr (h', d')
    /\ NumChannels h' = 1 /\ BitsPerSample h' = 32
    /\ cod_samples
         (slice2 (data (mkData data_id 10
                          [32767; -32768; -32768; -32768; 9])))
         (slice2 (tl (data (mkData data_id 10
                              [32767; -32768; -32768; -32768; 9]))))
       = inr (data d')
    /\ length (data d')
       = Nat.div (length (data (mkData data_id 10
                                  [32767; -32768; -32768; -32768; 9]))) 2.
Proof.
  apply (codEstereo_completes
           (wav 2 16 [32767; -32768; -32768; -32768; 9])
           (header_at (wav 2 16 [32767; -32768; -32768; -32768; 9]))
           (mkData data_id 10 [32767; -32768; -32768; -32768; 9])).
  - vm_compute. reflexivity.
  - reflexivity.
  - right. reflexivity.
  - vm_compute. reflexivity.
  - vm_compute. reflexivity.
Defined.

(** * The joint-stereo round trip, on samples and through files *)

(** ** How the packing of the samples ends write_wave *)

Lemma pack_samples_inv (c : code) (samples : list Z) (bs : list byte) :
  c = c_b \/ c = c_h \/ c = c_i ->
  pack (repeat c (length samples)) (map Int samples) = inr bs ->
  Forall (in_signed (8 * Z.of_nat (size c))) samples.
Proof.
  intros Hc. revert bs. induction samples as [|s samples IH]; intros bs.
  - constructor.
  - cbn [length repeat map pack].
    destruct (pack1 c (Int s)) as [?|b] eqn:E1; cbn [bind]; [discriminate|].
    destruct (pack (repeat c (length samples)) (map Int samples))
      as [?|bs'] eqn:E2; cbn [bind]; [discriminate|].
    intros _. constructor; [|now apply (IH bs')].
    destruct Hc as [-> | [-> | ->]]; cbn [pack1 size] in *;
      apply pack_signed_inv in E1 as [H _]; exact H.
Qed.

(** A [write_wave] that returned normally was given samples in the range
    of its BitsPerSample. *)
Lemma write_wave_in_signed (h : Header) (d : Data) (out : list byte) :
  write_wave h d = mkOutcome (Some out) None ->
  Forall (in_signed (BitsPerSample h)) (data d).
Proof.
  intros Hw.
  apply write_wave_inv in Hw
    as (_ & b1 & b2 & b3 & c & b4 & _ & _ & _ & Hc & P4 & _).
  destruct (sample_code_inv _ _ Hc) as (_ & Hsz & Hcase).
  rewrite <- Hsz. now apply (pack_samples_inv c (data d) b4).
Qed.

(** With a valid header and a valid data subchunk header, a sample out
    of range is the only thing that stops [write_wave], and it does so
    after the 44 bytes of the three headers. *)
Lemma write_wave_out_of_range (h : Header) (d : Data) :
  valid_header h -> length (SubChunk2ID d) = 4%nat ->
  uint 32 (SubChunk2Size d) ->
  ~ Forall (in_signed (BitsPerSample h)) (data d) ->
  exists hdr, write_wave h d = mkOutcome (Some hdr) (Some StructError)
              /\ length hdr = 44%nat.
Proof.
  intros Hh Hid Hsz Hbad.
  destruct (write_wave_valid h (mkData (SubChunk2ID d) (SubChunk2Size d) []))
    as [out0 Hw0]; [assumption | constructor; cbn; auto|].
  apply write_wave_inv in Hw0
    as (Hfmt & b1 & b2 & b3 & c & b4 & P1 & P2 & P3 & Hc & _ & _).
  cbn [SubChunk2ID SubChunk2Size] in P3.
  destruct (sample_code_inv _ _ Hc) as (_ & Hw & Hcase).
  unfold write_wave, write_body.
  rewrite P1, P2, P3, Hc, Hfmt, bytes_eqb_refl. cbn [negb].
  apply pack_length_any in P1, P2, P3.
  rewrite calcsize_riff in P1. rewrite calcsize_fmt in P2.
  rewrite calcsize_data in P3.
  destruct (pack (repeat c (length (data d))) (map Int (data d)))
    as [e|b] eqn:P4.
  - apply pack_error in P4. subst e. eexists. split; [reflexivity|].
    cbn [app]. rewrite !length_app, P1, P2, P3. reflexivity.
  - exfalso. apply Hbad. rewrite <- Hw.
    now apply (pack_samples_inv c (data d) b).
Qed.

Lemma Forall_slices {A} (P : A -> Prop) (l : list A) :
  Forall P (slice2 l) -> Forall P (slice2 (tl l)) -> Forall P l.
Proof.
  induction l as [| x | x y l IH] using list_ind2; intros He Ho.
  - constructor.
  - exact He.
  - change (slice2 (x :: y :: l)) with (x :: slice2 l) in He.
    cbn [tl] in Ho. rewrite slice2_cons in Ho.
    inversion He as [|? ? Hx He']. inversion Ho as [|? ? Hy Ho'].
    constructor; [assumption|]. constructor; [assumption|].
    now apply IH.
Qed.

(** ** codEstereo and decEstereo on whole files *)

(** [codEstereo] on a stereo file whose two channels, as it slices them,
    are in the 16-bit range: it completes when the two sizes it recomputes
    fit their 32-bit fields, and its output reads back as a mono 32-bit
    file with the encoded samples. *)
Lemma codEstereo_int16 (ficEste : list byte) (h : Header) (d : Data) :
  read_wave ficEste = inr (h, d) -> NumChannels h = 2 ->
  Forall int16 (slice2 (data d)) -> Forall int16 (slice2 (tl (data d))) ->
  SampleRate h * 4 < 2 ^ 32 ->
  4 * Z.of_nat (length (slice2 (tl (data d)))) < 2 ^ 32 ->
  exists cod ficCod hc dc,
    cod_samples (slice2 (data d)) (slice2 (tl (data d))) = inr cod
    /\ codEstereo ficEste = mkOutcome (Some ficCod) None
    /\ read_wave ficCod = inr (hc, dc)
    /\ data dc = cod
    /\ NumChannels hc = 1 /\ BitsPerSample hc = 32
    /\ SampleRate hc = SampleRate h.
Proof.
  intros Hr Hc He Ho Hrate Hsize.
  destruct (read_wave_valid _ _ _ Hr)
    as [[Hid Hcs Hfmt Hid1 Hsz1 Haf Hnc Hsr _ _ Hbits] _].
  pose proof (cod_samples_int16 _ _ He Ho) as Hcod.
  destruct (length_slice2 (data d)) as [_ Lcmp].
  set (cod := map (fun p => packed ((fst p + snd p) / 2)
                                   ((fst p - snd p) / 2))
                  (combine (slice2 (data d)) (slice2 (tl (data d))))) in *.
  assert (Lcod : length cod = length (slice2 (tl (data d)))).
  { unfold cod. rewrite length_map, length_combine. lia. }
  exists cod.
  unfold codEstereo, codEstereo_args.
  rewrite Hr. cbn [bind]. rewrite Hc. cbn [Z.eqb Pos.eqb negb].
  rewrite Hcod. cbn [bind]. unfold ret. cbn [then_write].
  cbn [set_NumChannels set_ByteRate set_BlockAlign set_BitsPerSample
       NumChannels SampleRate BitsPerSample ChunkID ChunkSize Format
       SubChunk1ID SubChunk1Size AudioFormat ByteRate BlockAlign].
  match goal with
  | |- context [write_wave ?h' ?d'] =>
      destruct (write_wave_valid h' d') as [out Hw]
  end.
  - constructor; cbn [ChunkID ChunkSize Format SubChunk1ID SubChunk1Size
                      AudioFormat NumChannels SampleRate ByteRate
                      BlockAlign BitsPerSample set_NumChannels set_ByteRate
                      set_BlockAlign set_BitsPerSample]; try assumption.
    + unfold uint. change (2 ^ 16) with 65536. lia.
    + rewrite (bits_div8 (SampleRate h * 1) 32) by auto.
      change (32 / 8) with 4. unfold uint in *. lia.
    + unfold uint. change (2 ^ 16) with 65536.
      change (1 * 32 / 8) with 4. lia.
    + auto.
  - constructor; cbn [SubChunk2ID SubChunk2Size data BitsPerSample
                      NumChannels set_NumChannels set_ByteRate
                      set_BlockAlign set_BitsPerSample].
    + reflexivity.
    + rewrite (bits_div8 (Z.of_nat (length cod) * 1) 32) by auto.
      change (32 / 8) with 4. unfold uint. rewrite Lcod. lia.
    + unfold cod. apply Forall_map, Forall_forall. intros p _.
      apply packed_int32.
  - exists out. eexists _, _. split; [reflexivity|].
    split; [exact Hw|].
    split; [apply (transcoded_read_back _ _ _ _ _ _ Hr Hw); reflexivity|].
    cbn [NumChannels BitsPerSample SampleRate data set_NumChannels
         set_ByteRate set_BlockAlign set_BitsPerSample]. auto.
Qed.

(** [decEstereo] on a mono 32-bit file that [read_wave] accepts, when the
    two sizes it recomputes fit their 32-bit fields: the call completes
    exactly when every decoded sample is in the 16-bit range, the file it
    then writes has the decoded left channel at the even positions and
    the decoded right channel at the odd ones, and otherwise it ends in
    the [struct.error] of the 16-bit packing, after the 44 bytes of
    headers. *)
Lemma decEstereo_outcome (ficCod : list byte) (h : Header) (d : Data)
  (dl dr : list Z) :
  read_wave ficCod = inr (h, d) -> NumChannels h = 1 ->
  BitsPerSample h = 32 ->
  dec_samples (data d) = inr (dl, dr) ->
  SampleRate h * 4 < 2 ^ 32 ->
  8 * Z.of_nat (length (data d)) < 2 ^ 32 ->
  (Forall int16 dl /\ Forall int16 dr ->
     exists out, decEstereo ficCod = mkOutcome (Some out) None)
  /\ (forall out, decEstereo ficCod = mkOutcome (Some out) None ->
        Forall int16 dl /\ Forall int16 dr
        /\ exists ho do_,
             read_wave out = inr (ho, do_)
             /\ NumChannels ho = 2 /\ BitsPerSample ho = 16
             /\ slice2 (data do_) = dl /\ slice2 (tl (data do_)) = dr)
  /\ (~ (Forall int16 dl /\ Forall int16 dr) ->
        exists hdr, decEstereo ficCod = mkOutcome (Some hdr) (Some StructError)
                    /\ length hdr = 44%nat).
Proof.
  intros Hr Hc Hb Hd Hrate Hsize.
  destruct (read_wave_valid _ _ _ Hr)
    as [[Hid Hcs Hfmt Hid1 Hsz1 Haf Hnc Hsr _ _ Hbits] _].
  pose proof Hd as Hd'. rewrite dec_samples_eq in Hd'.
  assert (Ll : length dl = length (data d))
    by (injection Hd' as <- <-; now rewrite length_map).
  assert (Lr : length dr = length (data d))
    by (injection Hd' as <- <-; now rewrite length_map).
  clear Hd'.
  destruct (interleave_ok dl dr) as [dd Hdd]; [left; congruence|].
  destruct (interleave_inr _ _ _ Hdd) as [Ldd _].
  destruct (interleave_slices_of _ _ _ Hdd) as [Se So].
  assert (Hargs :
    decEstereo_args ficCod
    = inr (mkHeader (ChunkID h) (ChunkSize h) (Format h) (SubChunk1ID h)
             (SubChunk1Size h) (AudioFormat h) 2 (SampleRate h)
             (SampleRate h * 2 * 16 / 8) (2 * 16 / 8) 16,
           mkData data_id (Z.of_nat (length dd) * 2 * 16 / 8) dd)).
  { unfold decEstereo_args. rewrite Hr. cbn [bind]. rewrite Hc, Hb.
    cbn [Z.eqb Pos.eqb negb]. rewrite Hd. cbn [bind]. rewrite Hdd.
    reflexivity. }
  unfold decEstereo. rewrite Hargs. cbn [then_write].
  set (h' := mkHeader _ _ _ _ _ _ _ _ _ _ _) in *.
  set (d' := mkData _ _ _) in *.
  assert (Vh : valid_header h').
  { constructor; cbn [h' ChunkID ChunkSize Format SubChunk1ID SubChunk1Size
                      AudioFormat NumChannels SampleRate ByteRate
                      BlockAlign BitsPerSample]; try assumption.
    - unfold uint. change (2 ^ 16) with 65536. lia.
    - rewrite (bits_div8 (SampleRate h * 2) 16) by auto.
      change (16 / 8) with 2. unfold uint in *. lia.
    - unfold uint. change (2 ^ 16) with 65536.
      change (2 * 16 / 8) with 4. lia.
    - auto. }
  assert (Vsz : uint 32 (SubChunk2Size d')).
  { cbn [d' SubChunk2Size].
    rewrite (bits_div8 (Z.of_nat (length dd) * 2) 16) by auto.
    change (16 / 8) with 2. unfold uint. rewrite Ldd. lia. }
  assert (Hall : Forall int16 dd <-> Forall int16 dl /\ Forall int16 dr).
  { split.
    - intros H. split.
      + rewrite <- Se. now apply Forall_slice2.
      + rewrite <- So. now apply Forall_slice2, Forall_tl.
    - intros [Hl Hr']. apply Forall_slices; congruence. }
  split; [|split].
  - intros H. apply Hall in H.
    apply (write_wave_valid h' d'); [exact Vh|].
    constructor; [reflexivity | exact Vsz | exact H].
  - intros out Hw.
    pose proof (write_wave_in_signed _ _ _ Hw) as H.
    change (Forall int16 dd) in H. apply Hall in H. destruct H as [Hl Hr'].
    split; [exact Hl|]. split; [exact Hr'|].
    exists h', d'.
    split; [apply (transcoded_read_back _ _ _ _ _ _ Hr Hw); reflexivity|].
    cbn [h' d' NumChannels BitsPerSample data]. auto.
  - intros Hbad.
    apply (write_wave_out_of_range h' d'); [exact Vh | reflexivity
                                            | exact Vsz |].
    intros H. apply Hbad, Hall. exact H.
Qed.

(** ** The round trip *)

(** On equal-length channels of 16-bit samples the encoder's
    comprehensions give one sample per pair, the decoder's comprehensions
    take them, and the left channel comes back without the parity of
    left+right. *)
Lemma cod_then_dec_samples (lch rch : list Z) :
  length lch = length rch -> Forall int16 lch -> Forall int16 rch ->
  exists cod dl dr,
    cod_samples lch rch = inr cod
    /\ length cod = length lch
    /\ dec_samples cod = inr (dl, dr)
    /\ dl = map (fun p => fst p - (fst p + snd p) mod 2) (combine lch rch)
    /\ length dl = length lch /\ length dr = length rch.
Proof.
  intros Hlen Hl Hr.
  pose proof (Forall_combine _ _ _ _ Hl Hr) as Hc.
  assert (Hn : length (combine lch rch) = length lch)
    by (rewrite length_combine; lia).
  eexists _, _, _. split; [now apply cod_samples_int16|].
  split; [now rewrite length_map|].
  rewrite <- (map_map (fun p => ((fst p + snd p) / 2, (fst p - snd p) / 2))
                      (fun q => packed (fst q) (snd q))).
  rewrite dec_samples_packed.
  2:{ apply Forall_map. eapply Forall_impl; [|exact Hc].
      intros [l r] [Hl' Hr']. cbn [fst snd].
      split; [now apply semi_sum_int16 | now apply semi_diff_int16]. }
  split; [reflexivity|]. rewrite !map_map. cbn [fst snd].
  split.
  - apply map_ext. intros [l r]. cbn [fst snd].
    rewrite <- semi_sum_plus_semi_diff. lia.
  - rewrite !length_map. lia.
Qed.

(** The left sample without the parity of left+right leaves the 16-bit
    range only at -32768 with an odd right sample. *)
Lemma left_less_parity_int16 (l r : Z) :
  int16 l ->
  int16 (l - (l + r) mod 2) <-> ~ (l = -32768 /\ r mod 2 = 1).
Proof.
  rewrite !int16_bounds. intros Hl. split.
  - intros H [-> Hr]. Z.div_mod_to_equations. lia.
  - intros H. destruct (Z.eq_dec l (-32768)) as [->|Hne].
    + assert (Hr : r mod 2 <> 1) by tauto.
      Z.div_mod_to_equations. lia.
    + Z.div_mod_to_equations. lia.
Qed.

(** [C1], amended: for equal-length channels of 16-bit samples the
    encoding comprehensions of [codEstereo] succeed with one sample per
    pair, the decoding comprehensions of [decEstereo] succeed on them, and
    the decoded left channel is the original one up to the parity bit the
    floor divisions drop: left[i] where left[i]+right[i] is even,
    left[i]-1 where it is odd; it leaves the 16-bit range exactly where
    left[i] = -32768 and right[i] is odd.  Through files: on a stereo
    file that [read_wave] accepts and that holds these channels, with
    4*SampleRate and 8*len(left) below 2^32, [codEstereo] completes and
    its file holds the encoded samples; [decEstereo] on that file
    completes exactly when every decoded sample, left and right, is in the
    16-bit range, and the stereo 16-bit file it then writes holds the
    decoded left channel at the even positions and the decoded right
    channel at the odd ones; otherwise it ends in a [struct.error] after
    the 44 bytes of headers. *)
Theorem C1_round_trip_left_up_to_parity (lch rch : list Z) :
  length lch = length rch -> Forall int16 lch -> Forall int16 rch ->
  exists cod dl dr,
    cod_samples lch rch = inr cod
    /\ length cod = length lch
    /\ dec_samples cod = inr (dl, dr)
    /\ dl = map (fun p => fst p - (fst p + snd p) mod 2) (combine lch rch)
    /\ length dl = length lch /\ length dr = length rch
    /\ (Forall int16 dl
        <-> Forall (fun p => ~ (fst p = -32768 /\ snd p mod 2 = 1))
                   (combine lch rch))
    /\ forall (ficEste : list byte) (h : Header) (d : Data),
         read_wave ficEste = inr (h, d) -> NumChannels h = 2 ->
         slice2 (data d) = lch -> slice2 (tl (data d)) = rch ->
         SampleRate h * 4 < 2 ^ 32 ->
         8 * Z.of_nat (length lch) < 2 ^ 32 ->
         exists ficCod hc dc,
           codEstereo ficEste = mkOutcome (Some ficCod) None
           /\ read_wave ficCod = inr (hc, dc) /\ data dc = cod
           /\ ((exists out, decEstereo ficCod = mkOutcome (Some out) None)
               <-> Forall int16 dl /\ Forall int16 dr)
           /\ (forall out,
                 decEstereo ficCod = mkOutcome (Some out) None ->
                 exists ho do_,
                   read_wave out = inr (ho, do_)
                   /\ NumChannels ho = 2 /\ BitsPerSample ho = 16
                   /\ slice2 (data do_) = dl
                   /\ slice2 (tl (data do_)) = dr)
           /\ (~ (Forall int16 dl /\ Forall int16 dr) ->
               exists hdr,
                 decEstereo ficCod
                 = mkOutcome (Some hdr) (Some StructError)
                 /\ length hdr = 44%nat).
Proof.
  intros Hlen Hl Hr.
  destruct (cod_then_dec_samples lch rch Hlen Hl Hr)
    as (cod & dl & dr & Hcod & Lcod & Hdec & Hdl & Ldl & Ldr).
  exists cod, dl, dr.
  do 6 (split; [assumption|]).
  split.
  - pose proof (Forall_combine _ _ _ _ Hl Hr) as Hc.
    rewrite Forall_forall in Hc.
    rewrite Hdl, Forall_map, !Forall_forall.
    split; intros H [l r] Hin; specialize (H _ Hin);
      destruct (Hc _ Hin) as [Hl' _]; cbn [fst snd] in *;
      now apply (left_less_parity_int16 l r Hl').
  - intros ficEste h d Hread Hch He Ho Hrate Hsize.
    destruct (codEstereo_int16 ficEste h d Hread Hch)
      as (cod' & ficCod & hc & dc & Hcod' & Hrun & Hback & Hdc & Hnc
          & Hbits & Hsr).
    + now rewrite He.
    + now rewrite Ho.
    + exact Hrate.
    + rewrite Ho, <- Hlen. lia.
    + rewrite He, Ho, Hcod in Hcod'. injection Hcod' as <-.
      destruct (decEstereo_outcome ficCod hc dc dl dr Hback Hnc Hbits)
        as (Hok & Hinv & Hbad).
      * now rewrite Hdc.
      * now rewrite Hsr.
      * rewrite Hdc, Lcod. exact Hsize.
      * exists ficCod, hc, dc.
        split; [exact Hrun|]. split; [exact Hback|]. split; [exact Hdc|].
        split; [|split].
        -- split; [|exact Hok].
           intros [out Hout].
           destruct (Hinv out Hout) as (H1 & H2 & _). auto.
        -- intros out Hout.
           destruct (Hinv out Hout) as (_ & _ & H). exact H.
        -- exact Hbad.
Qed.

Lemma C1_round_trip_left_up_to_parity_witness :
  exists cod dl dr ficCod out ho do_,
    cod_samples [10; 1; -3] [4; 0; -8] = inr cod
    /\ dec_samples cod = inr (dl, dr)
    /\ dl = [10; 0; -4]
    /\ codEstereo (wav 2 16 [10; 4; 1; 0; -3; -8])
       = mkOutcome (Some ficCod) None
    /\ decEstereo ficCod = mkOutcome (Some out) None
    /\ read_wave out = inr (ho, do_)
    /\ slice2 (data do_) = dl.
Proof.
  destruct (C1_round_trip_left_up_to_parity [10; 1; -3] [4; 0; -8])
    as (cod & dl & dr & Hcod & _ & Hdec & Hdl & _ & _ & _ & Hfile).
  - reflexivity.
  - repeat constructor; apply int16_bounds; lia.
  - repeat constructor; apply int16_bounds; lia.
  - destruct (Hfile (wav 2 16 [10; 4; 1; 0; -3; -8])
                (header_at (wav 2 16 [10; 4; 1; 0; -3; -8]))
                (mkData data_id 12 [10; 4; 1; 0; -3; -8]))
      as (ficCod & hc & dc & Hrun & _ & _ & Hiff & Hout & _).
    + vm_compute. reflexivity.
    + reflexivity.
    + reflexivity.
    + reflexivity.
    + vm_compute. reflexivity.
    + vm_compute. reflexivity.
    + destruct (proj2 Hiff) as [out Hdone].
      { vm_compute in Hcod. injection Hcod as <-.
        vm_compute in Hdec. injection Hdec as <- <-.
        split; repeat constructor; apply int16_bounds; lia. }
      destruct (Hout out Hdone) as (ho & do_ & Hback & _ & _ & Hs & _).
      exists cod, dl, dr, ficCod, out, ho, do_.
      split; [exact Hcod|]. split; [exact Hdec|].
      split; [rewrite Hdl; reflexivity|].
      split; [exact Hrun|]. split; [exact Hdone|].
      split; [exact Hback | exact Hs].
Defined.
